(** * enterprise: the NANOGrav 9-year notebook and the engine it drives

    The notebook [docs/_static/notebooks/nano9.ipynb] contains code of its
    own: the PAL2 noise-file reader [get_noise_from_pal2], the selection of
    the files and the collection of the noise values, the time span, the
    construction of the sampler's jump groups, and the upper-limit
    read-out.  They are embedded here function by function.  The engine the
    notebook calls ([parameter], [signal_base.PTA]) is described by the
    specification only; its model is marked as such. *)

From Stdlib Require Import List String Ascii Arith Bool Lia.
From Stdlib Require Import ZArith QArith Qround Reals Qreals Lra.
From Stdlib Require Import Permutation.
From Stdlib Require Import ClassicalEpsilon FunctionalExtensionality.
From HB Require Import structures.
From mathcomp Require boot algebra.
Import ListNotations.

Close Scope R_scope.
Close Scope Q_scope.
Close Scope Z_scope.
Open Scope nat_scope.

Set Implicit Arguments.
Set Warnings "-notation-overridden,-ambiguous-paths".
Set Warnings "-redundant-canonical-projection,-deprecated".

(** ** A small exception monad for the Python code *)

Inductive exn : Type :=
| IndexError
| ValueError
| IOError
| MissingParameterError
| NonPositiveDefiniteError.

Inductive result (A : Type) : Type :=
| Returned (a : A)
| Raised (e : exn).

Arguments Returned {A} a.
Arguments Raised {A} e.

Definition bind {A B : Type} (m : result A) (k : A -> result B) : result B :=
  match m with
  | Returned a => k a
  | Raised e => Raised e
  end.

Notation "x <- m ;; k" := (bind m (fun x => k))
  (at level 61, m at next level, right associativity).

(** ** Python string primitives used by the notebook *)

Module PyStr.

Local Open Scope string_scope.

(** [needle in hay] *)
Fixpoint contains (needle hay : string) : bool :=
  String.prefix needle hay ||
  match hay with
  | EmptyString => false
  | String _ hay' => contains needle hay'
  end.

(** [s.split(sep)] for a non-empty separator: the pieces between the
    non-overlapping occurrences of [sep], scanned from the left.  [skip]
    counts the characters of a matched separator still to be dropped and
    [cur] is the piece being read.  (Python raises ValueError on an empty
    separator; every call site passes a literal, non-empty one.) *)
Fixpoint split_from (sep : string) (skip : nat) (cur s : string) : list string :=
  match s with
  | EmptyString => [cur]
  | String c s' =>
      match skip with
      | S k => split_from sep k cur s'
      | O =>
          if String.prefix sep s
          then cur :: split_from sep (String.length sep - 1) EmptyString s'
          else split_from sep 0 (cur ++ String c EmptyString) s'
      end
  end.

Definition split (sep s : string) : list string :=
  split_from sep 0 EmptyString s.

(** Python 2 [str.isspace] on one character: space, \t, \n, \v, \f, \r. *)
Definition is_space (c : ascii) : bool :=
  let n := nat_of_ascii c in
  Nat.eqb n 32 || (Nat.leb 9 n && Nat.leb n 13).

(** [s.split()] with no argument: the maximal runs of non-blank characters. *)
Fixpoint words_from (cur s : string) : list string :=
  match s with
  | EmptyString => match cur with EmptyString => [] | _ => [cur] end
  | String c s' =>
      if is_space c
      then match cur with
           | EmptyString => words_from EmptyString s'
           | _ => cur :: words_from EmptyString s'
           end
      else words_from (cur ++ String c EmptyString) s'
  end.

Definition words (s : string) : list string := words_from EmptyString s.

(** [sep.join(parts)] *)
Fixpoint join (sep : string) (parts : list string) : string :=
  match parts with
  | [] => EmptyString
  | [p] => p
  | p :: rest => p ++ sep ++ join sep rest
  end.

(** [l[0]], [l[1]], ... raise IndexError out of range. *)
Definition item {A : Type} (l : list A) (i : nat) : result A :=
  match nth_error l i with
  | Some a => Returned a
  | None => Raised IndexError
  end.

(** [l[-1]] *)
Definition last_item {A : Type} (l : list A) : result A :=
  item (rev l) 0.

(** Truth value of a string in a condition: non-empty. *)
Definition truthy (s : string) : bool :=
  match s with EmptyString => false | _ => true end.

End PyStr.

(** ** [get_noise_from_pal2] (notebook cell 2) *)

Module NoiseFile.

Import PyStr.
Local Open Scope string_scope.

(** A Python dict as an association list with unique keys;
    [params.update({k: v})] overwrites the entry of [k] or adds one. *)
Fixpoint dict_update {V : Type} (k : string) (v : V) (d : list (string * V))
  : list (string * V) :=
  match d with
  | [] => [(k, v)]
  | (k', v') :: d' =>
      if String.eqb k k' then (k, v) :: d' else (k', v') :: dict_update k v d'
  end.

Definition keys {V : Type} (d : list (string * V)) : list string := map fst d.

Section Reader.

(** The value type of the dictionary and Python's [float(s)], which raises
    ValueError on text that is not a number. *)
Variable V : Type.
Variable float : string -> option V.

Definition to_float (s : string) : result V :=
  match float s with
  | Some v => Returned v
  | None => Raised ValueError
  end.

(** [psrname = noisefile.split('/')[-1].split('_noise.txt')[0]] *)
Definition psrname_of (noisefile : string) : result string :=
  base <- last_item (split "/" noisefile) ;;
  item (split "_noise.txt" base) 0.

(** The [if/elif/else] chain of the loop body: [Some (par, flag)] for a
    recognised line, [None] for the [else: break] branch. *)
Definition classify (line : string) (ln : list string)
  : result (option (string * string)) :=
  if contains "efac" line then
    w <- item ln 0 ;;
    flag <- last_item (split "efac-" w) ;;
    Returned (Some ("efac", flag))
  else if contains "equad" line then
    w <- item ln 0 ;;
    flag <- last_item (split "equad-" w) ;;
    Returned (Some ("log10_equad", flag))
  else if contains "jitter_q" line then
    w <- item ln 0 ;;
    flag <- last_item (split "jitter_q-" w) ;;
    Returned (Some ("log10_ecorr", flag))
  else if contains "RN-Amplitude" line then
    Returned (Some ("log10_A", ""))
  else if contains "RN-spectral-index" line then
    Returned (Some ("gamma", ""))
  else
    Returned None.

(** [name = [psrname, flag, par] if flag else [psrname, par]];
    [pname = '_'.join(name)] *)
Definition pname_of (psrname par flag : string) : string :=
  let name := if truthy flag then [psrname; flag; par] else [psrname; par] in
  join "_" name.

(** The [for line in lines] loop, with the dictionary threaded through. *)
Fixpoint read_lines (psrname : string) (lines : list string)
  (params : list (string * V)) : result (list (string * V)) :=
  match lines with
  | [] => Returned params
  | line :: rest =>
      let ln := words line in
      c <- classify line ln ;;
      match c with
      | None => Returned params
      | Some (par, flag) =>
          let pname := pname_of psrname par flag in
          w <- item ln 1 ;;
          v <- to_float w ;;
          read_lines psrname rest (dict_update pname v params)
      end
  end.

(** The function itself; [lines] is what [fin.readlines()] returned. *)
Definition get_noise_from_pal2 (noisefile : string) (lines : list string)
  : result (list (string * V)) :=
  psrname <- psrname_of noisefile ;;
  read_lines psrname lines [].

(** A line is recognised when it contains one of the five substrings. *)
Definition recognised (line : string) : bool :=
  contains "efac" line || contains "equad" line || contains "jitter_q" line ||
  contains "RN-Amplitude" line || contains "RN-spectral-index" line.

End Reader.

(** The five quantities the reader can emit. *)
Definition quantities : list string :=
  ["efac"; "log10_equad"; "log10_ecorr"; "log10_A"; "gamma"].

(** The lookup-key convention in the specification's words:
    [{series}_{subset}_{quantity}] for a subset-dependent quantity,
    [{series}_{quantity}] otherwise. *)
Definition key_convention (series : string) (subset : option string)
  (quantity : string) : string :=
  match subset with
  | Some sub => series ++ "_" ++ sub ++ "_" ++ quantity
  | None => series ++ "_" ++ quantity
  end.

Definition subset_of_flag (flag : string) : option string :=
  if truthy flag then Some flag else None.

End NoiseFile.

(** ** Jump groups (notebook cell 9) *)

Module JumpGroups.

(** Python 2 [range(start, stop, step)] for a positive step, as a list.
    [stop] iterations are enough to reach [stop] from any [start]. *)
Fixpoint range_loop (fuel i stop step : nat) : list nat :=
  match fuel with
  | O => []
  | S fuel' =>
      if i <? stop then i :: range_loop fuel' (i + step) stop step else []
  end.

Definition range (start stop step : nat) : list nat :=
  range_loop stop start stop step.

(** [zip(a, b)]: pairs up to the shorter argument. *)
Definition zip {A B : Type} (a : list A) (b : list B) : list (A * B) :=
  combine a b.

(** [map(list, zip(range(0,ndim,2), range(1,ndim,2)))] *)
Definition pair_groups (ndim : nat) : list (list nat) :=
  map (fun p : nat * nat => [fst p; snd p])
      (zip (range 0 ndim 2) (range 1 ndim 2)).

(** [groups = [range(0, ndim)]; groups.extend(pairs); groups.extend([[36]])] *)
Definition groups (ndim : nat) : list (list nat) :=
  ([range 0 ndim 1] ++ pair_groups ndim) ++ [[36]].

(** An index is a valid coordinate of an [ndim]-dimensional vector. *)
Definition valid_index (ndim i : nat) : bool := i <? ndim.

(** Every index [0..ndim-1] lies in some group. *)
Definition covers (ndim : nat) (gs : list (list nat)) : Prop :=
  forall i, i < ndim -> exists g, In g gs /\ In i g.

(** Two groups share no index. *)
Definition disjoint (g h : list nat) : Prop :=
  forall i, In i g -> In i h -> False.

(** Groups at distinct positions are disjoint. *)
Definition pairwise_disjoint (gs : list (list nat)) : Prop :=
  forall j k g h, j <> k ->
    nth_error gs j = Some g -> nth_error gs k = Some h -> disjoint g h.

(** The specification's notion: the groups partition [0..ndim-1]. *)
Definition partition_of (ndim : nat) (gs : list (list nat)) : Prop :=
  covers ndim gs /\ pairwise_disjoint gs.

End JumpGroups.

(** ** The upper limit (notebook cells 11 and 13) *)

Module UpperLimit.

Import PyStr.

(** The chain is a list of rows; samples are modelled as exact rationals
    (every float is one).  numpy is not part of the repository: [sorted],
    [np.percentile] and the indexing are written after its documentation. *)

(** [sorted]: insertion sort, ascending. *)
Fixpoint insert (x : Q) (l : list Q) : list Q :=
  match l with
  | [] => [x]
  | y :: l' => if Qle_bool x y then x :: l else y :: insert x l'
  end.

Fixpoint sort (l : list Q) : list Q :=
  match l with
  | [] => []
  | x :: l' => insert x (sort l')
  end.

(** The value at rank fraction [p] in [0, 1] of the samples, with numpy's
    default linear interpolation: virtual index [p * (n - 1)] into the sorted
    samples, its two neighbours weighted by the fractional part. *)
Definition quantile (a : list Q) (p : Q) : result Q :=
  let ap := sort a in
  let n := List.length ap in
  let indices := (p * (inject_Z (Z.of_nat n) - 1))%Q in
  let below := Z.to_nat (Qfloor indices) in
  let above := if n - 1 <? below + 1 then n - 1 else below + 1 in
  let weights_above := (indices - inject_Z (Z.of_nat below))%Q in
  let weights_below := (1 - weights_above)%Q in
  x1 <- item ap below ;;
  x2 <- item ap above ;;
  Returned (x1 * weights_below + x2 * weights_above)%Q.

(** [np.percentile(a, q)]: [q] is a percentage in [0, 100] (ValueError
    outside); numpy divides it by 100 and takes the quantile.  An empty
    sample has no value to interpolate; the look-up fails. *)
Definition percentile (a : list Q) (q : Q) : result Q :=
  if Qle_bool 0 q && Qle_bool q 100
  then quantile a (q / 100)%Q
  else Raised ValueError.

(** [burn = int(0.25 * chain.shape[0])] *)
Definition burn_of (chain : list (list Q)) : nat := List.length chain / 4.

(** [row[-k]] for [k >= 1] *)
Definition item_from_end (row : list Q) (k : nat) : result Q :=
  if k <=? List.length row
  then item row (List.length row - k)
  else Raised IndexError.

(** [chain[burn:, -5]] *)
Fixpoint column_from_end (rows : list (list Q)) (k : nat) : result (list Q) :=
  match rows with
  | [] => Returned []
  | row :: rows' =>
      x <- item_from_end row k ;;
      xs <- column_from_end rows' k ;;
      Returned (x :: xs)
  end.

Definition post_burn_column (chain : list (list Q)) : result (list Q) :=
  column_from_end (skipn (burn_of chain) chain) 5.

(** [10 ** x] *)
Definition pow10 (x : Q) : R := Rpower 10 (Q2R x).

Definition map_result {A B : Type} (f : A -> B) (m : result A) : result B :=
  x <- m ;; Returned (f x).

(** [upper = 10**np.percentile(chain[burn:, -5], q=0.95)] *)
Definition upper (chain : list (list Q)) : result R :=
  col <- post_burn_column chain ;;
  map_result pow10 (percentile col (95 # 100)).

(** What a 95% upper limit asks for: the sample value below which 95% of
    the post-burn-in samples lie, [np.percentile(..., q=95)]. *)
Definition upper_95 (chain : list (list Q)) : result R :=
  col <- post_burn_column chain ;;
  map_result pow10 (percentile col 95).

End UpperLimit.

(** ** Parameters and priors (specification section 4.1) *)

Module Prior.

Local Open Scope R_scope.

(** A log-density: a real number, or minus infinity outside the support. *)
Inductive lnval : Type :=
| NegInf
| Fin (r : R).

(** Addition of log-densities; minus infinity absorbs. *)
Definition ln_add (a b : lnval) : lnval :=
  match a, b with
  | Fin x, Fin y => Fin (x + y)
  | _, _ => NegInf
  end.

(** Modelled from the spec: the priors of the free parameters
    ([parameter.Uniform], [parameter.LinearExp]), which are not part of the
    notebook.  Bounds are [low] and [high]. *)
Inductive prior : Type :=
| Uniform (low high : R)
| LinearExp (low high : R).

Definition low_of (p : prior) : R :=
  match p with Uniform l _ | LinearExp l _ => l end.

Definition high_of (p : prior) : R :=
  match p with Uniform _ h | LinearExp _ h => h end.

(** The declared support: the closed interval of the bounds. *)
Definition in_range (low high x : R) : bool :=
  if Rle_dec low x then (if Rle_dec x high then true else false) else false.

Definition in_support (p : prior) (x : R) : bool :=
  in_range (low_of p) (high_of p) x.

(** Modelled from the spec: [pdf(x) = ln(10) 10^x / (10^high - 10^low)]
    inside the range, 0 outside. *)
Definition linearexp_pdf (low high x : R) : R :=
  if in_range low high x
  then ln 10 * Rpower 10 x / (Rpower 10 high - Rpower 10 low)
  else 0.

(** The uniform density on the range; the specification names this prior
    without spelling its density out. *)
Definition uniform_pdf (low high x : R) : R :=
  if in_range low high x then / (high - low) else 0.

Definition pdf (p : prior) (x : R) : R :=
  match p with
  | Uniform low high => uniform_pdf low high x
  | LinearExp low high => linearexp_pdf low high x
  end.

(** Modelled from the spec: [log_density(x)] is the log prior density at
    [x], or minus infinity outside the support. *)
Definition log_density (p : prior) (x : R) : lnval :=
  if in_support p x then Fin (ln (pdf p x)) else NegInf.

(** Modelled from the spec: a parameter is free, with a prior, or a
    Constant with an optional fixed value. *)
Inductive kind : Type :=
| Free (p : prior)
| Constant (value : option R).

Record Param : Type := mkParam {
  name : string;
  pkind : kind
}.

(** A parameter-value mapping, keyed by parameter name (a Python dict). *)
Definition valuation : Type := string -> option R.

Definition empty : valuation := fun _ => None.

Definition assign (x : valuation) (k : string) (v : R) : valuation :=
  fun k' => if String.eqb k' k then Some v else x k'.

(** Modelled from the spec: [get_lnprior] over a registry of free
    parameters (name and prior, in registry order): the sum of the
    per-parameter log-densities, minus infinity as soon as one value is
    outside its support.  A name the mapping does not hold cannot be
    resolved (section 7: MissingParameterError). *)
Fixpoint lnprior_sum (registry : list (string * prior)) (x : valuation)
  : result lnval :=
  match registry with
  | [] => Returned (Fin 0)
  | (k, p) :: rest =>
      match x k with
      | None => Raised MissingParameterError
      | Some v =>
          acc <- lnprior_sum rest x ;;
          Returned (ln_add (log_density p v) acc)
      end
  end.

(** The exact sum of the log-densities, as a real number. *)
Fixpoint sum_log_pdf (registry : list (string * prior)) (x : valuation) : R :=
  match registry with
  | [] => 0
  | (k, p) :: rest =>
      match x k with
      | Some v => ln (pdf p v) + sum_log_pdf rest x
      | None => sum_log_pdf rest x
      end
  end.

(** The mapping gives every registry name a value. *)
Definition covers_registry (registry : list (string * prior)) (x : valuation)
  : Prop :=
  forall k p, In (k, p) registry -> x k <> None.

(** Some registry parameter has its value outside its declared support. *)
Definition some_out_of_support (registry : list (string * prior))
  (x : valuation) : Prop :=
  exists k p v, In (k, p) registry /\ x k = Some v /\ in_support p v = false.

(** The antiderivative of the LinearExp density used to integrate it. *)
Definition linearexp_cdf (low high x : R) : R :=
  (Rpower 10 x - Rpower 10 low) / (Rpower 10 high - Rpower 10 low).

End Prior.

(** ** The reals as a field for MathComp's matrices *)

Module RealField.

Import mathcomp.boot.boot mathcomp.algebra.algebra.

Definition eqr (x y : R) : bool := if Req_dec_T x y then true else false.

Lemma eqrP : Equality.axiom eqr.
Proof. by move=> x y; rewrite /eqr; case: (Req_dec_T x y) => h; constructor. Qed.

HB.instance Definition _ := hasDecEq.Build R eqrP.

(** A choice operator on the reals, from the epsilon of classical logic. *)
Definition findr (P : pred R) (n : nat) : option R :=
  let x := epsilon (inhabits R0) (fun y => P y = true) in
  if P x then Some x else None.

Lemma findr_correct (P : pred R) (n : nat) (x : R) : findr P n = Some x -> P x.
Proof. by rewrite /findr; case E: (P _) => // -[<-]. Qed.

Lemma findr_complete (P : pred R) : (exists x, P x) -> exists n, findr P n.
Proof.
move=> ex; exists 0; rewrite /findr.
by have /= -> := epsilon_spec (inhabits R0) (fun y => P y = true) ex.
Qed.

Lemma findr_ext (P Q : pred R) : P =1 Q -> findr P =1 findr Q.
Proof. by move=> PQ n; have ->: P = Q by apply: functional_extensionality. Qed.

HB.instance Definition _ :=
  hasChoice.Build R findr_correct findr_complete findr_ext.

HB.instance Definition _ := GRing.isZmodule.Build R
  (fun x y z => esym (Rplus_assoc x y z)) Rplus_comm Rplus_0_l Rplus_opp_l.

Lemma R1_neq0 : R1 != R0 :> R.
Proof. by apply/eqP; exact: R1_neq_R0. Qed.

HB.instance Definition _ := GRing.Zmodule_isComNzRing.Build R
  (fun x y z => esym (Rmult_assoc x y z)) Rmult_comm Rmult_1_l
  Rmult_plus_distr_r R1_neq0.

Lemma Rinv_mul (x : R) : x != R0 -> Rmult (Rinv x) x = R1.
Proof. by move/eqP => h; exact: Rinv_l. Qed.

HB.instance Definition _ := GRing.ComNzRing_isField.Build R Rinv_mul Rinv_0.

End RealField.

(** ** Matrix expressions of the likelihood (specification section 4.4) *)

Module Mx.

Import mathcomp.boot.boot mathcomp.algebra.algebra.
Import RealField.
Local Open Scope ring_scope.

Section Pieces.

Variables n m : nat.

(** Modelled from the spec: the matrix expressions of the likelihood of
    section 4.4 ([signal_base] is not part of the notebook).  The inverse
    (MathComp's [invmx], which leaves a singular matrix as it is) and the
    determinant of a square matrix. *)
Definition inverse (A : 'M[R]_n) : 'M[R]_n := invmx A.
Definition det (A : 'M[R]_n) : R := \det A.
Definition invertible (A : 'M[R]_n) : bool := A \in unitmx.

(** The quadratic form [v^T A v]. *)
Definition quad_form (A : 'M[R]_n) (v : 'cV[R]_n) : R := (v^T *m A *m v) 0 0.

(** A covariance matrix is symmetric and positive semi-definite. *)
Definition symmetric (A : 'M[R]_n) : Prop := A^T = A.

Definition pos_semidef (A : 'M[R]_n) : Prop :=
  forall v : 'cV[R]_n, Rle R0 (quad_form A v).

Definition covariance (A : 'M[R]_n) : Prop := symmetric A /\ pos_semidef A.

(** Positive definite: the quadratic form is positive off the origin. *)
Definition pos_def (A : 'M[R]_n) : Prop :=
  forall v : 'cV[R]_n, v != 0 -> Rlt R0 (quad_form A v).

(** What a Cholesky factorisation needs: symmetric and positive definite. *)
Definition factorizable (A : 'M[R]_n) : Prop := symmetric A /\ pos_def A.

(** Diagonal regularisation: [A + eps I]. *)
Definition regularized (eps : R) (A : 'M[R]_n) : 'M[R]_n := A + eps%:M.

(** [F^T N^-1 r] *)
Definition project (F : 'M[R]_(n, m)) (N : 'M[R]_n) (r : 'cV[R]_n) : 'cV[R]_m :=
  F^T *m invmx N *m r.

(** [Sigma = Phi^-1 + F^T N^-1 F] *)
Definition Sigma (F : 'M[R]_(n, m)) (Phi : 'M[R]_m) (N : 'M[R]_n) : 'M[R]_m :=
  invmx Phi + F^T *m invmx N *m F.

(** The full observation-sized covariance [N + F Phi F^T]. *)
Definition dense_covariance (F : 'M[R]_(n, m)) (Phi : 'M[R]_m) (N : 'M[R]_n)
  : 'M[R]_n :=
  N + F *m Phi *m F^T.

End Pieces.

End Mx.

Module Likelihood.

Local Open Scope R_scope.

(** [log|A|]: the logarithm of the determinant. *)
Definition logdet (n : nat) (A : matrix.matrix R n n) : R := ln (Mx.det A).

(** Modelled from the spec: the per-series log-likelihood of
    [signal_base.PTA.get_lnlikelihood], which is not part of the notebook:
    [-0.5 (r^T N^-1 r - (F^T N^-1 r)^T Sigma^-1 (F^T N^-1 r)
           + log|N| + log|Phi| + log|Sigma|)]
    with [Sigma = Phi^-1 + F^T N^-1 F]. *)
Definition lnlike_woodbury (n m : nat) (r : matrix.matrix R n 1)
  (F : matrix.matrix R n m) (Phi : matrix.matrix R m m)
  (N : matrix.matrix R n n) : R :=
  let Sigma := Mx.Sigma F Phi N in
  let d := Mx.project F N r in
  -0.5 * (Mx.quad_form (Mx.inverse N) r - Mx.quad_form (Mx.inverse Sigma) d
          + logdet N + logdet Phi + logdet Sigma).

(** The same expression around a given factor of Sigma. *)
Definition lnlike_given (n m : nat) (r : matrix.matrix R n 1)
  (F : matrix.matrix R n m) (Phi : matrix.matrix R m m)
  (N : matrix.matrix R n n) (Sigma : matrix.matrix R m m) : R :=
  let d := Mx.project F N r in
  -0.5 * (Mx.quad_form (Mx.inverse N) r - Mx.quad_form (Mx.inverse Sigma) d
          + logdet N + logdet Phi + logdet Sigma).

(** The brute-force log-likelihood in the specification's words: invert the
    full observation-sized covariance [C = N + F Phi F^T] and evaluate
    [-0.5 (r^T C^-1 r + log|C|)]. *)
Definition lnlike_dense (n m : nat) (r : matrix.matrix R n 1)
  (F : matrix.matrix R n m) (Phi : matrix.matrix R m m)
  (N : matrix.matrix R n n) : R :=
  let C := Mx.dense_covariance F Phi N in
  -0.5 * (Mx.quad_form (Mx.inverse C) r + logdet C).

(** [a] equals [b] within relative tolerance [rtol]. *)
Definition within_rtol (rtol a b : R) : Prop :=
  Rabs (a - b) <= rtol * Rabs b.

End Likelihood.

(** ** The PTA likelihood engine (specification sections 3, 4.4, 7 and 9) *)

Module Engine.

Import Prior Likelihood.
Local Open Scope R_scope.

(** Modelled from the spec: a Parameter object is constructed once and
    passed by reference into the signals of every series that uses it.  A
    reference is the place of the object among the objects the model was
    built with; two series share a parameter when they hold the same
    reference. *)
Definition ref : Type := nat.

(** Modelled from the spec: a SignalCollection owns the residuals of one
    series, its basis matrix F, and its prior covariance Phi and white-noise
    covariance N as functions of the values of the parameters its signals
    reference ([sc_params], in order).  [signal_base] is not part of the
    notebook. *)
Record SignalCollection : Type := mkSignalCollection {
  sc_params : list ref;
  nobs : nat;
  nbasis : nat;
  residuals : matrix.matrix R nobs 1;
  basis : matrix.matrix R nobs nbasis;
  get_phi : list R -> matrix.matrix R nbasis nbasis;
  get_ndiag : list R -> matrix.matrix R nobs nobs
}.

(** The same series model over another list of parameter references. *)
Definition with_params (sc : SignalCollection) (rs : list ref)
  : SignalCollection :=
  mkSignalCollection rs (residuals sc) (basis sc) (get_phi sc) (get_ndiag sc).

(** Modelled from the spec: the PTA owns the Parameter objects, the ordered
    SignalCollections and the default-parameter mapping that resolves
    Constants. *)
Record PTA : Type := mkPTA {
  objects : ref -> Param;
  collections : list SignalCollection;
  default_params : valuation
}.

(** The references the series hold, in order of encounter. *)
Definition referenced (scs : list SignalCollection) : list ref :=
  flat_map sc_params scs.

(** Values are bound by name, so a name must stand for one object: two
    different objects under one name are an accidental collision. *)
Definition same_name (objects : ref -> Param) (r q : ref) : bool :=
  String.eqb (name (objects r)) (name (objects q)).

Definition collision_free (objects : ref -> Param) (rs : list ref) : bool :=
  forallb (fun r =>
    forallb (fun q => Nat.eqb r q || negb (same_name objects r q)) rs) rs.

(** Modelled from the spec: [signal_base.PTA([model(psr) for psr in psrs])].
    Intentional sharing is the same object, an accidental collision is an
    error at construction (section 9); the specification does not name the
    error, the construction gives no PTA.  No defaults are registered
    yet. *)
Definition new_PTA (objects : ref -> Param) (scs : list SignalCollection)
  : option PTA :=
  if collision_free objects (referenced scs)
  then Some (mkPTA objects scs empty)
  else None.

(** Modelled from the spec: [pta.set_default_params(params)] registers the
    default mapping. *)
Definition set_default_params (pta : PTA) (d : valuation) : PTA :=
  mkPTA (objects pta) (collections pta) d.

Definition is_free (p : Param) : bool :=
  match pkind p with Free _ => true | Constant _ => false end.

(** The series holds a reference to that object. *)
Definition references (sc : SignalCollection) (r : ref) : bool :=
  existsb (Nat.eqb r) (sc_params sc).

(** Modelled from the spec: the registry of free parameters ([pta.params]),
    one entry per object however many series reference it, in
    first-encounter order; Constants never enter it. *)
Fixpoint registry_of (objects : ref -> Param) (seen rs : list ref)
  : list (string * prior) :=
  match rs with
  | [] => []
  | r :: rs' =>
      match pkind (objects r) with
      | Free pr =>
          if existsb (Nat.eqb r) seen
          then registry_of objects seen rs'
          else (name (objects r), pr) :: registry_of objects (r :: seen) rs'
      | Constant _ => registry_of objects seen rs'
      end
  end.

Definition params (pta : PTA) : list (string * prior) :=
  registry_of (objects pta) [] (referenced (collections pta)).

(** Modelled from the spec: [get_lnprior(x)]. *)
Definition get_lnprior (pta : PTA) (x : valuation) : result lnval :=
  lnprior_sum (params pta) x.

(** Modelled from the spec: where the value of a parameter comes from: the
    mapping [x] for a free parameter, the fixed value of a Constant, or else
    the registered defaults. *)
Definition lookup (defaults x : valuation) (p : Param) : option R :=
  match pkind p with
  | Free _ => x (name p)
  | Constant (Some v) => Some v
  | Constant None => defaults (name p)
  end.

Definition resolve (defaults x : valuation) (p : Param) : result R :=
  match lookup defaults x p with
  | Some v => Returned v
  | None => Raised MissingParameterError
  end.

(** The values of the parameters one series references, in order. *)
Fixpoint resolve_all (objects : ref -> Param) (defaults x : valuation)
  (rs : list ref) : result (list R) :=
  match rs with
  | [] => Returned []
  | r :: rs' =>
      v <- resolve defaults x (objects r) ;;
      vs <- resolve_all objects defaults x rs' ;;
      Returned (v :: vs)
  end.

(** The values of every series. *)
Fixpoint resolve_each (objects : ref -> Param) (defaults x : valuation)
  (scs : list SignalCollection) : result (list (list R)) :=
  match scs with
  | [] => Returned []
  | sc :: rest =>
      vals <- resolve_all objects defaults x (sc_params sc) ;;
      valss <- resolve_each objects defaults x rest ;;
      Returned (vals :: valss)
  end.

(** An evaluation yields its result and the number of factorisations it
    attempted. *)
Definition run (A : Type) : Type := (nat * result A)%type.

Definition ret {A : Type} (a : A) : run A := (0%nat, Returned a).

Definition lift {A : Type} (m : result A) : run A := (0%nat, m).

Definition bind_run {A B : Type} (m : run A) (k : A -> run B) : run B :=
  match snd m with
  | Returned a => ((fst m + fst (k a))%nat, snd (k a))
  | Raised e => (fst m, Raised e)
  end.

Notation "x <~ m ;; k" := (bind_run m (fun x => k))
  (at level 61, m at next level, right associativity).

(** Modelled from the spec (section 7): one attempt to factorise a
    covariance; it fails with NonPositiveDefiniteError unless the matrix is
    symmetric positive definite. *)
Definition factorize (m : nat) (A : matrix.matrix R m m)
  : run (matrix.matrix R m m) :=
  (1%nat, if excluded_middle_informative (Mx.factorizable A)
      then Returned A
      else Raised NonPositiveDefiniteError).

(** [Sigma = Phi^-1 + F^T N^-1 F] of a series at the values [vals]. *)
Definition series_sigma (sc : SignalCollection) (vals : list R)
  : matrix.matrix R (nbasis sc) (nbasis sc) :=
  Mx.Sigma (basis sc) (get_phi sc vals) (get_ndiag sc vals).

Section Evaluation.

(** The amount of diagonal regularisation, which the specification leaves
    open. *)
Variable jitter : R.

(** Modelled from the spec (section 7): a NonPositiveDefiniteError of the
    factorisation is recoverable by diagonal regularisation and one retry;
    if the retry fails too the error is fatal. *)
Definition factorize_retry (m : nat) (A : matrix.matrix R m m)
  : run (matrix.matrix R m m) :=
  let first := factorize A in
  match snd first with
  | Raised NonPositiveDefiniteError =>
      let second := factorize (Mx.regularized jitter A) in
      ((fst first + fst second)%nat, snd second)
  | _ => first
  end.

(** Modelled from the spec: the log-likelihood of one series at the values
    of its parameters, from the factorisation of Sigma. *)
Definition series_lnlike (sc : SignalCollection) (vals : list R) : run R :=
  S <~ factorize_retry (series_sigma sc vals) ;;
  ret (lnlike_given (residuals sc) (basis sc)
         (get_phi sc vals) (get_ndiag sc vals) S).

(** Modelled from the spec: one series' log-likelihood contribution under
    the mapping [x]. *)
Definition contribution (objects : ref -> Param) (defaults x : valuation)
  (sc : SignalCollection) : run R :=
  vals <~ lift (resolve_all objects defaults x (sc_params sc)) ;;
  series_lnlike sc vals.

(** The series' log-likelihoods are summed. *)
Fixpoint sum_lnlike (scs : list SignalCollection) (valss : list (list R))
  : run R :=
  match scs, valss with
  | sc :: scs', vals :: valss' =>
      l <~ series_lnlike sc vals ;;
      acc <~ sum_lnlike scs' valss' ;;
      ret (l + acc)
  | _, _ => ret 0
  end.

(** Modelled from the spec: [get_lnlikelihood(x)].  The parameters of every
    series are resolved first: the call fails with MissingParameterError if
    any required parameter cannot be resolved, whatever the matrices are
    (section 4.4); that failure is fatal and not retried (section 7).  Then
    the series are factorised and their log-likelihoods summed. *)
Definition get_lnlikelihood (pta : PTA) (x : valuation) : run R :=
  valss <~ lift (resolve_each (objects pta) (default_params pta) x
                   (collections pta)) ;;
  sum_lnlike (collections pta) valss.

End Evaluation.

(** A required parameter that cannot be resolved: a free one whose name is
    absent from [x], or a Constant without a fixed value whose name is
    absent from the defaults. *)
Definition unresolved (defaults x : valuation) (p : Param) : Prop :=
  match pkind p with
  | Free _ => x (name p) = None
  | Constant (Some _) => False
  | Constant None => defaults (name p) = None
  end.

(** The values [vals] are those the parameters [rs] hold under [x]. *)
Definition holds (objects : ref -> Param) (defaults x : valuation)
  (rs : list ref) (vals : list R) : Prop :=
  Forall2 (fun q u => lookup defaults x (objects q) = Some u) rs vals.

(** The values of a series after the object [r] took the value [v]: [v] at
    every place that holds [r], the old value elsewhere. *)
Definition values_after (r : ref) (v : R) (rs : list ref) (vals : list R)
  : list R :=
  map (fun qu => if Nat.eqb (fst qu) r then v else snd qu) (combine rs vals).

(** Two references at the same place of two series, seen from the shared
    object [r]: both are [r], or neither is and the two objects currently
    hold the same value. *)
Definition corresponds (objects : ref -> Param) (defaults x : valuation)
  (r p q : ref) : Prop :=
  (p = r /\ q = r) \/
  (p <> r /\ q <> r /\
   lookup defaults x (objects p) = lookup defaults x (objects q)).

End Engine.

(** ** The reader on a file system *)

Module OnDisk.

Import PyStr NoiseFile.

(** The files that can be opened for reading, each with its lines. *)
Definition filesystem : Type := string -> option (list string).

(** [fin = open(path, 'r')] followed by [fin.readlines()]: IOError when the
    path cannot be opened. *)
Definition readlines (fs : filesystem) (path : string) : result (list string) :=
  match fs path with
  | Some lines => Returned lines
  | None => Raised IOError
  end.

Section Reader.

Variable V : Type.
Variable float : string -> option V.

(** The function as the notebook calls it, on a path: the name is taken
    from the path, then the file is opened and read, then the loop runs. *)
Definition get_noise_from_pal2 (fs : filesystem) (noisefile : string)
  : result (list (string * V)) :=
  psrname <- psrname_of noisefile ;;
  lines <- readlines fs noisefile ;;
  read_lines float psrname lines [].

End Reader.

End OnDisk.

(** ** Reading from the dictionary, and [dict.update] with a dictionary *)

Module NoiseDict.

Import NoiseFile.

(** [d.get(k)]: the value of the entry of [k], if there is one. *)
Fixpoint dict_get {V : Type} (k : string) (d : list (string * V)) : option V :=
  match d with
  | [] => None
  | (k', v) :: d' => if String.eqb k k' then Some v else dict_get k d'
  end.

(** [d.update(other)]: every entry of [other] is written into [d]. *)
Definition dict_merge {V : Type} (d other : list (string * V))
  : list (string * V) :=
  fold_left (fun acc kv => dict_update (fst kv) (snd kv) acc) other d.

End NoiseDict.

(** ** Selecting the files and collecting the noise values
       (notebook cells 3 and 5) *)

Module DataPrep.

Import PyStr NoiseFile NoiseDict.
Local Open Scope string_scope.

(** [x.split('/')[-1].split('_')[0]] *)
Definition pulsar_of (x : string) : result string :=
  base <- last_item (split "/" x) ;;
  item (split "_" base) 0.



Section Collect.

Variable V : Type.
Variable float : string -> option V.

(** [for nfile in noisefiles: params.update(get_noise_from_pal2(nfile))];
    each file is given with the lines [readlines] finds in it. *)
Fixpoint collect_loop (noisefiles : list (string * list string))
  (params : list (string * V)) : result (list (string * V)) :=
  match noisefiles with
  | [] => Returned params
  | (nfile, lines) :: rest =>
      d <- get_noise_from_pal2 float nfile lines ;;
      collect_loop rest (dict_merge params d)
  end.

(** [params = {}] and the loop. *)
Definition collect_noise (noisefiles : list (string * list string))
  : result (list (string * V)) :=
  collect_loop noisefiles [].

End Collect.

End DataPrep.

(** ** The time span of the array (notebook cell 6) *)

Module Timespan.

(** The smaller and the larger of two times. *)
Definition qmin (x y : Q) : Q := if Qle_bool x y then x else y.
Definition qmax (x y : Q) : Q := if Qle_bool x y then y else x.

(** [a.min()] and [a.max()] ([np.min(a)], [np.max(a)]): ValueError on an
    array without elements. *)
Definition array_min (a : list Q) : result Q :=
  match a with
  | [] => Raised ValueError
  | x :: rest => Returned (fold_left qmin rest x)
  end.

Definition array_max (a : list Q) : result Q :=
  match a with
  | [] => Raised ValueError
  | x :: rest => Returned (fold_left qmax rest x)
  end.

(** [[f(p) for p in psrs]] *)
Fixpoint for_each (f : list Q -> result Q) (psrs : list (list Q))
  : result (list Q) :=
  match psrs with
  | [] => Returned []
  | p :: rest =>
      x <- f p ;;
      xs <- for_each f rest ;;
      Returned (x :: xs)
  end.

(** A pulsar is given by its times of arrival [p.toas].
    [tmin = [p.toas.min() for p in psrs]];
    [tmax = [p.toas.max() for p in psrs]];
    [Tspan = np.max(tmax) - np.min(tmin)] *)
Definition Tspan (psrs : list (list Q)) : result Q :=
  tmin <- for_each array_min psrs ;;
  tmax <- for_each array_max psrs ;;
  hi <- array_max tmax ;;
  lo <- array_min tmin ;;
  Returned (hi - lo)%Q.

End Timespan.

(** ** The chain as [np.loadtxt] returns it (notebook cell 11) *)

Module Loaded.

Import PyStr UpperLimit.

(** A numpy array of at most two dimensions.  numpy is not part of the
    repository: [np.loadtxt], [shape] and the indexing are written after its
    documentation. *)
Inductive ndarray : Type :=
| Array0 (x : Q)
| Array1 (xs : list Q)
| Array2 (rows : list (list Q)).

(** Every row has as many values as the first. *)
Definition rectangular (rows : list (list Q)) : bool :=
  match rows with
  | [] => true
  | row :: rest =>
      forallb (fun r => List.length r =? List.length row) rest
  end.

(** [np.squeeze] on a table of rows: the axes of length one are dropped.
    One row of one value is a scalar, one row is the vector of its values,
    one column is the vector of the values down the rows. *)
Definition squeeze (rows : list (list Q)) : ndarray :=
  match rows with
  | [[x]] => Array0 x
  | [row] => Array1 row
  | _ =>
      if forallb (fun r => List.length r =? 1) rows
      then Array1 (List.concat rows)
      else Array2 rows
  end.

(** [np.loadtxt(fname)] on the rows of numbers of the file: ValueError when
    the rows differ in length; the table is squeezed ([ndmin=0]), and an
    empty file gives an empty vector. *)
Definition loadtxt (rows : list (list Q)) : result ndarray :=
  if rectangular rows then Returned (squeeze rows) else Raised ValueError.

(** [chain.shape[0]]: a scalar has the empty shape. *)
Definition shape0 (chain : ndarray) : result nat :=
  match chain with
  | Array0 _ => Raised IndexError
  | Array1 xs => Returned (List.length xs)
  | Array2 rows => Returned (List.length rows)
  end.

(** [burn = int(0.25 * chain.shape[0])] *)
Definition burn (chain : ndarray) : result nat :=
  n <- shape0 chain ;;
  Returned (n / 4).

(** [chain[burn:, -5]]: two indices need a two-dimensional array. *)
Definition column (chain : ndarray) (b : nat) : result (list Q) :=
  match chain with
  | Array2 rows => column_from_end (skipn b rows) 5
  | _ => Raised IndexError
  end.

(** Cells 11 and 13 on the rows of the chain file:
    [chain = np.loadtxt(...)], [burn = int(0.25 * chain.shape[0])],
    [upper = 10**np.percentile(chain[burn:, -5], q=0.95)]. *)
Definition upper (rows : list (list Q)) : result R :=
  chain <- loadtxt rows ;;
  b <- burn chain ;;
  col <- column chain b ;;
  map_result pow10 (percentile col (95 # 100)).

End Loaded.

(** * Facts about the noise-file reader *)

Module NoiseFileFacts.

Import PyStr NoiseFile.
Local Open Scope string_scope.

Section Reader.

Variable V : Type.
Variable float : string -> option V.

Lemma keys_dict_update (k : string) (v : V) (d : list (string * V)) (k0 : string) :
  In k0 (keys (dict_update k v d)) -> k0 = k \/ In k0 (keys d).
Proof.
  induction d as [|[k' v'] d IH]; simpl.
  - intros [H|[]]; auto.
  - destruct (String.eqb k k'); simpl; intros [H|H]; auto.
    apply IH in H. tauto.
Qed.

(** The code's key is the specification's key. *)
Lemma pname_of_convention (psrname par flag : string) :
  pname_of psrname par flag = key_convention psrname (subset_of_flag flag) par.
Proof.
  unfold pname_of, key_convention, subset_of_flag.
  destruct (truthy flag); reflexivity.
Qed.

(** What [classify] can answer: one of the five quantities; the two
    red-noise quantities come with the empty flag. *)
Lemma classify_quantity (line : string) (ln : list string) (par flag : string) :
  classify line ln = Returned (Some (par, flag)) -> In par quantities.
Proof.
  unfold classify, quantities.
  repeat match goal with
         | |- context [if ?b then _ else _] => destruct b
         | |- context [item ?l ?i] => destruct (item l i); simpl
         | |- context [last_item ?l] => destruct (last_item l); simpl
         end;
    intros H; inversion H; subst; simpl; tauto.
Qed.

Lemma classify_unrecognised (line : string) (ln : list string) :
  recognised line = false -> classify line ln = Returned None.
Proof.
  unfold recognised, classify. intros H.
  repeat (apply orb_false_iff in H; destruct H as [H ?]).
  repeat match goal with E : _ = false |- _ => rewrite E; clear E end.
  reflexivity.
Qed.

(** Every key [read_lines] leaves in the dictionary was there before or was
    built from one of the lines. *)
Lemma read_lines_keys (psrname : string) (lines : list string) :
  forall params out,
    read_lines float psrname lines params = Returned out ->
    forall k, In k (keys out) ->
      In k (keys params) \/
      exists line par flag,
        In line lines /\
        classify line (words line) = Returned (Some (par, flag)) /\
        k = pname_of psrname par flag.
Proof.
  induction lines as [|line rest IH]; simpl; intros params out Hrun k Hk.
  - inversion Hrun; subst. auto.
  - destruct (classify line (words line)) as [[[par flag]|]|e] eqn:Hc;
      simpl in Hrun; try discriminate.
    + destruct (item (words line) 1) as [w|e]; simpl in Hrun; try discriminate.
      destruct (to_float float w) as [v|e]; simpl in Hrun; try discriminate.
      destruct (IH _ _ Hrun k Hk) as [Hin|(l & p & f & Hl & Hcl & Hkey)].
      * apply keys_dict_update in Hin. destruct Hin as [->|Hin]; auto.
        right. exists line, par, flag. auto.
      * right. exists l, p, f. auto.
    + inversion Hrun; subst. auto.
Qed.

Lemma read_lines_break (psrname : string) (pre : list string) (bad : string)
  (post : list string) :
  recognised bad = false ->
  forall params,
    read_lines float psrname (pre ++ bad :: post) params =
    read_lines float psrname pre params.
Proof.
  intros Hbad. induction pre as [|line pre IH]; simpl; intros params.
  - rewrite classify_unrecognised by exact Hbad. reflexivity.
  - destruct (classify line (words line)) as [[[par flag]|]|e]; simpl; auto.
    destruct (item (words line) 1) as [w|e]; simpl; auto.
    destruct (to_float float w) as [v|e]; simpl; auto.
Qed.

(** C7: every key of the mapping returned by [get_noise_from_pal2] was
    built from a recognised line of the file and follows the convention
    series_subset_quantity when that line's flag is non-empty and
    series_quantity when it is empty, the parts joined by single
    underscores; the quantity is one of the five the reader knows. *)
Theorem get_noise_keys_follow_convention
  (noisefile : string) (lines : list string) (params : list (string * V)) :
  get_noise_from_pal2 float noisefile lines = Returned params ->
  forall k, In k (keys params) ->
    exists series line par flag,
      psrname_of noisefile = Returned series /\
      In line lines /\
      classify line (words line) = Returned (Some (par, flag)) /\
      In par quantities /\
      k = key_convention series (subset_of_flag flag) par /\
      k = (if truthy flag
           then series ++ "_" ++ flag ++ "_" ++ par
           else series ++ "_" ++ par).
Proof.
  unfold get_noise_from_pal2. intros Hrun k Hk.
  destruct (psrname_of noisefile) as [series|e]; simpl in Hrun; try discriminate.
  destruct (read_lines_keys _ _ _ Hrun k Hk) as [[]|(l & p & f & Hl & Hc & ->)].
  exists series, l, p, f. repeat split; auto.
  - eapply classify_quantity; eauto.
  - apply pname_of_convention.
  - unfold pname_of. destruct (truthy f); reflexivity.
Qed.

(** C8: the reader stops at the first line that holds none of the five
    recognised substrings: whatever follows that line, recognised or not,
    leaves the result unchanged. *)
Theorem get_noise_stops_at_unrecognised
  (noisefile : string) (pre : list string) (bad : string) (post : list string) :
  recognised bad = false ->
  get_noise_from_pal2 float noisefile (pre ++ bad :: post) =
  get_noise_from_pal2 float noisefile pre.
Proof.
  intros Hbad. unfold get_noise_from_pal2.
  destruct (psrname_of noisefile) as [series|e]; simpl; auto.
  apply read_lines_break. exact Hbad.
Qed.

End Reader.

(** A small noise file in the PAL2 layout. *)
Definition nl : string := String (ascii_of_nat 10) EmptyString.

Definition sample_lines : list string :=
  ["efac-430_ASP 1.1" ++ nl; "equad-430_ASP -6.5" ++ nl;
   "RN-Amplitude -14.2" ++ nl].

Definition sample_float (s : string) : option string := Some s.

Lemma get_noise_keys_follow_convention_witness :
  exists series line par flag,
    psrname_of "ng9/B1855+09_noise.txt" = Returned series /\
    In line sample_lines /\
    classify line (words line) = Returned (Some (par, flag)) /\
    In par quantities /\
    "B1855+09_430_ASP_efac" = key_convention series (subset_of_flag flag) par /\
    "B1855+09_430_ASP_efac" =
      (if truthy flag
       then series ++ "_" ++ flag ++ "_" ++ par
       else series ++ "_" ++ par).
Proof.
  apply (@get_noise_keys_follow_convention string sample_float
           "ng9/B1855+09_noise.txt" sample_lines
           [("B1855+09_430_ASP_efac", "1.1");
            ("B1855+09_430_ASP_log10_equad", "-6.5");
            ("B1855+09_log10_A", "-14.2")]).
  - vm_compute. reflexivity.
  - simpl. left. reflexivity.
Defined.

Lemma get_noise_stops_at_unrecognised_witness :
  get_noise_from_pal2 sample_float "ng9/B1855+09_noise.txt"
    (sample_lines ++ ("# trailer" ++ nl) :: ["efac-L-wide_PUPPI 0.9" ++ nl]) =
  get_noise_from_pal2 sample_float "ng9/B1855+09_noise.txt" sample_lines.
Proof.
  apply (@get_noise_stops_at_unrecognised string sample_float).
  vm_compute. reflexivity.
Defined.

End NoiseFileFacts.

(** * Facts about the jump groups *)

Module JumpGroupsFacts.

Import JumpGroups.

(** [range] in closed form: the multiples of the step from the start. *)
Lemma range_loop_closed (step : nat) :
  0 < step ->
  forall fuel i stop,
    stop <= fuel + i ->
    range_loop fuel i stop step =
    map (fun k => i + k * step) (seq 0 ((stop - i + (step - 1)) / step)).
Proof.
  intros Hstep. induction fuel as [|fuel IH]; intros i stop Hfuel; simpl.
  - replace (stop - i) with 0 by lia.
    rewrite Nat.div_small by lia. reflexivity.
  - destruct (Nat.ltb_spec i stop) as [Hlt|Hge].
    + rewrite IH by lia.
      assert (Hcount : (stop - i + (step - 1)) / step =
                       S ((stop - (i + step) + (step - 1)) / step)).
      { destruct (Nat.le_gt_cases (i + step) stop) as [Hfar|Hnear].
        - replace (stop - i + (step - 1))
            with (stop - (i + step) + (step - 1) + 1 * step) by lia.
          rewrite Nat.div_add by lia. lia.
        - replace (stop - (i + step)) with 0 by lia.
          rewrite (Nat.div_small (0 + (step - 1))) by lia.
          replace (stop - i + (step - 1))
            with ((stop - i - 1) + 1 * step) by lia.
          rewrite Nat.div_add by lia.
          rewrite Nat.div_small by lia. reflexivity. }
      rewrite Hcount. simpl. f_equal; [lia|].
      rewrite <- seq_shift, map_map.
      apply map_ext. intros k. simpl. lia.
    + replace (stop - i) with 0 by lia.
      rewrite Nat.div_small by lia. reflexivity.
Qed.

Lemma range_unit (ndim : nat) : range 0 ndim 1 = seq 0 ndim.
Proof.
  unfold range. rewrite range_loop_closed by lia.
  rewrite Nat.sub_0_r, Nat.add_0_r, Nat.div_1_r.
  rewrite <- (map_id (seq 0 ndim)) at 2.
  apply map_ext. intros k. lia.
Qed.

Lemma range_even (ndim : nat) :
  range 0 ndim 2 = map (fun k => 2 * k) (seq 0 ((ndim + 1) / 2)).
Proof.
  unfold range. rewrite range_loop_closed by lia.
  rewrite Nat.sub_0_r. simpl (2 - 1).
  apply map_ext. intros k. lia.
Qed.

Lemma range_odd (ndim : nat) :
  range 1 ndim 2 = map (fun k => 2 * k + 1) (seq 0 (ndim / 2)).
Proof.
  unfold range. rewrite range_loop_closed by lia.
  simpl (2 - 1).
  replace ((ndim - 1 + 1) / 2) with (ndim / 2).
  - apply map_ext. intros k. lia.
  - destruct ndim as [|n]; [reflexivity|].
    f_equal. lia.
Qed.

Lemma combine_map_seq (A B : Type) (f : nat -> A) (g : nat -> B) :
  forall b a s, b <= a ->
    combine (map f (seq s a)) (map g (seq s b)) =
    map (fun k => (f k, g k)) (seq s b).
Proof.
  induction b as [|b IH]; intros a s Hle; simpl.
  - destruct (map f (seq s a)); reflexivity.
  - destruct a as [|a]; [lia|]. simpl. f_equal. apply IH. lia.
Qed.

(** The pair groups are [0,1], [2,3], ..., one per whole pair below ndim. *)
Lemma pair_groups_closed (ndim : nat) :
  pair_groups ndim = map (fun k => [2 * k; 2 * k + 1]) (seq 0 (ndim / 2)).
Proof.
  unfold pair_groups, zip. rewrite range_even, range_odd.
  rewrite combine_map_seq.
  - rewrite map_map. reflexivity.
  - assert (H := Nat.div_mod_eq ndim 2).
    assert (H1 := Nat.div_mod_eq (ndim + 1) 2).
    assert (H2 := Nat.mod_upper_bound ndim 2).
    assert (H3 := Nat.mod_upper_bound (ndim + 1) 2).
    lia.
Qed.

Lemma in_pair_groups (ndim : nat) (g : list nat) :
  In g (pair_groups ndim) <->
  exists k, k < ndim / 2 /\ g = [2 * k; 2 * k + 1].
Proof.
  rewrite pair_groups_closed, in_map_iff. split.
  - intros (k & <- & Hk). apply in_seq in Hk. exists k. split; [lia|reflexivity].
  - intros (k & Hk & ->). exists k. split; [reflexivity|]. apply in_seq. lia.
Qed.

Lemma in_concat_pair_groups (ndim i : nat) :
  In i (List.concat (pair_groups ndim)) <-> i < 2 * (ndim / 2).
Proof.
  rewrite in_concat. split.
  - intros (g & Hg & Hi). apply in_pair_groups in Hg.
    destruct Hg as (k & Hk & ->). simpl in Hi. lia.
  - intros Hi. exists [2 * (i / 2); 2 * (i / 2) + 1]. split.
    + apply in_pair_groups. exists (i / 2). split; [|reflexivity].
      apply Nat.Div0.div_lt_upper_bound. lia.
    + assert (H := Nat.div_mod_eq i 2).
      assert (H2 := Nat.mod_upper_bound i 2).
      cbn [In]. lia.
Qed.

Lemma odd_leftover (ndim : nat) :
  Nat.odd ndim = true -> ndim - 1 = 2 * (ndim / 2).
Proof.
  intros Hodd. assert (H := Nat.div_mod_eq ndim 2).
  rewrite <- Nat.bit0_mod in H. rewrite Nat.bit0_odd, Hodd in H.
  cbn [Nat.b2n] in H. lia.
Qed.

(** C9: the pair groups cover exactly the indices below 2*(ndim/2); for an
    odd ndim the last index ndim-1 is in no pair group; the last group is
    the literal [36], which is a coordinate index exactly when ndim >= 37
    and is the leftover index of an odd ndim exactly when ndim = 37. *)
Theorem pair_groups_leave_last_index (ndim : nat) :
  (forall i, In i (List.concat (pair_groups ndim)) <-> i < 2 * (ndim / 2)) /\
  (Nat.odd ndim = true -> ~ In (ndim - 1) (List.concat (pair_groups ndim))) /\
  last (groups ndim) [] = [36] /\
  (valid_index ndim 36 = true <-> 37 <= ndim) /\
  (Nat.odd ndim = true -> (In (ndim - 1) [36] <-> ndim = 37)).
Proof.
  split; [|split; [|split; [|split]]].
  - intros i. apply in_concat_pair_groups.
  - intros Hodd Hin. apply in_concat_pair_groups in Hin.
    rewrite (odd_leftover _ Hodd) in Hin. lia.
  - unfold groups. apply last_last.
  - unfold valid_index. rewrite Nat.ltb_lt. lia.
  - intros Hodd. simpl. split.
    + intros [H|[]]. destruct ndim; [discriminate|]. lia.
    + intros ->. left. reflexivity.
Qed.

Lemma pair_groups_leave_last_index_witness :
  (forall i, In i (List.concat (pair_groups 37)) <-> i < 2 * (37 / 2)) /\
  (Nat.odd 37 = true -> ~ In (37 - 1) (List.concat (pair_groups 37))) /\
  last (groups 37) [] = [36] /\
  (valid_index 37 36 = true <-> 37 <= 37) /\
  (Nat.odd 37 = true -> (In (37 - 1) [36] <-> 37 = 37)).
Proof.
  exact (pair_groups_leave_last_index 37).
Defined.

(** C6 fails as stated: the groups of the 37-parameter model of the
    notebook are no partition, index 0 lies in the all-spanning group and
    in the pair group [0,1]. *)
Lemma groups_not_partition_37 : ~ partition_of 37 (groups 37).
Proof.
  intros [_ Hdis].
  apply (Hdis 0 1 (range 0 37 1) [0; 1]) with (i := 0).
  - discriminate.
  - reflexivity.
  - reflexivity.
  - vm_compute. tauto.
  - simpl. tauto.
Qed.

Lemma nth_error_seq_inv (n : nat) :
  forall s j a, nth_error (seq s n) j = Some a -> a = s + j /\ j < n.
Proof.
  induction n as [|n IH]; intros s j a H.
  - destruct j; discriminate.
  - destruct j as [|j]; simpl in H.
    + inversion H. lia.
    + apply IH in H. lia.
Qed.

(** C6, as the notebook builds the groups: every index below ndim lies in
    a group (the first, which spans them all), the pair groups are pairwise
    disjoint, and as soon as there is a pair group the groups overlap. *)
Theorem groups_cover_and_overlap (ndim : nat) :
  covers ndim (groups ndim) /\
  pairwise_disjoint (pair_groups ndim) /\
  ~ pairwise_disjoint (groups (ndim + 2)).
Proof.
  split; [|split].
  - intros i Hi. exists (range 0 ndim 1). split.
    + unfold groups. simpl. left. reflexivity.
    + rewrite range_unit. apply in_seq. lia.
  - intros j k g h Hjk Hg Hh i Hig Hih.
    rewrite pair_groups_closed in Hg, Hh.
    rewrite nth_error_map in Hg, Hh.
    destruct (nth_error (seq 0 (ndim / 2)) j) as [a|] eqn:Ha; [|discriminate].
    destruct (nth_error (seq 0 (ndim / 2)) k) as [b|] eqn:Hb; [|discriminate].
    apply nth_error_seq_inv in Ha, Hb.
    inversion Hg; subst g. inversion Hh; subst h.
    simpl in Hig, Hih. lia.
  - intros Hdis.
    apply (Hdis 0 1 (range 0 (ndim + 2) 1) [0; 1]) with (i := 0).
    + discriminate.
    + reflexivity.
    + unfold groups. simpl. rewrite pair_groups_closed.
      replace ((ndim + 2) / 2) with (S (ndim / 2)).
      * reflexivity.
      * replace (ndim + 2) with (ndim + 1 * 2) by lia.
        rewrite Nat.div_add by lia. lia.
    + rewrite range_unit. apply in_seq. lia.
    + simpl. tauto.
Qed.

Lemma groups_cover_and_overlap_witness :
  covers 35 (groups 35) /\
  pairwise_disjoint (pair_groups 35) /\
  ~ pairwise_disjoint (groups (35 + 2)).
Proof.
  exact (groups_cover_and_overlap 35).
Defined.

End JumpGroupsFacts.

(** * Facts about the upper limit *)

Module UpperLimitFacts.

Import PyStr UpperLimit.

(** numpy's percentage scale: [q = 0.95] is the rank fraction 0.0095. *)
Lemma percentile_095 (a : list Q) :
  percentile a (95 # 100) = quantile a (95 # 10000).
Proof. reflexivity. Qed.

Lemma ln10_pos : (0 < ln 10)%R.
Proof.
  rewrite <- ln_1. apply ln_increasing; lra.
Qed.

Lemma pow10_inj (x y : Q) : pow10 x = pow10 y -> (x == y)%Q.
Proof.
  unfold pow10, Rpower. intros H. apply exp_inv in H.
  apply eqR_Qeq. apply Rmult_eq_reg_r in H; [exact H|].
  assert (Hp := ln10_pos). lra.
Qed.

(** A two-sample chain with five columns: the column read is the first. *)
Definition two_samples : list (list Q) :=
  [[0; 0; 0; 0; 0]; [1; 0; 0; 0; 0]]%Q.

Lemma upper_two_samples :
  exists v, upper two_samples = Returned (pow10 v) /\ (v == 95 # 10000)%Q.
Proof.
  eexists. split.
  - unfold upper, two_samples. cbn. reflexivity.
  - vm_compute. reflexivity.
Qed.

Lemma upper_95_two_samples :
  exists v, upper_95 two_samples = Returned (pow10 v) /\ (v == 95 # 100)%Q.
Proof.
  eexists. split.
  - unfold upper_95, two_samples. cbn. reflexivity.
  - vm_compute. reflexivity.
Qed.

End UpperLimitFacts.

(** * Facts about the priors *)

Module PriorFacts.

Import Prior.
Local Open Scope R_scope.

Lemma in_range_true (low high x : R) :
  in_range low high x = true <-> low <= x <= high.
Proof.
  unfold in_range.
  destruct (Rle_dec low x); [destruct (Rle_dec x high)|];
    split; intros H; try discriminate; try reflexivity; try tauto; lra.
Qed.

Lemma in_range_false (low high x : R) :
  in_range low high x = false <-> ~ (low <= x <= high).
Proof.
  rewrite <- in_range_true. destruct (in_range low high x); split; congruence.
Qed.

Section LinearExp.

Variables low high : R.
Hypothesis bounds : low < high.

Let width : R := Rpower 10 high - Rpower 10 low.

Lemma width_pos : 0 < width.
Proof.
  unfold width. assert (H : Rpower 10 low < Rpower 10 high).
  { apply Rpower_lt; lra. }
  lra.
Qed.

(** The density without the cut-off at the bounds. *)
Definition smooth (x : R) : R := ln 10 * Rpower 10 x / width.

Lemma cdf_derivative (x : R) :
  derivable_pt_lim (linearexp_cdf low high) x (smooth x).
Proof.
  assert (Hw := width_pos).
  unfold linearexp_cdf, smooth. fold width.
  assert (Hpow : derivable_pt_lim (fun y => Rpower 10 y) x (ln 10 * Rpower 10 x)).
  { unfold Rpower.
    replace (ln 10 * exp (x * ln 10)) with (exp (x * ln 10) * (1 * ln 10)) by ring.
    change (derivable_pt_lim (comp exp (fun y => id y * ln 10)) x
              (exp (x * ln 10) * (1 * ln 10))).
    apply derivable_pt_lim_comp.
    - apply (derivable_pt_lim_scal_right id). apply derivable_pt_lim_id.
    - apply derivable_pt_lim_exp. }
  replace (ln 10 * Rpower 10 x / width)
    with ((ln 10 * Rpower 10 x - 0) * / width) by (field; lra).
  apply (derivable_pt_lim_scal_right
           (fun y => Rpower 10 y - Rpower 10 low) x
           (ln 10 * Rpower 10 x - 0) (/ width)).
  apply (derivable_pt_lim_minus (fun y => Rpower 10 y) (fun _ => Rpower 10 low)).
  - exact Hpow.
  - apply derivable_pt_lim_const.
Qed.

Definition cdf_derivable : derivable (linearexp_cdf low high) :=
  fun x => exist _ (smooth x) (cdf_derivative x).

Lemma smooth_continuous : continuity (derive (linearexp_cdf low high) cdf_derivable).
Proof.
  assert (Hw := width_pos).
  change (continuity smooth).
  unfold smooth, Rpower. reg.
Qed.

Definition cdf_C1 : C1_fun := mkC1 smooth_continuous.

Lemma pdf_inside (x : R) :
  low <= x <= high -> linearexp_pdf low high x = smooth x.
Proof.
  intros H. unfold linearexp_pdf, smooth.
  apply in_range_true in H. rewrite H. reflexivity.
Qed.

Lemma pdf_outside (x : R) :
  ~ (low <= x <= high) -> linearexp_pdf low high x = 0.
Proof.
  intros H. unfold linearexp_pdf.
  apply in_range_false in H. rewrite H. reflexivity.
Qed.

Lemma smooth_integrable : Riemann_integrable smooth low high.
Proof. exact (RiemannInt_P32 cdf_C1 low high). Qed.

Lemma pdf_integrable : Riemann_integrable (linearexp_pdf low high) low high.
Proof.
  apply Riemann_integrable_ext with (f := smooth); [|exact smooth_integrable].
  intros x Hx. rewrite Rmin_left, Rmax_right in Hx by lra.
  symmetry. apply pdf_inside. exact Hx.
Qed.

Lemma pdf_integral (pr : Riemann_integrable (linearexp_pdf low high) low high) :
  RiemannInt pr = 1.
Proof.
  assert (Hw := width_pos).
  rewrite (RiemannInt_P18 pr smooth_integrable).
  - rewrite (RiemannInt_P5 smooth_integrable (RiemannInt_P32 cdf_C1 low high)).
    rewrite (FTC_Riemann cdf_C1). simpl. unfold linearexp_cdf. fold width.
    field. lra.
  - lra.
  - intros x Hx. apply pdf_inside. lra.
Qed.

End LinearExp.

(** C3: for bounds low < high the LinearExp density is
    ln(10) 10^x / (10^high - 10^low) on [low, high] and 0, with log-density
    minus infinity, outside; it is Riemann-integrable over [low, high] with
    integral 1. *)
Theorem linearexp_density (low high : R) :
  low < high ->
  (forall x, low <= x <= high ->
     pdf (LinearExp low high) x =
     ln 10 * Rpower 10 x / (Rpower 10 high - Rpower 10 low)) /\
  (forall x, ~ (low <= x <= high) ->
     pdf (LinearExp low high) x = 0 /\
     log_density (LinearExp low high) x = NegInf) /\
  (exists pr : Riemann_integrable (pdf (LinearExp low high)) low high,
     RiemannInt pr = 1).
Proof.
  intros Hb. split; [|split].
  - intros x Hx. simpl. apply pdf_inside; assumption.
  - intros x Hx. split.
    + simpl. apply pdf_outside; assumption.
    + unfold log_density, in_support. simpl.
      apply in_range_false in Hx. rewrite Hx. reflexivity.
  - exists (pdf_integrable Hb). apply pdf_integral. exact Hb.
Qed.

Lemma linearexp_density_witness :
  (forall x, -20 <= x <= -12 ->
     pdf (LinearExp (-20) (-12)) x =
     ln 10 * Rpower 10 x / (Rpower 10 (-12) - Rpower 10 (-20))) /\
  (forall x, ~ (-20 <= x <= -12) ->
     pdf (LinearExp (-20) (-12)) x = 0 /\
     log_density (LinearExp (-20) (-12)) x = NegInf) /\
  (exists pr : Riemann_integrable (pdf (LinearExp (-20) (-12))) (-20) (-12),
     RiemannInt pr = 1).
Proof.
  apply (linearexp_density (low := -20) (high := -12)). lra.
Defined.

End PriorFacts.

(** * Facts about the likelihood *)

Module RealFacts.

Local Open Scope R_scope.

(** If a quadratic [2 b t + c t^2] with [c >= 0] is never negative, its
    linear coefficient vanishes. *)
Lemma linear_term_vanishes (b c : R) :
  0 <= c ->
  (forall t : R, 0 <= t * (b + b) + t * t * c) ->
  b = 0.
Proof.
  intros Hc H.
  assert (Hs : 0 < / (c + 1)) by (apply Rinv_0_lt_compat; lra).
  specialize (H (- (b * / (c + 1)))).
  assert (E : - (b * / (c + 1)) * (b + b)
              + - (b * / (c + 1)) * - (b * / (c + 1)) * c
              = - (b * b * (/ (c + 1) * / (c + 1)) * (c + 2))).
  { field. lra. }
  rewrite E in H.
  assert (Hp : 0 < / (c + 1) * / (c + 1) * (c + 2)).
  { apply Rmult_lt_0_compat; [apply Rmult_lt_0_compat; assumption | lra]. }
  assert (Hq : 0 <= b * b) by apply Rle_0_sqr.
  assert (Hz : b * b = 0).
  { rewrite Rmult_assoc in H.
    destruct (Rle_lt_or_eq_dec _ _ Hq) as [Hlt|Heq]; [|symmetry; exact Heq].
    assert (0 < b * b * (/ (c + 1) * / (c + 1) * (c + 2)))
      by (apply Rmult_lt_0_compat; assumption).
    lra. }
  destruct (Rmult_integral _ _ Hz); assumption.
Qed.

Lemma minus_one_nonpos : Ropp R1 <= R0.
Proof. lra. Qed.

Lemma shifted_nonpos (e : R) : e <= R1 -> Rplus (Ropp R1) e <= R0.
Proof. intros H. lra. Qed.

End RealFacts.

Module MatrixFacts.

Import mathcomp.boot.boot mathcomp.algebra.algebra.
Import RealField Mx.
Import GRing.Theory.
Local Open Scope ring_scope.
Local Unset Strict Implicit.

(** ** The Woodbury identity and the matrix determinant lemma, in any field *)

Section Woodbury.

Variable K : fieldType.
Variables n m : nat.
Variables (F : 'M[K]_(n, m)) (Phi : 'M[K]_m) (N : 'M[K]_n).

Let Sg : 'M[K]_m := invmx Phi + F^T *m invmx N *m F.
Let C : 'M[K]_n := N + F *m Phi *m F^T.

Hypothesis uN : N \in unitmx.
Hypothesis uPhi : Phi \in unitmx.

(** Two block factorisations of [[N, -F], [F^T, Phi^-1]]. *)
Lemma det_dense : \det C = \det N * \det Phi * \det Sg.
Proof.
pose M : 'M[K]_(n + m) := block_mx N (- F) F^T (invmx Phi).
have E1 : M = block_mx 1%:M 0 (F^T *m invmx N) 1%:M *m block_mx N (- F) 0 Sg.
  rewrite mulmx_block ?(mul1mx, mul0mx, mulmx0, mulmx1, addr0, add0r).
  by rewrite mulmxKV // mulmxN /Sg [invmx Phi + _]addrC addrA addNr add0r.
have E2 : M = block_mx 1%:M (- (F *m Phi)) 0 1%:M *m block_mx C 0 F^T (invmx Phi).
  rewrite mulmx_block ?(mul1mx, mul0mx, mulmx0, mulmx1, addr0, add0r).
  by rewrite mulNmx /C -mulmxA addrK mulNmx mulmxK.
have D1 : \det M = \det N * \det Sg.
  by rewrite E1 det_mulmx det_lblock det_ublock !det1 !mul1r.
have D2 : \det M = \det C * (\det Phi)^-1.
  by rewrite E2 det_mulmx det_ublock det_lblock !det1 !mul1r det_inv.
have uP : \det Phi \is a GRing.unit by rewrite -unitmxE.
by rewrite -[LHS](divrK uP) -D2 D1 mulrAC.
Qed.

Hypothesis uSg : Sg \in unitmx.

Lemma dense_unit : C \in unitmx.
Proof. by rewrite unitmxE det_dense !unitrM -!unitmxE uN uPhi uSg. Qed.

Lemma woodbury_inverse :
  invmx C = invmx N - invmx N *m F *m invmx Sg *m F^T *m invmx N.
Proof.
set W := invmx N - _.
have CW : C *m W = 1%:M.
  have FNF : F^T *m invmx N *m F = Sg - invmx Phi by rewrite /Sg addrC addKr.
  rewrite /C /W mulmxBr mulmxDl mulmxV // mulmxDl.
  rewrite !mulmxA mulmxV // mul1mx.
  rewrite -[F *m Phi *m F^T *m invmx N *m F]mulmxA.
  rewrite -[F *m Phi *m F^T *m (_ *m _)]mulmxA.
  rewrite [F^T *m (invmx N *m F)]mulmxA FNF mulmxBr mulmxBl mulmxBl mulmxBl.
  rewrite -[F *m Phi *m invmx Phi]mulmxA mulmxV // mulmx1.
  rewrite -[F *m Phi *m Sg *m invmx Sg]mulmxA mulmxV // mulmx1.
  by rewrite [_ + (_ - _)]addrC subrK addrK.
by rewrite -[LHS]mulmx1 -CW mulmxA mulVmx ?mul1mx // dense_unit.
Qed.

End Woodbury.

(** ** Positive definite real matrices *)

Lemma quad_formD n (A B : 'M[R]_n) v :
  quad_form (A + B) v = quad_form A v + quad_form B v.
Proof. by rewrite /quad_form mulmxDr mulmxDl mxE. Qed.

Lemma quad_form0 n (A : 'M[R]_n) : quad_form A 0 = 0.
Proof. by rewrite /quad_form mulmx0 mxE. Qed.

Lemma quad_form_conj n m (B : 'M[R]_n) (F : 'M[R]_(n, m)) (v : 'cV[R]_m) :
  quad_form (F^T *m B *m F) v = quad_form B (F *m v).
Proof. by rewrite /quad_form trmx_mul !mulmxA. Qed.

(** The quadratic form along a line: a polynomial of degree two. *)
Lemma quad_form_line n (A : 'M[R]_n) (v w : 'cV[R]_n) (t : R) :
  symmetric A ->
  quad_form A (v + t *: w) =
  quad_form A v + t * ((w^T *m A *m v) 0 0 + (w^T *m A *m v) 0 0)
  + t * t * quad_form A w.
Proof.
move=> sA; rewrite /quad_form.
have sw : (v^T *m A *m w) 0 0 = (w^T *m A *m v) 0 0.
  have <- : (w^T *m A *m v)^T = v^T *m A *m w.
    by rewrite !trmx_mul trmxK sA mulmxA.
  by rewrite mxE.
rewrite [(_ + _)^T]linearD /= [(t *: w)^T]linearZ /=.
rewrite !mulmxDl !mulmxDr -!scalemxAl -!scalemxAr.
move: sw.
move: (v^T *m A *m v) (v^T *m A *m w) (w^T *m A *m v) (w^T *m A *m w).
by move=> a b c d sw; rewrite !mxE sw mulrDr mulrA -!addrA.
Qed.

(** An invertible covariance matrix is positive definite. *)
Lemma covariance_pos_def n (A : 'M[R]_n) :
  covariance A -> invertible A -> pos_def A.
Proof.
move=> [sA pA] uA v v0.
case: (Rle_lt_or_eq_dec _ _ (pA v)) => // q0.
suff Av0 : A *m v = 0.
  by move: v0; rewrite -[v](mulKmx uA) Av0 mulmx0 eqxx.
apply/colP => i; rewrite [RHS]mxE.
apply: (@RealFacts.linear_term_vanishes _ (quad_form A (delta_mx i 0))).
  exact: pA.
move=> t; move: (pA (v + t *: delta_mx i 0)).
by rewrite (quad_form_line _ _ _ sA) -q0 add0r trmx_delta -mulmxA -rowE mxE.
Qed.

Lemma Rlt_neq0 (x : R) : Rlt R0 x -> x != 0.
Proof. by move=> h; apply/eqP => e; move: h; rewrite e; exact: Rlt_irrefl. Qed.

(** A positive definite matrix has a positive determinant: eliminate the
    first coordinate and pass to the Schur complement. *)
Lemma pos_def_det n (A : 'M[R]_n) : pos_def A -> Rlt R0 (\det A).
Proof.
elim: n A => [|n IH] A pdA; first by rewrite det_mx00; exact: Rlt_0_1.
move: A pdA; rewrite -[n.+1]/(1 + n)%N => A pdA.
pose a := ulsubmx A; pose b := ursubmx A; pose c := dlsubmx A; pose D := drsubmx A.
have a_pos : Rlt R0 (a 0 0).
  have e0 : col_mx (1%:M : 'M[R]_1) (0 : 'M[R]_(n, 1)) != 0.
    apply/eqP => /(congr1 (@usubmx _ 1 n 1)); rewrite col_mxKu.
    move/matrixP/(_ 0 0); rewrite !mxE /= => /eqP.
    by rewrite oner_eq0.
  move: (pdA _ e0); rewrite /quad_form -[A]submxK.
  rewrite -/a -/b -/c -/D tr_col_mx mul_row_block mul_row_col.
  by rewrite trmx0 !mul0mx !addr0 trmx1 !mul1mx !mulmx1 mulmx0 addr0.
have ua : a \in unitmx.
  by rewrite unitmxE det_mx11 unitfE; exact: Rlt_neq0.
pose S := D - c *m invmx a *m b.
have EA : A = block_mx 1%:M 0 (c *m invmx a) 1%:M *m block_mx a b 0 S.
  rewrite mulmx_block ?(mul1mx, mul0mx, mulmx0, mulmx1, addr0, add0r).
  by rewrite mulmxKV // /S addrC subrK submxK.
have pdS : pos_def S.
  move=> w w0.
  pose v : 'cV[R]_(1 + n) := col_mx (- (invmx a *m b *m w)) w.
  have v0 : v != 0.
    apply: contra w0 => /eqP /(congr1 (@dsubmx _ 1 n 1)).
    by rewrite col_mxKd => ->; rewrite -col_mx0 col_mxKd.
  have Av : A *m v = col_mx 0 (S *m w).
    rewrite -[A]submxK -/a -/b -/c -/D mul_block_col.
    rewrite !mulmxN !mulmxA mulmxV // mul1mx addNr /S mulmxBl.
    by rewrite [in RHS]addrC.
  move: (pdA v v0); rewrite /quad_form -mulmxA Av tr_col_mx mul_row_col.
  by rewrite mulmx0 add0r mulmxA.
have dS := IH _ pdS.
rewrite EA det_mulmx det_lblock det_ublock !det1 !mul1r det_mx11.
exact: Rmult_lt_0_compat.
Qed.

Lemma pos_def_unit n (A : 'M[R]_n) : pos_def A -> A \in unitmx.
Proof. by move=> /pos_def_det/Rlt_neq0; rewrite unitmxE unitfE. Qed.

Lemma symmetric_inv n (A : 'M[R]_n) : symmetric A -> symmetric (invmx A).
Proof. by rewrite /symmetric trmx_inv => ->. Qed.

Lemma pos_def_inv n (A : 'M[R]_n) :
  symmetric A -> pos_def A -> pos_def (invmx A).
Proof.
move=> sA pdA v v0; have uA := pos_def_unit pdA.
have <- : quad_form A (invmx A *m v) = quad_form (invmx A) v.
  rewrite /quad_form trmx_mul (symmetric_inv sA) -!mulmxA.
  by rewrite (mulKVmx uA).
apply: pdA; apply: contra v0 => /eqP e.
by rewrite -[v](mulKVmx uA) e mulmx0.
Qed.

(** ** The marginalised covariance of one series *)

Section Marginalised.

Variables n m : nat.
Variables (r : 'cV[R]_n) (F : 'M[R]_(n, m)) (Phi : 'M[R]_m) (N : 'M[R]_n).

Hypothesis cN : covariance N.
Hypothesis uN : invertible N.
Hypothesis cPhi : covariance Phi.
Hypothesis uPhi : invertible Phi.

Lemma pos_def_Sigma : pos_def (Sigma F Phi N).
Proof.
have pdN := pos_def_inv (proj1 cN) (covariance_pos_def cN uN).
have pdP := pos_def_inv (proj1 cPhi) (covariance_pos_def cPhi uPhi).
move=> v v0; rewrite /Sigma quad_formD quad_form_conj.
apply: Rplus_lt_le_0_compat; first exact: pdP.
case: (eqVneq (F *m v) 0) => [->|Fv0].
  by rewrite quad_form0; exact: Rle_refl.
by apply: Rlt_le; exact: pdN.
Qed.

Lemma symmetric_Sigma : symmetric (Sigma F Phi N).
Proof.
have sN : (invmx N)^T = invmx N := symmetric_inv (proj1 cN).
have sP : (invmx Phi)^T = invmx Phi := symmetric_inv (proj1 cPhi).
by rewrite /symmetric /Sigma linearD /= !trmx_mul trmxK sN sP mulmxA.
Qed.

(** Sigma factorises when N and Phi are invertible covariances. *)
Lemma factorizable_Sigma : factorizable (Sigma F Phi N).
Proof. by split; [exact: symmetric_Sigma | exact: pos_def_Sigma]. Qed.

Lemma det_N_pos : Rlt R0 (det N).
Proof. exact: pos_def_det (covariance_pos_def cN uN). Qed.

Lemma det_Phi_pos : Rlt R0 (det Phi).
Proof. exact: pos_def_det (covariance_pos_def cPhi uPhi). Qed.

Lemma det_Sigma_pos : Rlt R0 (det (Sigma F Phi N)).
Proof. exact: pos_def_det pos_def_Sigma. Qed.

Lemma det_dense_covariance :
  det (dense_covariance F Phi N) =
  Rmult (Rmult (det N) (det Phi)) (det (Sigma F Phi N)).
Proof. exact: det_dense. Qed.

Lemma quad_form_dense :
  quad_form (inverse (dense_covariance F Phi N)) r =
  Rminus (quad_form (inverse N) r)
         (quad_form (inverse (Sigma F Phi N)) (project F N r)).
Proof.
have uS := pos_def_unit pos_def_Sigma.
have E (X Y : 'M[R]_1) : (X - Y) 0 0 = Rminus (X 0 0) (Y 0 0) by rewrite !mxE.
rewrite /inverse /dense_covariance (woodbury_inverse uN uPhi uS).
rewrite /quad_form /project mulmxBr mulmxBl E.
congr (Rminus _ (_ 0 0)).
by rewrite !trmx_mul trmxK (symmetric_inv (proj1 cN)) !mulmxA.
Qed.

End Marginalised.

(** Sample data: [a] times the identity, and the all-ones matrix. *)
Definition scaled_identity (n : nat) (a : R) : 'M[R]_n := a%:M.

Definition ones (n m : nat) : 'M[R]_(n, m) := const_mx 1.

(** A positive multiple of the identity is an invertible covariance. *)
Lemma scaled_identity_covariance (n : nat) (a : R) :
  Rlt R0 a ->
  covariance (scaled_identity n a) /\ invertible (scaled_identity n a) = true.
Proof.
move=> a0; rewrite /scaled_identity; split; first split.
- exact: tr_scalar_mx.
- move=> v; rewrite /quad_form mul_mx_scalar -scalemxAl mxE.
  apply: Rmult_le_pos; first exact: Rlt_le.
  rewrite mxE; apply: (@big_ind _ (fun x => Rle R0 x)).
  + exact: Rle_refl.
  + by move=> x y; exact: Rplus_le_le_0_compat.
  + by move=> i _; rewrite mxE; exact: Rle_0_sqr.
- rewrite /invertible unitmxE det_scalar unitfE expf_neq0 //.
  exact: Rlt_neq0.
Qed.

(** Sample data for a failing factorisation: no basis column acts, and
    the prior covariance is minus the identity. *)
Definition no_basis (n m : nat) : 'M[R]_(n, m) := 0.

Definition negative_identity (n : nat) : 'M[R]_n := (-1)%:M.

Lemma quad_form_scalar (a : R) : quad_form (a%:M : 'M[R]_1) 1%:M = a.
Proof. by rewrite /quad_form trmx1 mul1mx mulmx1 mxE eqxx mulr1n. Qed.

Lemma scalar_not_factorizable (a : R) :
  Rle a R0 -> ~ factorizable (a%:M : 'M[R]_1).
Proof.
move=> a0 [_ pd].
have v0 : (1%:M : 'cV[R]_1) != 0.
  apply/eqP => /matrixP /(_ 0 0); rewrite !mxE eqxx /= => /eqP.
  by rewrite oner_eq0.
move: (pd _ v0); rewrite quad_form_scalar => h.
exact: (Rlt_irrefl _ (Rlt_le_trans _ _ _ h a0)).
Qed.

Lemma negative_sigma (N : 'M[R]_1) :
  Sigma (no_basis 1 1) (negative_identity 1) N = (-1)%:M.
Proof.
by rewrite /Sigma /no_basis /negative_identity trmx0 !mul0mx addr0
           invmx_scalar invrN1.
Qed.

Lemma negative_sigma_fails (N : 'M[R]_1) (jitter : R) :
  Rle jitter R1 ->
  ~ factorizable (Sigma (no_basis 1 1) (negative_identity 1) N) /\
  ~ factorizable
      (regularized jitter (Sigma (no_basis 1 1) (negative_identity 1) N)).
Proof.
move=> j1; rewrite negative_sigma /regularized -raddfD /=; split.
- exact: scalar_not_factorizable RealFacts.minus_one_nonpos.
- exact: scalar_not_factorizable (RealFacts.shifted_nonpos j1).
Qed.

End MatrixFacts.

Module LikelihoodFacts.

Import Likelihood.
Local Open Scope R_scope.

(** C1: for a residual vector r, a basis F and invertible covariance
    matrices Phi and N, the Woodbury-form log-likelihood equals the dense
    log-likelihood computed from the inverse and determinant of
    N + F Phi F^T; in particular the two agree within the relative
    tolerance 1e-6. *)
Theorem woodbury_equals_dense (n m : nat) (r : matrix.matrix R n 1)
  (F : matrix.matrix R n m) (Phi : matrix.matrix R m m)
  (N : matrix.matrix R n n) :
  Mx.covariance N -> Mx.invertible N = true ->
  Mx.covariance Phi -> Mx.invertible Phi = true ->
  lnlike_woodbury r F Phi N = lnlike_dense r F Phi N /\
  within_rtol 1e-6 (lnlike_woodbury r F Phi N) (lnlike_dense r F Phi N).
Proof.
  intros cN uN cPhi uPhi.
  assert (E : lnlike_woodbury r F Phi N = lnlike_dense r F Phi N).
  { unfold lnlike_woodbury, lnlike_dense, logdet.
    rewrite MatrixFacts.quad_form_dense by assumption.
    rewrite MatrixFacts.det_dense_covariance by assumption.
    assert (HN : 0 < Mx.det N)
      by (apply MatrixFacts.det_N_pos; assumption).
    assert (HP : 0 < Mx.det Phi)
      by (apply MatrixFacts.det_Phi_pos; assumption).
    assert (HS : 0 < Mx.det (Mx.Sigma F Phi N))
      by (apply MatrixFacts.det_Sigma_pos; assumption).
    rewrite ln_mult; [|apply Rmult_lt_0_compat; assumption|assumption].
    rewrite ln_mult by assumption.
    ring. }
  split; [exact E|].
  unfold within_rtol. rewrite E.
  replace (lnlike_dense r F Phi N - lnlike_dense r F Phi N) with 0 by ring.
  rewrite Rabs_R0. apply Rmult_le_pos; [lra|apply Rabs_pos].
Qed.

(** Three observations, two basis columns. *)
Lemma woodbury_equals_dense_witness :
  lnlike_woodbury (MatrixFacts.ones 3 1) (MatrixFacts.ones 3 2)
    (MatrixFacts.scaled_identity 2 3) (MatrixFacts.scaled_identity 3 2) =
  lnlike_dense (MatrixFacts.ones 3 1) (MatrixFacts.ones 3 2)
    (MatrixFacts.scaled_identity 2 3) (MatrixFacts.scaled_identity 3 2) /\
  within_rtol 1e-6
    (lnlike_woodbury (MatrixFacts.ones 3 1) (MatrixFacts.ones 3 2)
       (MatrixFacts.scaled_identity 2 3) (MatrixFacts.scaled_identity 3 2))
    (lnlike_dense (MatrixFacts.ones 3 1) (MatrixFacts.ones 3 2)
       (MatrixFacts.scaled_identity 2 3) (MatrixFacts.scaled_identity 3 2)).
Proof.
  apply woodbury_equals_dense.
  - apply MatrixFacts.scaled_identity_covariance. lra.
  - apply MatrixFacts.scaled_identity_covariance. lra.
  - apply MatrixFacts.scaled_identity_covariance. lra.
  - apply MatrixFacts.scaled_identity_covariance. lra.
Defined.

End LikelihoodFacts.

(** * Facts about the engine *)

Module EngineFacts.

Import Prior Likelihood Engine.
Local Open Scope R_scope.

(** ** The log-prior *)

Lemma ln_add_neginf (a b : lnval) :
  ln_add a b = NegInf <-> a = NegInf \/ b = NegInf.
Proof.
  destruct a, b; simpl; split; intros H; auto; try discriminate;
    destruct H; discriminate.
Qed.

Lemma log_density_neginf (p : prior) (v : R) :
  log_density p v = NegInf <-> in_support p v = false.
Proof.
  unfold log_density. destruct (in_support p v); split; congruence.
Qed.

(** C2: over a mapping that gives every registry parameter a value,
    get_lnprior returns a value, never an exception; the value is minus
    infinity exactly when some parameter's value lies outside its declared
    support, and otherwise it is the sum of the parameters' log-densities. *)
Theorem get_lnprior_spec (pta : PTA) (x : valuation) :
  covers_registry (params pta) x ->
  exists v,
    get_lnprior pta x = Returned v /\
    (v = NegInf <-> some_out_of_support (params pta) x) /\
    (~ some_out_of_support (params pta) x ->
     v = Fin (sum_log_pdf (params pta) x)).
Proof.
  unfold get_lnprior. generalize (params pta) as registry.
  induction registry as [|[k p] rest IH]; intros Hcov; simpl.
  - exists (Fin 0). split; [reflexivity|]. split.
    + split; [discriminate|]. intros (k & p & v & [] & _).
    + reflexivity.
  - destruct (x k) as [v|] eqn:Hk.
    2:{ exfalso. apply (Hcov k p); [left; reflexivity | exact Hk]. }
    destruct IH as (acc & Hacc & Hinf & Hsum).
    { intros k' p' Hin. apply (Hcov k' p'). right. exact Hin. }
    rewrite Hacc. simpl. eexists. split; [reflexivity|]. split.
    + rewrite ln_add_neginf, log_density_neginf, Hinf. split.
      * intros [Hout|(k' & p' & v' & Hin & Hx & Hout)].
        -- exists k, p, v. simpl. auto.
        -- exists k', p', v'. simpl. auto.
      * intros (k' & p' & v' & [Heq|Hin] & Hx & Hout).
        -- inversion Heq; subst. rewrite Hk in Hx. inversion Hx; subst. auto.
        -- right. exists k', p', v'. auto.
    + intros Hnone.
      assert (Hrest : ~ some_out_of_support rest x).
      { intros (k' & p' & v' & Hin & Hx & Hout). apply Hnone.
        exists k', p', v'. simpl. auto. }
      rewrite (Hsum Hrest).
      unfold log_density. destruct (in_support p v) eqn:Hs.
      * reflexivity.
      * exfalso. apply Hnone. exists k, p, v. simpl. auto.
Qed.

(** ** Resolution of parameters *)

Lemma resolve_raises (d x : valuation) (p : Param) (e : exn) :
  resolve d x p = Raised e -> e = MissingParameterError /\ unresolved d x p.
Proof.
  unfold resolve, lookup, unresolved.
  destruct (pkind p) as [pr|[v|]].
  - destruct (x (name p)); intros H; inversion H; auto.
  - intros H; inversion H.
  - destruct (d (name p)); intros H; inversion H; auto.
Qed.

Lemma unresolved_raises (d x : valuation) (p : Param) :
  unresolved d x p -> resolve d x p = Raised MissingParameterError.
Proof.
  unfold resolve, lookup, unresolved.
  destruct (pkind p) as [pr|[v|]].
  - intros ->. reflexivity.
  - intros [].
  - intros ->. reflexivity.
Qed.

Lemma resolve_lookup (d x : valuation) (p : Param) (u : R) :
  resolve d x p = Returned u <-> lookup d x p = Some u.
Proof.
  unfold resolve. destruct (lookup d x p); split; intros H; inversion H;
    reflexivity.
Qed.

Section Resolution.

Variable objs : ref -> Param.
Variables d x : valuation.

Lemma resolve_all_raises (rs : list ref) (e : exn) :
  resolve_all objs d x rs = Raised e ->
  e = MissingParameterError /\ exists r, In r rs /\ unresolved d x (objs r).
Proof.
  induction rs as [|r rs IH]; simpl; [discriminate|].
  destruct (resolve d x (objs r)) as [v|e'] eqn:Hr; simpl.
  - destruct (resolve_all objs d x rs) as [vs|e'']; simpl; [discriminate|].
    intros H. inversion H; subst.
    destruct (IH eq_refl) as [He (q & Hq & Hu)].
    split; [exact He|]. exists q. auto.
  - intros H. inversion H; subst.
    destruct (resolve_raises _ _ _ Hr) as [He Hu].
    split; [exact He|]. exists r. auto.
Qed.

Lemma resolve_all_unresolved (rs : list ref) (r : ref) :
  In r rs -> unresolved d x (objs r) ->
  resolve_all objs d x rs = Raised MissingParameterError.
Proof.
  induction rs as [|q rs IH]; simpl; [intros []|].
  intros [->|Hin] Hu.
  - rewrite (unresolved_raises _ _ _ Hu). reflexivity.
  - destruct (resolve d x (objs q)) as [v|e] eqn:Hq; simpl.
    + rewrite (IH Hin Hu). reflexivity.
    + destruct (resolve_raises _ _ _ Hq) as [-> _]. reflexivity.
Qed.

Lemma resolve_all_holds (rs : list ref) (vals : list R) :
  resolve_all objs d x rs = Returned vals <-> holds objs d x rs vals.
Proof.
  unfold holds. revert vals.
  induction rs as [|r rs IH]; intros vals; simpl.
  - split; intros H; inversion H; constructor.
  - split.
    + destruct (resolve d x (objs r)) as [v|] eqn:Hr; simpl; [|discriminate].
      destruct (resolve_all objs d x rs) as [vs|]; simpl; [|discriminate].
      intros H. inversion H; subst. constructor.
      * apply resolve_lookup. exact Hr.
      * apply IH. reflexivity.
    + intros H. inversion H as [|? u ? vs Hu Hvs]; subst.
      apply resolve_lookup in Hu. rewrite Hu. simpl.
      apply IH in Hvs. rewrite Hvs. reflexivity.
Qed.

Lemma resolve_each_raises (scs : list SignalCollection) (e : exn) :
  resolve_each objs d x scs = Raised e ->
  e = MissingParameterError /\
  exists sc r, In sc scs /\ In r (sc_params sc) /\ unresolved d x (objs r).
Proof.
  induction scs as [|sc scs IH]; simpl; [discriminate|].
  destruct (resolve_all objs d x (sc_params sc)) as [vals|e'] eqn:Hc; simpl.
  - destruct (resolve_each objs d x scs) as [valss|e'']; simpl; [discriminate|].
    intros H. inversion H; subst.
    destruct (IH eq_refl) as [He (sc' & r & Hsc & Hr & Hu)].
    split; [exact He|]. exists sc', r. auto.
  - intros H. inversion H; subst.
    destruct (resolve_all_raises _ Hc) as [He (r & Hr & Hu)].
    split; [exact He|]. exists sc, r. auto.
Qed.

Lemma resolve_each_unresolved (scs : list SignalCollection)
  (sc : SignalCollection) (r : ref) :
  In sc scs -> In r (sc_params sc) -> unresolved d x (objs r) ->
  resolve_each objs d x scs = Raised MissingParameterError.
Proof.
  induction scs as [|sc' scs IH]; simpl; [intros []|].
  intros [->|Hin] Hr Hu.
  - rewrite (resolve_all_unresolved _ _ Hr Hu). reflexivity.
  - destruct (resolve_all objs d x (sc_params sc')) as [vals|e] eqn:Hc; simpl.
    + rewrite (IH Hin Hr Hu). reflexivity.
    + destruct (resolve_all_raises _ Hc) as [-> _]. reflexivity.
Qed.

Lemma resolve_each_returns (scs : list SignalCollection)
  (valss : list (list R)) :
  resolve_each objs d x scs = Returned valss ->
  Forall2 (fun sc vals => resolve_all objs d x (sc_params sc) = Returned vals)
          scs valss.
Proof.
  revert valss. induction scs as [|sc scs IH]; intros valss; simpl.
  - intros H. inversion H. constructor.
  - destruct (resolve_all objs d x (sc_params sc)) as [vals|] eqn:Hc; simpl;
      [|discriminate].
    destruct (resolve_each objs d x scs) as [vs|]; simpl; [|discriminate].
    intros H. inversion H; subst. constructor; [exact Hc|].
    apply IH. reflexivity.
Qed.

End Resolution.

(** ** Factorisation and its one retry *)

Lemma factorize_retry_cases (jitter : R) (m : nat) (A : matrix.matrix R m m) :
  (Mx.factorizable A /\ factorize_retry jitter A = (1%nat, Returned A)) \/
  (~ Mx.factorizable A /\ Mx.factorizable (Mx.regularized jitter A) /\
   factorize_retry jitter A = (2%nat, Returned (Mx.regularized jitter A))) \/
  (~ Mx.factorizable A /\ ~ Mx.factorizable (Mx.regularized jitter A) /\
   factorize_retry jitter A = (2%nat, Raised NonPositiveDefiniteError)).
Proof.
  unfold factorize_retry, factorize. cbn [fst snd].
  destruct (excluded_middle_informative (Mx.factorizable A)) as [H|H].
  - left. split; [exact H|reflexivity].
  - right.
    destruct (excluded_middle_informative
                (Mx.factorizable (Mx.regularized jitter A))) as [H'|H'].
    + left. split; [exact H|]. split; [exact H'|reflexivity].
    + right. split; [exact H|]. split; [exact H'|reflexivity].
Qed.

Lemma series_lnlike_raises (jitter : R) (sc : SignalCollection)
  (vals : list R) (e : exn) :
  snd (series_lnlike jitter sc vals) = Raised e ->
  e = NonPositiveDefiniteError /\
  fst (series_lnlike jitter sc vals) = 2%nat /\
  ~ Mx.factorizable (series_sigma sc vals) /\
  ~ Mx.factorizable (Mx.regularized jitter (series_sigma sc vals)).
Proof.
  unfold series_lnlike, bind_run.
  destruct (factorize_retry_cases jitter (series_sigma sc vals))
    as [[_ ->]|[(_ & _ & ->)|(H1 & H2 & ->)]]; cbn [fst snd ret].
  - discriminate.
  - discriminate.
  - intros H. inversion H. auto.
Qed.

Lemma series_lnlike_factorizable (jitter : R) (sc : SignalCollection)
  (vals : list R) :
  Mx.factorizable (series_sigma sc vals) ->
  series_lnlike jitter sc vals =
  (1%nat, Returned (lnlike_woodbury (residuals sc) (basis sc)
                     (get_phi sc vals) (get_ndiag sc vals))).
Proof.
  intros Hf. unfold series_lnlike, bind_run.
  destruct (factorize_retry_cases jitter (series_sigma sc vals))
    as [[_ ->]|[(H & _)|(H & _)]]; [|contradiction|contradiction].
  reflexivity.
Qed.

Lemma series_lnlike_attempts (jitter : R) (sc : SignalCollection)
  (vals : list R) :
  (1 <= fst (series_lnlike jitter sc vals))%nat.
Proof.
  unfold series_lnlike, bind_run.
  destruct (factorize_retry_cases jitter (series_sigma sc vals))
    as [[_ ->]|[(_ & _ & ->)|(_ & _ & ->)]]; cbn [fst snd ret]; lia.
Qed.

Lemma bind_run_raised (A B : Type) (m : run A) (k : A -> run B) (e : exn) :
  snd (bind_run m k) = Raised e ->
  (snd m = Raised e /\ fst (bind_run m k) = fst m) \/
  (exists a, snd m = Returned a /\ snd (k a) = Raised e /\
             fst (bind_run m k) = (fst m + fst (k a))%nat).
Proof.
  unfold bind_run. destruct (snd m) as [a|e']; cbn [fst snd].
  - intros H. right. exists a. repeat split. exact H.
  - intros H. left. split; [inversion H; reflexivity|reflexivity].
Qed.

Lemma sum_lnlike_raises (jitter : R) (scs : list SignalCollection) :
  forall (valss : list (list R)) (e : exn),
    snd (sum_lnlike jitter scs valss) = Raised e ->
    e = NonPositiveDefiniteError /\
    (2 <= fst (sum_lnlike jitter scs valss))%nat /\
    exists sc vals,
      In (sc, vals) (combine scs valss) /\
      ~ Mx.factorizable (series_sigma sc vals) /\
      ~ Mx.factorizable (Mx.regularized jitter (series_sigma sc vals)).
Proof.
  induction scs as [|sc scs IH]; intros [|vals valss] e;
    cbn [sum_lnlike ret snd]; try discriminate.
  intros H.
  apply bind_run_raised in H as [[Hs Hf]|(l & Hs & Hk & Hf)]; rewrite Hf.
  - destruct (series_lnlike_raises _ _ _ Hs) as (He & Hn & H1 & H2).
    split; [exact He|]. split; [lia|].
    exists sc, vals. split; [left; reflexivity|auto].
  - apply bind_run_raised in Hk as [[Hr Hf2]|(acc & _ & Hret & _)];
      [|discriminate].
    destruct (IH valss e Hr) as (He & Hn & sc' & vals' & Hin & H1 & H2).
    split; [exact He|]. split; [lia|].
    exists sc', vals'. split; [right; exact Hin|auto].
Qed.

Lemma sum_lnlike_returns (jitter : R) (scs : list SignalCollection) :
  forall valss : list (list R),
    Forall2 (fun sc vals => Mx.factorizable (series_sigma sc vals)) scs valss ->
    exists v, sum_lnlike jitter scs valss = (List.length scs, Returned v).
Proof.
  induction scs as [|sc scs IH]; intros valss H;
    inversion H as [|? vals ? valss' Hf Hrest]; subst;
    cbn [sum_lnlike List.length].
  - exists 0. reflexivity.
  - destruct (IH _ Hrest) as (acc & Hacc).
    rewrite (series_lnlike_factorizable jitter Hf).
    unfold bind_run at 1. cbn [fst snd]. rewrite Hacc.
    unfold bind_run. cbn [fst snd ret].
    eexists. f_equal. lia.
Qed.

Lemma in_combine_related (A B : Type) (P : A -> B -> Prop)
  (l : list A) (l' : list B) (a : A) (b : B) :
  Forall2 P l l' -> In (a, b) (combine l l') -> In a l /\ P a b.
Proof.
  induction 1 as [|a' b' l l' Hab _ IH]; cbn [combine In]; [intros []|].
  intros [E|Hin].
  - inversion E; subst. split; [left; reflexivity|exact Hab].
  - destruct (IH Hin). split; [right|]; assumption.
Qed.

Lemma series_lnlike_fails (jitter : R) (sc : SignalCollection)
  (vals : list R) :
  ~ Mx.factorizable (series_sigma sc vals) ->
  ~ Mx.factorizable (Mx.regularized jitter (series_sigma sc vals)) ->
  series_lnlike jitter sc vals = (2%nat, Raised NonPositiveDefiniteError).
Proof.
  intros H1 H2. unfold series_lnlike, bind_run.
  destruct (factorize_retry_cases jitter (series_sigma sc vals))
    as [[H _]|[(_ & H & _)|(_ & _ & ->)]];
    [contradiction|contradiction|reflexivity].
Qed.

Lemma sum_lnlike_fails (jitter : R) (sc : SignalCollection) (vals : list R) :
  ~ Mx.factorizable (series_sigma sc vals) ->
  ~ Mx.factorizable (Mx.regularized jitter (series_sigma sc vals)) ->
  forall scs valss,
    In (sc, vals) (combine scs valss) ->
    snd (sum_lnlike jitter scs valss) = Raised NonPositiveDefiniteError.
Proof.
  intros H1 H2. induction scs as [|sc' scs IH]; intros [|vals' valss];
    cbn [combine In]; try (intros Hf; contradiction).
  intros Hin. cbn [sum_lnlike]. unfold bind_run at 1.
  destruct (snd (series_lnlike jitter sc' vals')) as [l|e] eqn:Hs.
  - cbn [snd]. destruct Hin as [E|Hin].
    + inversion E; subst.
      rewrite (@series_lnlike_fails jitter sc vals H1 H2) in Hs. discriminate.
    + unfold bind_run. rewrite (IH valss Hin). reflexivity.
  - cbn [snd]. destruct (series_lnlike_raises _ _ _ Hs) as [-> _].
    reflexivity.
Qed.

Lemma in_combine_of (A B : Type) (P : A -> B -> Prop)
  (l : list A) (l' : list B) (a : A) :
  Forall2 P l l' -> In a l -> exists b, In (a, b) (combine l l') /\ P a b.
Proof.
  induction 1 as [|a' b' l l' Hab _ IH]; cbn [combine In]; [intros []|].
  intros [->|Hin].
  - exists b'. split; [left; reflexivity|exact Hab].
  - destruct (IH Hin) as (b & Hb & Hp). exists b. split; [right|]; assumption.
Qed.

Lemma Forall2_weaken (A B : Type) (P Q : A -> B -> Prop)
  (l : list A) (l' : list B) :
  Forall2 P l l' ->
  (forall a b, In a l -> P a b -> Q a b) ->
  Forall2 Q l l'.
Proof.
  induction 1 as [|a b l l' Hab _ IH]; intros H; constructor.
  - apply H; [left; reflexivity|exact Hab].
  - apply IH. intros a' b' Hin. apply H. right. exact Hin.
Qed.

(** C4: after the defaults are registered with set_default_params,
    get_lnlikelihood fails with MissingParameterError exactly when some
    parameter of some series cannot be resolved (a free one absent from the
    mapping, or a Constant without fixed value absent from the defaults).
    That failure is the outcome of the call before any factorisation was
    attempted: nothing is retried.  The only other failure is the
    NonPositiveDefiniteError of a series whose Sigma failed to factorise
    twice, plain and regularised, and it does arise when every parameter
    resolves and there is such a series; when every parameter resolves and
    every Sigma factorises the call returns a value after one factorisation
    per series. *)
Theorem get_lnlikelihood_missing (jitter : R) (pta : PTA) (d x : valuation) :
  (snd (get_lnlikelihood jitter (set_default_params pta d) x)
     = Raised MissingParameterError <->
   exists sc r,
     In sc (collections pta) /\ In r (sc_params sc) /\
     unresolved d x (objects pta r)) /\
  (snd (get_lnlikelihood jitter (set_default_params pta d) x)
     = Raised MissingParameterError ->
   fst (get_lnlikelihood jitter (set_default_params pta d) x) = 0%nat) /\
  (forall e,
     snd (get_lnlikelihood jitter (set_default_params pta d) x) = Raised e ->
     e <> MissingParameterError ->
     e = NonPositiveDefiniteError /\
     (2 <= fst (get_lnlikelihood jitter (set_default_params pta d) x))%nat /\
     exists sc vals,
       In sc (collections pta) /\
       resolve_all (objects pta) d x (sc_params sc) = Returned vals /\
       ~ Mx.factorizable (series_sigma sc vals) /\
       ~ Mx.factorizable (Mx.regularized jitter (series_sigma sc vals))) /\
  ((exists sc vals,
      In sc (collections pta) /\
      resolve_all (objects pta) d x (sc_params sc) = Returned vals /\
      ~ Mx.factorizable (series_sigma sc vals) /\
      ~ Mx.factorizable (Mx.regularized jitter (series_sigma sc vals))) ->
   (forall sc r, In sc (collections pta) -> In r (sc_params sc) ->
      ~ unresolved d x (objects pta r)) ->
   snd (get_lnlikelihood jitter (set_default_params pta d) x)
     = Raised NonPositiveDefiniteError) /\
  ((forall sc r, In sc (collections pta) -> In r (sc_params sc) ->
      ~ unresolved d x (objects pta r)) ->
   (forall sc vals, In sc (collections pta) ->
      resolve_all (objects pta) d x (sc_params sc) = Returned vals ->
      Mx.factorizable (series_sigma sc vals)) ->
   exists v,
     get_lnlikelihood jitter (set_default_params pta d) x =
     (List.length (collections pta), Returned v)).
Proof.
  unfold get_lnlikelihood, set_default_params.
  cbn [objects collections default_params].
  destruct (resolve_each (objects pta) d x (collections pta))
    as [valss|e0] eqn:Hr; unfold bind_run, lift; cbn [fst snd].
  - assert (Hrel := resolve_each_returns _ _ _ _ Hr).
    assert (Hno : snd (sum_lnlike jitter (collections pta) valss)
                  <> Raised MissingParameterError).
    { intros H. apply sum_lnlike_raises in H. destruct H as [H _].
      discriminate. }
    split; [|split; [|split; [|split]]].
    + split; [intros H; contradiction|].
      intros (sc & r & Hsc & Hin & Hu).
      rewrite (@resolve_each_unresolved (objects pta) d x (collections pta)
                 sc r Hsc Hin Hu) in Hr.
      discriminate.
    + intros H. contradiction.
    + intros e He _.
      destruct (sum_lnlike_raises _ _ _ He)
        as (E & Hn & sc & vals & Hin & H1 & H2).
      split; [exact E|]. split; [exact Hn|].
      pose proof (@in_combine_related _ _ _ _ _ _ _ Hrel Hin) as [Hsc Hvals].
      exists sc, vals. auto.
    + intros (sc & vals & Hsc & Hvals & H1 & H2) _.
      destruct (@in_combine_of _ _ _ _ _ sc Hrel Hsc) as (vals' & Hin & Hv').
      cbn beta in Hv'. rewrite Hvals in Hv'. inversion Hv'; subst vals'.
      apply (@sum_lnlike_fails jitter sc vals H1 H2 (collections pta) valss Hin).
    + intros _ Hfact.
      assert (Hall : Forall2
                (fun sc vals => Mx.factorizable (series_sigma sc vals))
                (collections pta) valss).
      { eapply Forall2_weaken; [exact Hrel|].
        intros sc vals Hsc Hvals. apply Hfact; assumption. }
      destruct (sum_lnlike_returns jitter Hall) as (v & Hv).
      exists v. rewrite Hv. reflexivity.
  - destruct (resolve_each_raises _ _ _ _ Hr) as [-> Hex].
    split; [|split; [|split; [|split]]].
    + split; [intros _; exact Hex|reflexivity].
    + reflexivity.
    + intros e He Hne. inversion He; subst e. contradiction.
    + intros _ Hall. destruct Hex as (sc & r & Hsc & Hin & Hu).
      exfalso. exact (Hall sc r Hsc Hin Hu).
    + intros Hall _. destruct Hex as (sc & r & Hsc & Hin & Hu).
      exfalso. exact (Hall sc r Hsc Hin Hu).
Qed.

(** ** Shared and private parameters *)

Lemma collision_free_inj (objs : ref -> Param) (rs : list ref) (r q : ref) :
  collision_free objs rs = true -> In r rs -> In q rs ->
  name (objs r) = name (objs q) -> r = q.
Proof.
  unfold collision_free, same_name. intros H Hr Hq Hn.
  rewrite forallb_forall in H. specialize (H r Hr).
  rewrite forallb_forall in H. specialize (H q Hq).
  apply orb_true_iff in H. destruct H as [H|H].
  - apply Nat.eqb_eq. exact H.
  - rewrite Hn, String.eqb_refl in H. discriminate.
Qed.

Lemma lookup_assign_shared (d x : valuation) (v : R) (p : Param) :
  is_free p = true -> lookup d (assign x (name p) v) p = Some v.
Proof.
  unfold is_free, lookup, assign. intros Hf.
  destruct (pkind p); [|discriminate].
  rewrite String.eqb_refl. reflexivity.
Qed.

Lemma lookup_assign_other (d x : valuation) (k : string) (v : R) (p : Param) :
  is_free p && String.eqb (name p) k = false ->
  lookup d (assign x k v) p = lookup d x p.
Proof.
  unfold is_free, lookup, assign.
  destruct (pkind p) as [pr|[c|]]; simpl; try reflexivity.
  intros ->. reflexivity.
Qed.

Section Sharing.

Variable objs : ref -> Param.
Variable rs : list ref.
Variables d x : valuation.
Variable r : ref.
Variable v : R.

Hypothesis no_collision : collision_free objs rs = true.
Hypothesis r_referenced : In r rs.
Hypothesis r_free : is_free (objs r) = true.

(** After the change the shared object holds the new value, and every
    other object of the model holds the value it held. *)
Lemma lookup_after (q : ref) :
  In q rs ->
  lookup d (assign x (name (objs r)) v) (objs q) =
  if Nat.eqb q r then Some v else lookup d x (objs q).
Proof.
  intros Hq. destruct (Nat.eqb_spec q r) as [->|Hne].
  - apply lookup_assign_shared. exact r_free.
  - apply lookup_assign_other.
    destruct (is_free (objs q)); [|reflexivity]. cbn [andb].
    apply String.eqb_neq. intros Hn. apply Hne.
    apply (@collision_free_inj objs rs q r no_collision Hq r_referenced Hn).
Qed.

Lemma resolve_all_after (qs : list ref) (vals : list R) :
  incl qs rs -> holds objs d x qs vals ->
  resolve_all objs d (assign x (name (objs r)) v) qs =
  Returned (values_after r v qs vals).
Proof.
  unfold holds, values_after. intros Hincl H. revert Hincl.
  induction H as [|q u qs vals Hq _ IH]; intros Hincl;
    cbn [resolve_all combine map fst snd]; [reflexivity|].
  unfold resolve. rewrite lookup_after by (apply Hincl; left; reflexivity).
  rewrite IH by (intros q' Hq'; apply Hincl; right; exact Hq').
  destruct (Nat.eqb q r); [reflexivity|]. rewrite Hq. reflexivity.
Qed.

Lemma resolve_all_frame (qs : list ref) :
  incl qs rs -> existsb (Nat.eqb r) qs = false ->
  resolve_all objs d (assign x (name (objs r)) v) qs = resolve_all objs d x qs.
Proof.
  induction qs as [|q qs IH]; intros Hincl Hex; cbn [resolve_all];
    [reflexivity|].
  cbn [existsb] in Hex. apply orb_false_iff in Hex. destruct Hex as [Hq Hqs].
  unfold resolve. rewrite lookup_after by (apply Hincl; left; reflexivity).
  rewrite Nat.eqb_sym, Hq.
  rewrite IH; [reflexivity| |exact Hqs].
  intros q' Hq'. apply Hincl. right. exact Hq'.
Qed.

Lemma resolve_all_corresponding (ps qs : list ref) :
  incl ps rs -> incl qs rs ->
  Forall2 (corresponds objs d x r) ps qs ->
  resolve_all objs d (assign x (name (objs r)) v) qs =
  resolve_all objs d (assign x (name (objs r)) v) ps.
Proof.
  intros Hps Hqs H. revert Hps Hqs.
  induction H as [|p q ps qs Hpq _ IH]; intros Hps Hqs; cbn [resolve_all];
    [reflexivity|].
  rewrite IH; [| intros a Ha; apply Hps; right; exact Ha
               | intros a Ha; apply Hqs; right; exact Ha].
  f_equal. unfold resolve.
  rewrite (@lookup_after p) by (apply Hps; left; reflexivity).
  rewrite (@lookup_after q) by (apply Hqs; left; reflexivity).
  destruct Hpq as [[-> ->]|(Hp & Hq & Hval)].
  - reflexivity.
  - destruct (Nat.eqb_spec p r); [contradiction|].
    destruct (Nat.eqb_spec q r); [contradiction|].
    rewrite Hval. reflexivity.
Qed.

End Sharing.

(** ** The registry *)

Section Registry.

Variable objs : ref -> Param.

Lemma existsb_eqb_in (r : ref) (seen : list ref) :
  existsb (Nat.eqb r) seen = true <-> In r seen.
Proof.
  rewrite existsb_exists. split.
  - intros (q & Hin & Heq). apply Nat.eqb_eq in Heq. subst. exact Hin.
  - intros Hin. exists r. split; [exact Hin|apply Nat.eqb_refl].
Qed.

(** Every entry of the registry is a free object of the list, met for the
    first time. *)
Lemma registry_of_in (rs : list ref) :
  forall seen k p,
    In (k, p) (registry_of objs seen rs) ->
    exists q, In q rs /\ ~ In q seen /\
              pkind (objs q) = Free p /\ name (objs q) = k.
Proof.
  induction rs as [|r rs IH]; intros seen k p; cbn [registry_of];
    [intros []|].
  destruct (pkind (objs r)) as [pr|c] eqn:Hk.
  - destruct (existsb (Nat.eqb r) seen) eqn:Hseen.
    + intros H. destruct (IH _ _ _ H) as (q & Hq & Hs & Hp & Hn).
      exists q. split; [right; exact Hq|auto].
    + intros [E|H].
      * inversion E; subst. exists r. split; [left; reflexivity|].
        split; [|auto]. intros Hin. apply existsb_eqb_in in Hin. congruence.
      * destruct (IH _ _ _ H) as (q & Hq & Hs & Hp & Hn).
        exists q. split; [right; exact Hq|]. split; [|auto].
        intros Hin. apply Hs. right. exact Hin.
  - intros H. destruct (IH _ _ _ H) as (q & Hq & Hs & Hp & Hn).
    exists q. split; [right; exact Hq|auto].
Qed.

(** Every free object of the list that was not met before has its entry. *)
Lemma registry_of_complete (rs : list ref) :
  forall seen q p,
    In q rs -> ~ In q seen -> pkind (objs q) = Free p ->
    In (name (objs q), p) (registry_of objs seen rs).
Proof.
  induction rs as [|r rs IH]; intros seen q p; cbn [registry_of In];
    [intros []|].
  intros [->|Hq] Hs Hp.
  - rewrite Hp. destruct (existsb (Nat.eqb q) seen) eqn:Hseen.
    + apply existsb_eqb_in in Hseen. contradiction.
    + left. reflexivity.
  - destruct (pkind (objs r)) as [pr|c] eqn:Hk; [|apply IH; assumption].
    destruct (existsb (Nat.eqb r) seen) eqn:Hseen; [apply IH; assumption|].
    destruct (Nat.eq_dec q r) as [->|Hne].
    + left. rewrite Hk in Hp. inversion Hp. reflexivity.
    + right. apply IH; [exact Hq| |exact Hp].
      intros [E|Hin]; [apply Hne; symmetry; exact E|contradiction].
Qed.

(** Without collisions each name occupies one coordinate of the
    registry. *)
Lemma registry_of_nodup (all : list ref) :
  collision_free objs all = true ->
  forall rs seen, incl rs all -> NoDup (map fst (registry_of objs seen rs)).
Proof.
  intros Hfree. induction rs as [|r rs IH]; intros seen Hincl;
    cbn [registry_of map]; [constructor|].
  assert (Hrest : incl rs all)
    by (intros a Ha; apply Hincl; right; exact Ha).
  destruct (pkind (objs r)) as [pr|c]; [|apply IH; exact Hrest].
  destruct (existsb (Nat.eqb r) seen); [apply IH; exact Hrest|].
  cbn [map fst]. constructor; [|apply IH; exact Hrest].
  intros Hin. apply in_map_iff in Hin. destruct Hin as ([k p] & Hk & Hin).
  cbn [fst] in Hk. subst k.
  destruct (registry_of_in _ _ _ _ Hin) as (q & Hq & Hs & _ & Hn).
  apply Hs. left.
  apply (@collision_free_inj objs all r q Hfree).
  - apply Hincl. left. reflexivity.
  - apply Hrest. exact Hq.
  - symmetry. exact Hn.
Qed.

End Registry.

Lemma new_PTA_built (objs : ref -> Param) (scs : list SignalCollection)
  (pta : PTA) :
  new_PTA objs scs = Some pta ->
  collision_free objs (referenced scs) = true /\
  objects pta = objs /\ collections pta = scs.
Proof.
  unfold new_PTA. destruct (collision_free objs (referenced scs));
    [|discriminate].
  intros H. inversion H. auto.
Qed.

Lemma referenced_incl (scs : list SignalCollection) (sc : SignalCollection) :
  In sc scs -> incl (sc_params sc) (referenced scs).
Proof.
  intros Hsc q Hq. unfold referenced. apply in_flat_map. exists sc. auto.
Qed.

Lemma contribution_resolved (jitter : R) (objs : ref -> Param)
  (d x : valuation) (sc : SignalCollection) (vals : list R) :
  resolve_all objs d x (sc_params sc) = Returned vals ->
  contribution jitter objs d x sc = series_lnlike jitter sc vals.
Proof.
  intros H. unfold contribution, bind_run, lift. rewrite H. cbn [fst snd].
  destruct (series_lnlike jitter sc vals). reflexivity.
Qed.

(** The likelihood call is the sum of the series' contributions. *)
Lemma sum_lnlike_contributions (jitter : R) (objs : ref -> Param)
  (d x : valuation) (scs : list SignalCollection) :
  forall valss,
    Forall2 (fun sc vals => resolve_all objs d x (sc_params sc) = Returned vals)
            scs valss ->
    sum_lnlike jitter scs valss =
    fold_right (fun sc acc =>
                  bind_run (contribution jitter objs d x sc) (fun l =>
                  bind_run acc (fun a => ret (l + a))))
               (ret 0) scs.
Proof.
  induction scs as [|sc scs IH]; intros valss H; inversion H; subst;
    cbn [sum_lnlike fold_right]; [reflexivity|].
  rewrite (contribution_resolved jitter _ _ _ _ H2), (IH _ H4). reflexivity.
Qed.

(** C5: in a PTA built without name collisions, let [r] be a free Parameter
    object that some series references.  It occupies one coordinate of the
    registry, under its own prior.  When its value is changed to [v], the
    contribution of every series is its log-likelihood at the values it held
    before with [v] at every place that holds [r]: every referencing series
    is evaluated on the one new value (the Woodbury expression at these
    values when its Sigma factorises); two series with the same model that
    hold [r] at the same places and equal values elsewhere have the same
    contribution; and a series that does not reference [r], as every other
    series when [r] is private to one, keeps its contribution unchanged. *)
Theorem shared_parameter_changes (jitter : R) (objs : ref -> Param)
  (scs : list SignalCollection) (pta : PTA) (d x : valuation)
  (r : ref) (v : R) :
  new_PTA objs scs = Some pta ->
  In r (referenced scs) ->
  is_free (objs r) = true ->
  (NoDup (map fst (params pta)) /\
   exists p, pkind (objs r) = Free p /\
     forall p', In (name (objs r), p') (params pta) <-> p' = p) /\
  (forall sc vals, In sc scs -> holds objs d x (sc_params sc) vals ->
     contribution jitter objs d (assign x (name (objs r)) v) sc =
     series_lnlike jitter sc (values_after r v (sc_params sc) vals)) /\
  (forall sc vals, In sc scs -> holds objs d x (sc_params sc) vals ->
     Mx.factorizable
       (series_sigma sc (values_after r v (sc_params sc) vals)) ->
     contribution jitter objs d (assign x (name (objs r)) v) sc =
     (1%nat,
      Returned
        (lnlike_woodbury (residuals sc) (basis sc)
           (get_phi sc (values_after r v (sc_params sc) vals))
           (get_ndiag sc (values_after r v (sc_params sc) vals))))) /\
  (forall sc qs, In sc scs -> In (with_params sc qs) scs ->
     Forall2 (corresponds objs d x r) (sc_params sc) qs ->
     contribution jitter objs d (assign x (name (objs r)) v)
       (with_params sc qs) =
     contribution jitter objs d (assign x (name (objs r)) v) sc) /\
  (forall sc, In sc scs -> references sc r = false ->
     contribution jitter objs d (assign x (name (objs r)) v) sc =
     contribution jitter objs d x sc).
Proof.
  intros Hbuilt Hr Hfree.
  destruct (new_PTA_built _ _ Hbuilt) as (Hcf & Hobjs & Hscs).
  assert (Hafter : forall sc vals,
            In sc scs -> holds objs d x (sc_params sc) vals ->
            contribution jitter objs d (assign x (name (objs r)) v) sc =
            series_lnlike jitter sc (values_after r v (sc_params sc) vals)).
  { intros sc vals Hsc Hvals. apply contribution_resolved.
    apply (@resolve_all_after objs (referenced scs) d x r v Hcf Hr Hfree);
      [apply referenced_incl; exact Hsc|exact Hvals]. }
  split; [|split; [|split; [|split]]].
  - unfold params. rewrite Hobjs, Hscs. split.
    + apply (@registry_of_nodup objs (referenced scs) Hcf).
      intros a Ha. exact Ha.
    + unfold is_free in Hfree.
      destruct (pkind (objs r)) as [p|c] eqn:Hk; [|discriminate].
      exists p. split; [reflexivity|]. intros p'. split.
      * intros Hin.
        destruct (@registry_of_in objs (referenced scs) [] _ _ Hin)
          as (q & Hq & _ & Hp & Hn).
        assert (E : q = r)
          by (apply (@collision_free_inj objs (referenced scs) q r Hcf Hq Hr);
              exact Hn).
        subst q. rewrite Hk in Hp. inversion Hp. reflexivity.
      * intros ->. apply registry_of_complete; [exact Hr|intros []|exact Hk].
  - exact Hafter.
  - intros sc vals Hsc Hvals Hf. rewrite (Hafter sc vals Hsc Hvals).
    apply series_lnlike_factorizable. exact Hf.
  - intros sc qs Hsc Htwin Hcorr. unfold contribution.
    cbn [sc_params with_params].
    rewrite (@resolve_all_corresponding objs (referenced scs) d x r v
               Hcf Hr Hfree (sc_params sc) qs
               (@referenced_incl scs sc Hsc)
               (@referenced_incl scs (with_params sc qs) Htwin) Hcorr).
    reflexivity.
  - intros sc Hsc Href. unfold contribution.
    rewrite (@resolve_all_frame objs (referenced scs) d x r v Hcf Hr Hfree
               (sc_params sc) (@referenced_incl scs sc Hsc) Href).
    reflexivity.
Qed.

(** ** A two-pulsar model in the shape of the notebook's *)

Local Open Scope string_scope.

(** The Parameter objects: per pulsar a Constant EFAC without fixed value,
    the red-noise amplitude and spectral index; one common amplitude
    [log10_A_gw] and one Constant common spectral index for both. *)
Definition sample_parameters : list Param :=
  [ mkParam "J1713+0747_efac" (Constant None);
    mkParam "J1713+0747_log10_A" (Free (LinearExp (-20) (-12)));
    mkParam "J1713+0747_gamma" (Free (Uniform 0 7));
    mkParam "log10_A_gw" (Free (LinearExp (-18) (-12)));
    mkParam "gamma_gw" (Constant (Some 4.33%R));
    mkParam "B1855+09_efac" (Constant None);
    mkParam "B1855+09_log10_A" (Free (LinearExp (-20) (-12)));
    mkParam "B1855+09_gamma" (Free (Uniform 0 7)) ].

Definition sample_objects : ref -> Param :=
  fun r => nth r sample_parameters (mkParam "" (Constant None)).

(** One observation and one basis column per pulsar. *)
Definition sample_series (rs : list ref) : SignalCollection :=
  {| sc_params := rs;
     nobs := 1;
     nbasis := 1;
     residuals := MatrixFacts.ones 1 1;
     basis := MatrixFacts.ones 1 1;
     get_phi := fun vals =>
       MatrixFacts.scaled_identity 1
         (Rpower 10 (2 * nth 1 vals 0) + Rpower 10 (2 * nth 3 vals 0))%R;
     get_ndiag := fun vals =>
       MatrixFacts.scaled_identity 1 (nth 0 vals 1 * nth 0 vals 1)%R |}.

(** Both series reference the objects 3 and 4. *)
Definition sample_J1713 : SignalCollection := sample_series [0; 1; 2; 3; 4]%nat.

Definition sample_B1855 : SignalCollection := sample_series [5; 6; 7; 3; 4]%nat.

Definition sample_pta : PTA :=
  mkPTA sample_objects [sample_J1713; sample_B1855] empty.

Lemma sample_pta_built :
  new_PTA sample_objects [sample_J1713; sample_B1855] = Some sample_pta.
Proof. reflexivity. Qed.

Definition sample_defaults : valuation :=
  assign (assign empty "J1713+0747_efac" 1.1%R) "B1855+09_efac" 1.1%R.

Definition sample_x : valuation :=
  assign (assign (assign (assign (assign empty
    "J1713+0747_log10_A" (-14)%R) "J1713+0747_gamma" 3%R)
    "B1855+09_log10_A" (-14)%R) "B1855+09_gamma" 3%R)
    "log10_A_gw" (-15)%R.

(** The same mapping without the common amplitude. *)
Definition sample_x_incomplete : valuation :=
  assign (assign (assign (assign empty
    "J1713+0747_log10_A" (-14)%R) "J1713+0747_gamma" 3%R)
    "B1855+09_log10_A" (-14)%R) "B1855+09_gamma" 3%R.

(** The values both series hold under [sample_x]. *)
Definition sample_values : list R := [1.1; -14; 3; -15; 4.33]%R.

Lemma sample_registry :
  params sample_pta =
  [ ("J1713+0747_log10_A", LinearExp (-20) (-12));
    ("J1713+0747_gamma", Uniform 0 7);
    ("log10_A_gw", LinearExp (-18) (-12));
    ("B1855+09_log10_A", LinearExp (-20) (-12));
    ("B1855+09_gamma", Uniform 0 7) ].
Proof. reflexivity. Qed.

Lemma sample_holds (rs : list ref) :
  rs = [0; 1; 2; 3; 4]%nat \/ rs = [5; 6; 7; 3; 4]%nat ->
  holds sample_objects sample_defaults sample_x rs sample_values.
Proof.
  intros [->| ->]; repeat constructor.
Qed.

(** The sample covariances factorise whenever the EFAC is not zero. *)
Lemma sample_series_factorizable (rs : list ref) (vals : list R) :
  nth 0 vals 1%R <> 0%R ->
  Mx.factorizable (series_sigma (sample_series rs) vals).
Proof.
  intros Hefac. unfold series_sigma, sample_series.
  cbn [basis get_phi get_ndiag nbasis nobs].
  assert (Hphi : (0 < Rpower 10 (2 * nth 1 vals 0)
                      + Rpower 10 (2 * nth 3 vals 0))%R).
  { unfold Rpower. apply Rplus_lt_0_compat; apply exp_pos. }
  assert (Hn : (0 < nth 0 vals 1 * nth 0 vals 1)%R).
  { destruct (Rtotal_order (nth 0 vals 1%R) 0) as [H|[H|H]];
      [|contradiction|]; nra. }
  apply MatrixFacts.factorizable_Sigma;
    first [ exact (proj1 (MatrixFacts.scaled_identity_covariance 1 Hn))
          | exact (proj2 (MatrixFacts.scaled_identity_covariance 1 Hn))
          | exact (proj1 (MatrixFacts.scaled_identity_covariance 1 Hphi))
          | exact (proj2 (MatrixFacts.scaled_identity_covariance 1 Hphi)) ].
Qed.

Lemma get_lnprior_spec_witness :
  exists v,
    get_lnprior sample_pta sample_x = Returned v /\
    (v = NegInf <-> some_out_of_support (params sample_pta) sample_x) /\
    (~ some_out_of_support (params sample_pta) sample_x ->
     v = Fin (sum_log_pdf (params sample_pta) sample_x)).
Proof.
  apply (@get_lnprior_spec sample_pta sample_x).
  rewrite sample_registry. intros k p H. simpl in H.
  repeat (destruct H as [H|H]; [inversion H; subst; vm_compute; discriminate|]).
  destruct H.
Defined.

Lemma get_lnlikelihood_missing_witness :
  snd (get_lnlikelihood 1e-6
         (set_default_params sample_pta sample_defaults) sample_x_incomplete)
    = Raised MissingParameterError /\
  fst (get_lnlikelihood 1e-6
         (set_default_params sample_pta sample_defaults) sample_x_incomplete)
    = 0%nat /\
  exists v,
    get_lnlikelihood 1e-6
      (set_default_params sample_pta sample_defaults) sample_x =
    (2%nat, Returned v).
Proof.
  destruct (@get_lnlikelihood_missing 1e-6 sample_pta sample_defaults
              sample_x_incomplete) as (Hiff & Hzero & _).
  destruct (@get_lnlikelihood_missing 1e-6 sample_pta sample_defaults
              sample_x) as (_ & _ & _ & _ & Hret).
  assert (H : snd (get_lnlikelihood 1e-6
                     (set_default_params sample_pta sample_defaults)
                     sample_x_incomplete) = Raised MissingParameterError).
  { apply Hiff. exists sample_J1713, 3%nat. cbn. auto 10. }
  split; [exact H|]. split; [exact (Hzero H)|].
  apply Hret.
  - intros sc r Hsc Hr. cbn in Hsc.
    destruct Hsc as [<-|[<-|[]]]; cbn in Hr;
      repeat (destruct Hr as [<-|Hr]; [cbn; try discriminate; tauto|]);
      destruct Hr.
  - intros sc vals Hsc Hvals. cbn in Hsc.
    destruct Hsc as [<-|[<-|[]]]; cbn in Hvals; inversion Hvals; subst vals;
      apply sample_series_factorizable; cbn [nth]; lra.
Defined.

(** A series whose prior covariance is minus the identity: its Sigma is
    not positive definite, nor is it after a regularisation of at most 1,
    and the call fails after the retry. *)
Definition defective_series : SignalCollection :=
  {| sc_params := [];
     nobs := 1;
     nbasis := 1;
     residuals := MatrixFacts.ones 1 1;
     basis := MatrixFacts.no_basis 1 1;
     get_phi := fun _ => MatrixFacts.negative_identity 1;
     get_ndiag := fun _ => MatrixFacts.scaled_identity 1 1%R |}.

Lemma get_lnlikelihood_not_positive_definite (jitter : R) (x : valuation) :
  (jitter <= 1)%R ->
  get_lnlikelihood jitter (mkPTA sample_objects [defective_series] empty) x =
  (2%nat, Raised NonPositiveDefiniteError).
Proof.
  intros Hj. unfold get_lnlikelihood.
  cbn [objects collections default_params resolve_each resolve_all
       sc_params defective_series bind lift bind_run fst snd sum_lnlike].
  unfold series_lnlike, bind_run.
  destruct (MatrixFacts.negative_sigma_fails
              (MatrixFacts.scaled_identity 1 1%R) Hj) as [H1 H2].
  destruct (factorize_retry_cases jitter (series_sigma defective_series []))
    as [[H _]|[(_ & H & _)|(_ & _ & ->)]].
  - exfalso. exact (H1 H).
  - exfalso. exact (H2 H).
  - reflexivity.
Qed.

Lemma shared_parameter_changes_witness :
  contribution 1e-6 sample_objects sample_defaults
    (assign sample_x (name (sample_objects 3%nat)) (-16)%R) sample_J1713 =
  (1%nat,
   Returned
     (lnlike_woodbury (residuals sample_J1713) (basis sample_J1713)
        (get_phi sample_J1713
           (values_after 3%nat (-16)%R (sc_params sample_J1713) sample_values))
        (get_ndiag sample_J1713
           (values_after 3%nat (-16)%R (sc_params sample_J1713) sample_values)))) /\
  contribution 1e-6 sample_objects sample_defaults
    (assign sample_x (name (sample_objects 3%nat)) (-16)%R) sample_B1855 =
  contribution 1e-6 sample_objects sample_defaults
    (assign sample_x (name (sample_objects 3%nat)) (-16)%R) sample_J1713 /\
  contribution 1e-6 sample_objects sample_defaults
    (assign sample_x (name (sample_objects 2%nat)) 4%R) sample_B1855 =
  contribution 1e-6 sample_objects sample_defaults sample_x sample_B1855.
Proof.
  destruct (@shared_parameter_changes 1e-6 sample_objects
              [sample_J1713; sample_B1855] sample_pta sample_defaults
              sample_x 3%nat (-16)%R sample_pta_built)
    as (_ & _ & Hvalue & Htwin & _);
    [cbn; auto 10|reflexivity|].
  destruct (@shared_parameter_changes 1e-6 sample_objects
              [sample_J1713; sample_B1855] sample_pta sample_defaults
              sample_x 2%nat 4%R sample_pta_built)
    as (_ & _ & _ & _ & Hframe);
    [cbn; auto 10|reflexivity|].
  split; [|split].
  - apply Hvalue.
    + left. reflexivity.
    + apply sample_holds. left. reflexivity.
    + apply sample_series_factorizable. cbn. lra.
  - apply (Htwin sample_J1713 [5; 6; 7; 3; 4]%nat).
    + left. reflexivity.
    + right. left. reflexivity.
    + repeat (constructor;
              [first [ left; split; reflexivity
                     | right; split; [discriminate|];
                       split; [discriminate|reflexivity] ]|]).
      constructor.
  - apply Hframe; [right; left; reflexivity|reflexivity].
Defined.

End EngineFacts.

(** * Facts about the string primitives *)

Module PyStrFacts.

Import PyStr.
Local Open Scope string_scope.

Lemma append_empty_r (s : string) : s ++ "" = s.
Proof. induction s as [|c s IH]; simpl; [reflexivity|rewrite IH; reflexivity]. Qed.

Lemma append_assoc (a b c : string) : (a ++ b) ++ c = a ++ b ++ c.
Proof. induction a as [|x a IH]; simpl; [reflexivity|rewrite IH; reflexivity]. Qed.

Lemma append_char (cur : string) (c : ascii) (s : string) :
  (cur ++ String c "") ++ s = cur ++ String c s.
Proof. rewrite append_assoc. reflexivity. Qed.

Lemma prefix_cons (c : ascii) (n : string) (d : ascii) (s : string) :
  String.prefix (String c n) (String d s) = true -> c = d /\ String.prefix n s = true.
Proof. simpl. destruct (ascii_dec c d); [auto|discriminate]. Qed.

Lemma prefix_head_diff (c : ascii) (n : string) (d : ascii) (s : string) :
  c <> d -> String.prefix (String c n) (String d s) = false.
Proof. intros H. simpl. destruct (ascii_dec c d); [contradiction|reflexivity]. Qed.

Lemma prefix_append (a s : string) : String.prefix a (a ++ s) = true.
Proof.
  induction a as [|c a IH]; simpl.
  - destruct s; reflexivity.
  - destruct (ascii_dec c c); [exact IH|contradiction].
Qed.

Lemma prefix_append_r (a s q : string) :
  String.prefix a s = true -> String.prefix a (s ++ q) = true.
Proof.
  revert s. induction a as [|c a IH]; intros s H.
  - destruct (s ++ q); reflexivity.
  - destruct s as [|d s]; [discriminate|].
    apply prefix_cons in H. destruct H as [-> H]. simpl.
    destruct (ascii_dec d d); [apply IH; exact H|contradiction].
Qed.

Lemma contains_append_r (x s q : string) :
  contains x s = true -> contains x (s ++ q) = true.
Proof.
  induction s as [|c s IH]; simpl; intros H.
  - rewrite orb_false_r in H. destruct x; [|discriminate].
    destruct q; reflexivity.
  - apply orb_true_iff in H. apply orb_true_iff. destruct H as [H|H].
    + left. apply (prefix_append_r _ (String c s) q H).
    + right. apply IH. exact H.
Qed.

Lemma contains_append_l (x p s : string) :
  contains x s = true -> contains x (p ++ s) = true.
Proof.
  induction p as [|c p IH]; simpl; intros H; [exact H|].
  rewrite (IH H). apply orb_true_r.
Qed.

(** A separator that does not occur leaves the string in one piece. *)
Lemma split_from_absent (sep : string) :
  forall s cur, contains sep s = false -> split_from sep 0 cur s = [cur ++ s].
Proof.
  induction s as [|c s IH]; intros cur H; simpl.
  - rewrite append_empty_r. reflexivity.
  - simpl in H. apply orb_false_iff in H. destruct H as [Hp Hc].
    simpl in Hp. rewrite Hp. rewrite (IH _ Hc), append_char. reflexivity.
Qed.

(** Dropping the rest of a matched separator. *)
Lemma split_from_skip (sep a : string) :
  forall b cur,
    split_from sep (String.length a) cur (a ++ b) = split_from sep 0 cur b.
Proof.
  induction a as [|c a IH]; intros b cur; simpl.
  - destruct b; reflexivity.
  - apply IH.
Qed.

Lemma split_from_nonempty (sep : string) :
  forall s skip cur, split_from sep skip cur s <> [].
Proof.
  induction s as [|c s IH]; intros skip cur; cbn [split_from].
  - intros H; inversion H.
  - destruct skip; [|apply IH].
    destruct (String.prefix sep (String c s)); [intros H; inversion H|apply IH].
Qed.

Lemma last_item_snoc (A : Type) (l : list A) (x : A) :
  last_item (l ++ [x])%list = Returned x.
Proof. unfold last_item. rewrite rev_app_distr. reflexivity. Qed.

Lemma last_item_returns (A : Type) (l : list A) :
  l <> [] -> exists x, last_item l = Returned x.
Proof.
  intros H. destruct (exists_last H) as (l' & x & ->).
  exists x. apply last_item_snoc.
Qed.

(** The first piece of a split starts with what was read so far. *)
Lemma split_from_head (sep : string) :
  forall s cur, exists b l, split_from sep 0 cur s = (cur ++ b) :: l.
Proof.
  induction s as [|c s IH]; intros cur; cbn [split_from].
  - exists "", []. rewrite append_empty_r. reflexivity.
  - destruct (String.prefix sep (String c s)).
    + exists "". eexists. rewrite append_empty_r. reflexivity.
    + destruct (IH (cur ++ String c "")) as (b & l & ->).
      exists (String c b), l. rewrite append_char. reflexivity.
Qed.

(** After the last occurrence of a one-character separator. *)
Lemma split_char_last (c : ascii) (base : string) :
  contains (String c "") base = false ->
  forall dir cur, exists l,
    split_from (String c "") 0 cur (dir ++ String c base) = (l ++ [base])%list.
Proof.
  intros Hbase.
  assert (Hhit : forall s, String.prefix (String c "") (String c s) = true).
  { intros s. simpl. destruct (ascii_dec c c); [|contradiction].
    destruct s; reflexivity. }
  induction dir as [|d dir IH]; intros cur; cbn [append split_from].
  - rewrite Hhit. change (String.length (String c "") - 1) with 0.
    rewrite split_from_absent by exact Hbase. exists [cur]. reflexivity.
  - destruct (String.prefix (String c "") (String d (dir ++ String c base))).
    + change (String.length (String c "") - 1) with 0.
      destruct (IH "") as (l & ->). exists (cur :: l). reflexivity.
    + apply IH.
Qed.

(** Before the first occurrence of a separator whose first character does
    not occur earlier. *)
Lemma split_first_piece (c : ascii) (tail rest : string) :
  forall name cur,
    contains (String c "") name = false ->
    exists l,
      split_from (String c tail) 0 cur (name ++ String c (tail ++ rest)) =
      (cur ++ name) :: l.
Proof.
  induction name as [|d name IH]; intros cur H; cbn [append split_from].
  - change (String c (tail ++ rest)) with (String c tail ++ rest).
    rewrite prefix_append, append_empty_r. eexists. reflexivity.
  - simpl in H. apply orb_false_iff in H. destruct H as [Hd Hn].
    destruct (ascii_dec c d) as [->|Hcd].
    { destruct (ascii_dec d d); [|contradiction].
      destruct name; discriminate. }
    rewrite (prefix_head_diff _ _ Hcd).
    destruct (IH (cur ++ String d "") Hn) as (l & ->).
    exists l. rewrite append_char. reflexivity.
Qed.

End PyStrFacts.

(** * Facts about the names taken from file paths *)

Module PathFacts.

Import PyStr NoiseFile DataPrep PyStrFacts.
Local Open Scope string_scope.

Lemma contains_char_append (c : ascii) (a b : string) :
  contains (String c "") (a ++ b) =
  contains (String c "") a || contains (String c "") b.
Proof.
  induction a as [|d a IH].
  - simpl. reflexivity.
  - cbn [append contains]. rewrite IH.
    assert (E : forall s t, String.prefix (String c "") (String d s) =
                            String.prefix (String c "") (String d t)).
    { intros s t. simpl. destruct (ascii_dec c d); [|reflexivity].
      destruct s, t; reflexivity. }
    rewrite (E (a ++ b) a). apply orb_assoc.
Qed.

Lemma item_head (A : Type) (x : A) (l : list A) : item (x :: l) 0 = Returned x.
Proof. reflexivity. Qed.

(** X1: for a path [dir/name_noise.txt] whose pulsar name holds neither a
    slash nor an underscore, the reader's [psrname] is the name; and for
    every file [dir/name_rest] of that pulsar (par, tim or noise file) the
    key the file lists are filtered by is the same name. *)
Theorem names_of_well_formed_paths (dir name : string) :
  contains "/" name = false ->
  contains "_" name = false ->
  psrname_of (dir ++ "/" ++ name ++ "_noise.txt") = Returned name /\
  (forall rest, contains "/" rest = false ->
     pulsar_of (dir ++ "/" ++ name ++ "_" ++ rest) = Returned name).
Proof.
  intros Hslash Hunder.
  assert (Hbase : forall rest, contains "/" rest = false ->
            last_item (split "/" (dir ++ "/" ++ name ++ "_" ++ rest)) =
            Returned (name ++ "_" ++ rest)).
  { intros rest Hrest. unfold split.
    destruct (@split_char_last "/"%char (name ++ "_" ++ rest)) with
      (dir := dir) (cur := "") as (l & Hl).
    - rewrite contains_char_append, Hslash. simpl contains at 1.
      cbn [append]. cbn [contains]. rewrite Hrest.
      destruct rest; reflexivity.
    - cbn [append] in *. rewrite Hl. apply last_item_snoc. }
  split.
  - unfold psrname_of.
    pose proof (Hbase "noise.txt" eq_refl) as H.
    cbn [append] in H |- *. rewrite H. cbn [bind]. unfold split.
    destruct (@split_first_piece "_"%char "noise.txt" "" name "" Hunder)
      as (l & Hl).
    cbn [append] in *. rewrite Hl. reflexivity.
  - intros rest Hrest. unfold pulsar_of.
    pose proof (Hbase rest Hrest) as H.
    cbn [append] in H |- *. rewrite H. cbn [bind]. unfold split.
    destruct (@split_first_piece "_"%char "" rest name "" Hunder) as (l & Hl).
    cbn [append] in *. rewrite Hl. reflexivity.
Qed.

Lemma names_of_well_formed_paths_witness :
  psrname_of ("ng9" ++ "/" ++ "B1855+09" ++ "_noise.txt") =
    Returned "B1855+09" /\
  (forall rest, contains "/" rest = false ->
     pulsar_of ("ng9" ++ "/" ++ "B1855+09" ++ "_" ++ rest) =
     Returned "B1855+09").
Proof.
  apply (@names_of_well_formed_paths "ng9" "B1855+09"); reflexivity.
Defined.

(** The first pieces at an underscore and at [_noise.txt]. *)
Lemma first_pieces_prefix :
  forall s cur, exists a b la lb,
    split_from "_" 0 cur s = (cur ++ a) :: la /\
    split_from "_noise.txt" 0 cur s = (cur ++ b) :: lb /\
    String.prefix a b = true.
Proof.
  induction s as [|c s IH]; intros cur.
  - exists "", "", [], []. cbn [split_from]. rewrite append_empty_r. auto.
  - cbn [split_from].
    destruct (ascii_dec "_"%char c) as [<-|Hc].
    + assert (H1 : String.prefix "_" (String "_" s) = true).
      { simpl. destruct s; reflexivity. }
      rewrite H1.
      destruct (String.prefix "_noise.txt" (String "_" s)).
      * exists "", "". do 2 eexists. rewrite append_empty_r. auto.
      * destruct (split_from_head "_noise.txt" s (cur ++ "_")) as (b & l & ->).
        exists "", (String "_" b). do 2 eexists.
        rewrite append_empty_r, append_char. auto.
    + rewrite (prefix_head_diff "" s Hc).
      rewrite (prefix_head_diff "noise.txt" s Hc).
      destruct (IH (cur ++ String c "")) as (a & b & la & lb & -> & -> & Hp).
      exists (String c a), (String c b), la, lb.
      rewrite !append_char. repeat split.
      simpl. destruct (ascii_dec c c); [exact Hp|contradiction].
Qed.

(** X2: for every path, neither name extraction raises, and the key the
    files are filtered by is a prefix of the reader's [psrname]. *)
Theorem filter_key_prefix_of_psrname (x : string) :
  exists key name,
    pulsar_of x = Returned key /\
    psrname_of x = Returned name /\
    String.prefix key name = true.
Proof.
  unfold pulsar_of, psrname_of.
  destruct (last_item_returns (@split_from_nonempty "/" x 0 "")) as (base & Hb).
  unfold split at 1 3. rewrite Hb. cbn [bind]. unfold split.
  destruct (first_pieces_prefix base "") as (a & b & la & lb & Ha & Hb' & Hp).
  rewrite Ha, Hb'. exists a, b. auto.
Qed.


End PathFacts.

(** * More facts about the noise-file reader *)

Module NoiseFileMore.

Import PyStr NoiseFile NoiseDict PyStrFacts NoiseFileFacts.
Local Open Scope string_scope.

(** ** Tokens *)

Lemma words_from_pending (s : string) :
  forall cur, cur <> "" -> words_from cur s <> [].
Proof.
  induction s as [|c s IH]; intros cur Hcur; cbn [words_from].
  - destruct cur; [contradiction|intros H; inversion H].
  - destruct (is_space c).
    + destruct cur; [contradiction|intros H; inversion H].
    + apply IH. destruct cur; intros H; inversion H.
Qed.

(** A line that holds a word starting with a non-blank has a token. *)
Lemma words_from_contains (c : ascii) (n : string) :
  is_space c = false ->
  forall s cur, contains (String c n) s = true -> words_from cur s <> [].
Proof.
  intros Hc. induction s as [|d s IH]; intros cur H.
  - simpl in H. discriminate.
  - cbn [contains] in H. apply orb_true_iff in H. destruct H as [H|H].
    + apply prefix_cons in H. destruct H as [<- _].
      cbn [words_from]. rewrite Hc. apply words_from_pending.
      destruct cur; intros E; inversion E.
    + cbn [words_from]. destruct (is_space d).
      * destruct cur; [apply IH; exact H|intros E; inversion E].
      * apply IH. exact H.
Qed.

(** Every token is a piece of the line. *)
Lemma words_from_substring (w : string) :
  forall s cur, In w (words_from cur s) ->
    exists p q, cur ++ s = p ++ w ++ q.
Proof.
  induction s as [|c s IH]; intros cur Hin; cbn [words_from] in Hin.
  - destruct cur; [destruct Hin|].
    destruct Hin as [<-|[]]. exists "", "".
    rewrite !append_empty_r. reflexivity.
  - destruct (is_space c).
    + destruct cur as [|a cur].
      * destruct (IH "" Hin) as (p & q & E). cbn [append] in E.
        exists (String c p), q. cbn [append]. rewrite E. reflexivity.
      * destruct Hin as [<-|Hin].
        -- exists "", (String c s). reflexivity.
        -- destruct (IH "" Hin) as (p & q & E). cbn [append] in E.
           exists (String a cur ++ String c p), q.
           rewrite E, !append_assoc. reflexivity.
    + destruct (IH _ Hin) as (p & q & E).
      exists p, q. rewrite <- E, append_char. reflexivity.
Qed.

Lemma word_contains (x w line : string) :
  In w (words line) -> contains x w = true -> contains x line = true.
Proof.
  intros Hin Hx. destruct (words_from_substring _ _ _ Hin) as (p & q & E).
  cbn [append] in E. rewrite E.
  apply contains_append_l, contains_append_r. exact Hx.
Qed.

(** ** Classification never raises *)

Lemma flag_of_returns (sep w : string) :
  exists flag, last_item (split sep w) = Returned flag.
Proof. apply last_item_returns. apply split_from_nonempty. Qed.

Lemma first_word_returns (c : ascii) (n line : string) :
  is_space c = false -> contains (String c n) line = true ->
  exists w, item (words line) 0 = Returned w.
Proof.
  intros Hc H. unfold words.
  destruct (words_from "" line) as [|w l] eqn:E.
  - exfalso. exact (@words_from_contains c n Hc line "" H E).
  - exists w. reflexivity.
Qed.

Lemma classify_total (line : string) :
  exists c, classify line (words line) = Returned c /\
            (recognised line = true -> c <> None).
Proof.
  unfold classify, recognised.
  destruct (contains "efac" line) eqn:H1.
  { destruct (@first_word_returns "e"%char "fac" line eq_refl H1) as (w & ->).
    destruct (flag_of_returns "efac-" w) as (f & Hf).
    cbn [bind]. rewrite Hf. eexists. split; [reflexivity|discriminate]. }
  destruct (contains "equad" line) eqn:H2.
  { destruct (@first_word_returns "e"%char "quad" line eq_refl H2) as (w & ->).
    destruct (flag_of_returns "equad-" w) as (f & Hf).
    cbn [bind]. rewrite Hf. eexists. split; [reflexivity|discriminate]. }
  destruct (contains "jitter_q" line) eqn:H3.
  { destruct (@first_word_returns "j"%char "itter_q" line eq_refl H3) as (w & ->).
    destruct (flag_of_returns "jitter_q-" w) as (f & Hf).
    cbn [bind]. rewrite Hf. eexists. split; [reflexivity|discriminate]. }
  destruct (contains "RN-Amplitude" line) eqn:H4.
  { eexists. split; [reflexivity|discriminate]. }
  destruct (contains "RN-spectral-index" line) eqn:H5.
  { eexists. split; [reflexivity|discriminate]. }
  eexists. split; [reflexivity|]. simpl. discriminate.
Qed.

Lemma classify_recognised (line : string) :
  recognised line = true ->
  exists par flag, classify line (words line) = Returned (Some (par, flag)).
Proof.
  intros H. destruct (classify_total line) as ([[par flag]|] & Hc & Hr).
  - exists par, flag. exact Hc.
  - exfalso. apply (Hr H). reflexivity.
Qed.

Lemma psrname_of_returns (noisefile : string) :
  exists psr, psrname_of noisefile = Returned psr.
Proof.
  unfold psrname_of.
  destruct (flag_of_returns "/" noisefile) as (base & ->). cbn [bind].
  unfold split. destruct (split_from_head "_noise.txt" base "") as (b & l & ->).
  eexists. reflexivity.
Qed.

(** ** The dictionary *)

Section Dictionary.

Variable V : Type.

Lemma dict_get_update_same (k : string) (v : V) (d : list (string * V)) :
  dict_get k (dict_update k v d) = Some v.
Proof.
  induction d as [|[k' v'] d IH]; cbn [dict_update dict_get].
  - rewrite String.eqb_refl. reflexivity.
  - destruct (String.eqb k k') eqn:E; cbn [dict_get].
    + rewrite String.eqb_refl. reflexivity.
    + rewrite E. exact IH.
Qed.

Lemma dict_get_update_other (k k0 : string) (v : V) (d : list (string * V)) :
  k0 <> k -> dict_get k0 (dict_update k v d) = dict_get k0 d.
Proof.
  intros Hne. induction d as [|[k' v'] d IH]; cbn [dict_update dict_get].
  - apply String.eqb_neq in Hne. rewrite Hne. reflexivity.
  - destruct (String.eqb k k') eqn:E; cbn [dict_get].
    + apply String.eqb_eq in E. subst k'.
      apply String.eqb_neq in Hne. rewrite Hne. reflexivity.
    + rewrite IH. reflexivity.
Qed.

Lemma keys_update_in (k : string) (v : V) (d : list (string * V)) (k0 : string) :
  In k0 (keys (dict_update k v d)) <-> k0 = k \/ In k0 (keys d).
Proof.
  induction d as [|[k' v'] d IH]; cbn [dict_update keys map fst In].
  - intuition.
  - destruct (String.eqb k k') eqn:E; cbn [keys map fst In].
    + apply String.eqb_eq in E. subst k'. intuition.
    + fold (keys (dict_update k v d)). fold (keys d). rewrite IH. intuition.
Qed.

Lemma dict_update_nodup (k : string) (v : V) (d : list (string * V)) :
  NoDup (keys d) -> NoDup (keys (dict_update k v d)).
Proof.
  induction d as [|[k' v'] d IH]; cbn [dict_update keys map fst]; intros H.
  - constructor; [intros []|constructor].
  - inversion H as [|? ? Hnin Hd]; subst.
    destruct (String.eqb k k') eqn:E; cbn [keys map fst].
    + apply String.eqb_eq in E. subst k'. constructor; assumption.
    + constructor; [|apply IH; exact Hd].
      fold (keys (dict_update k v d)). rewrite keys_update_in.
      intros [->|Hin]; [|exact (Hnin Hin)].
      rewrite String.eqb_refl in E. discriminate.
Qed.

Lemma dict_update_length (k : string) (v : V) (d : list (string * V)) :
  List.length (dict_update k v d) <= S (List.length d).
Proof.
  induction d as [|[k' v'] d IH]; cbn [dict_update List.length]; [lia|].
  destruct (String.eqb k k'); cbn [List.length]; lia.
Qed.

End Dictionary.

(** ** The loop *)

(** The lines the loop reaches: those before the first unrecognised one. *)
Fixpoint processed (lines : list string) : list string :=
  match lines with
  | [] => []
  | line :: rest => if recognised line then line :: processed rest else []
  end.

Section Reader.

Variable V : Type.
Variable float : string -> option V.

(** The line has a second token and [float] accepts it. *)
Definition has_value (line : string) : Prop :=
  exists w v, nth_error (words line) 1 = Some w /\ float w = Some v.

Lemma read_lines_returns (psr : string) (lines : list string) :
  forall params,
    (exists d, read_lines float psr lines params = Returned d) <->
    Forall has_value (processed lines).
Proof.
  induction lines as [|line rest IH]; intros params; cbn [read_lines processed].
  - split; [constructor|]. intros _. eexists. reflexivity.
  - destruct (recognised line) eqn:Hr.
    + destruct (classify_recognised _ Hr) as (par & flag & ->). cbn [bind].
      unfold item, to_float.
      destruct (nth_error (words line) 1) as [w|] eqn:Hw; cbn [bind].
      * destruct (float w) as [v|] eqn:Hv; cbn [bind].
        -- rewrite IH. split.
           ++ intros H. constructor; [exists w, v; auto|exact H].
           ++ intros H. inversion H. assumption.
        -- split; [intros (d & Hd); discriminate|].
           intros H. inversion H as [|? ? (w' & v' & Hw' & Hv') _]; subst.
           rewrite Hw in Hw'. inversion Hw'; subst. congruence.
      * split; [intros (d & Hd); discriminate|].
        intros H. inversion H as [|? ? (w' & v' & Hw' & Hv') _]; subst.
        congruence.
    + rewrite (classify_unrecognised line (words line) Hr). cbn [bind].
      split; [constructor|]. intros _. eexists. reflexivity.
Qed.

(** X3: [get_noise_from_pal2] returns a mapping exactly when every line
    before the first unrecognised one has a second token that [float]
    accepts; the path never matters. *)
Theorem get_noise_returns_iff (noisefile : string) (lines : list string) :
  (exists d, get_noise_from_pal2 float noisefile lines = Returned d) <->
  Forall has_value (processed lines).
Proof.
  unfold get_noise_from_pal2.
  destruct (psrname_of_returns noisefile) as (psr & ->). cbn [bind].
  apply read_lines_returns.
Qed.

Lemma read_lines_raises (psr : string) (lines : list string) :
  forall params e,
    read_lines float psr lines params = Raised e ->
    exists line,
      In line (processed lines) /\
      ((e = IndexError /\ nth_error (words line) 1 = None) \/
       (e = ValueError /\
        exists w, nth_error (words line) 1 = Some w /\ float w = None)).
Proof.
  induction lines as [|line rest IH]; intros params e;
    cbn [read_lines processed]; [discriminate|].
  destruct (recognised line) eqn:Hr.
  - destruct (classify_recognised _ Hr) as (par & flag & ->). cbn [bind].
    unfold item, to_float.
    destruct (nth_error (words line) 1) as [w|] eqn:Hw; cbn [bind].
    + destruct (float w) as [v|] eqn:Hv; cbn [bind].
      * intros H. destruct (IH _ _ H) as (l & Hl & Hcase).
        exists l. split; [right; exact Hl|exact Hcase].
      * intros H. inversion H; subst. exists line. split; [left; reflexivity|].
        right. split; [reflexivity|]. exists w. auto.
    + intros H. inversion H; subst. exists line. split; [left; reflexivity|].
      left. auto.
  - rewrite (classify_unrecognised line (words line) Hr). cbn [bind].
    discriminate.
Qed.

(** X4: called on a path, the reader raises IOError exactly when the file
    cannot be opened; every other exception comes from a recognised line
    of the file that the loop reached: IndexError when the line has no
    second token, ValueError when [float] refuses the second token. *)
Theorem get_noise_raises (fs : OnDisk.filesystem) (noisefile : string) :
  (OnDisk.get_noise_from_pal2 float fs noisefile = Raised IOError <->
   fs noisefile = None) /\
  (forall e lines,
     fs noisefile = Some lines ->
     OnDisk.get_noise_from_pal2 float fs noisefile = Raised e ->
     exists line,
       In line (processed lines) /\
       ((e = IndexError /\ nth_error (words line) 1 = None) \/
        (e = ValueError /\
         exists w, nth_error (words line) 1 = Some w /\ float w = None))).
Proof.
  unfold OnDisk.get_noise_from_pal2, OnDisk.readlines.
  destruct (psrname_of_returns noisefile) as (psr & ->). cbn [bind].
  destruct (fs noisefile) as [lines|]; cbn [bind].
  - split.
    + split; [|discriminate]. intros H.
      destruct (read_lines_raises psr lines [] H)
        as (line & _ & [[E _]|[E _]]); discriminate.
    + intros e lines' Hl H. inversion Hl; subst lines'.
      exact (read_lines_raises psr lines [] H).
  - split; [split; reflexivity|]. intros e lines Hl. discriminate.
Qed.

Lemma read_lines_invariant (psr : string) (lines : list string) :
  forall params d,
    read_lines float psr lines params = Returned d ->
    (NoDup (keys params) -> NoDup (keys d)) /\
    List.length d <= List.length params + List.length (processed lines).
Proof.
  induction lines as [|line rest IH]; intros params d;
    cbn [read_lines processed].
  - intros H. inversion H; subst. split; [auto|lia].
  - destruct (recognised line) eqn:Hr.
    + destruct (classify_recognised _ Hr) as (par & flag & ->). cbn [bind].
      destruct (item (words line) 1) as [w|]; cbn [bind]; [|discriminate].
      destruct (to_float float w) as [v|]; cbn [bind]; [|discriminate].
      intros H. destruct (IH _ _ H) as [Hnd Hlen]. split.
      * intros Hp. apply Hnd. apply dict_update_nodup. exact Hp.
      * assert (Hu := dict_update_length (pname_of psr par flag) v params).
        cbn [List.length]. lia.
    + rewrite (classify_unrecognised line (words line) Hr). cbn [bind].
      intros H. inversion H; subst. split; [auto|cbn [List.length]; lia].
Qed.

(** X5: the mapping the reader returns has no key twice and no more
    entries than lines were processed. *)
Theorem get_noise_mapping_invariant (noisefile : string) (lines : list string)
  (d : list (string * V)) :
  get_noise_from_pal2 float noisefile lines = Returned d ->
  NoDup (keys d) /\
  List.length d <= List.length (processed lines) /\
  List.length (processed lines) <= List.length lines.
Proof.
  unfold get_noise_from_pal2.
  destruct (psrname_of_returns noisefile) as (psr & ->). cbn [bind].
  intros H. destruct (read_lines_invariant _ _ _ H) as [Hnd Hlen].
  split; [apply Hnd; constructor|]. split; [exact Hlen|].
  clear. induction lines as [|l r IH]; cbn [processed List.length]; [lia|].
  destruct (recognised l); cbn [List.length]; lia.
Qed.

Lemma read_lines_app (psr : string) (pre more : list string) :
  forallb recognised pre = true ->
  forall params,
    read_lines float psr (pre ++ more) params =
    (d <- read_lines float psr pre params ;; read_lines float psr more d).
Proof.
  induction pre as [|line pre IH]; cbn [forallb app read_lines]; intros Hall params.
  - reflexivity.
  - apply andb_true_iff in Hall. destruct Hall as [Hr Hall].
    destruct (classify_recognised _ Hr) as (par & flag & ->). cbn [bind].
    destruct (item (words line) 1) as [w|]; cbn [bind]; [|reflexivity].
    destruct (to_float float w) as [v|]; cbn [bind]; [|reflexivity].
    apply IH. exact Hall.
Qed.

(** X6: a further line of the same key overrides the value read before and
    leaves the other keys alone: after a run of recognised lines [pre] that
    gave the mapping [d], a line classified as [(par, flag)] with value [v]
    gives a mapping where its key maps to [v] and every other key maps as
    in [d]. *)
Theorem get_noise_later_line_wins (noisefile psr : string)
  (pre : list string) (line par flag w : string) (v : V)
  (d : list (string * V)) :
  psrname_of noisefile = Returned psr ->
  forallb recognised pre = true ->
  get_noise_from_pal2 float noisefile pre = Returned d ->
  classify line (words line) = Returned (Some (par, flag)) ->
  nth_error (words line) 1 = Some w ->
  float w = Some v ->
  exists d',
    get_noise_from_pal2 float noisefile (pre ++ [line]) = Returned d' /\
    dict_get (pname_of psr par flag) d' = Some v /\
    (forall k, k <> pname_of psr par flag -> dict_get k d' = dict_get k d).
Proof.
  unfold get_noise_from_pal2. intros -> Hall. cbn [bind]. intros Hd Hc Hw Hv.
  rewrite read_lines_app by exact Hall. rewrite Hd. cbn [bind read_lines].
  rewrite Hc. cbn [bind]. unfold item, to_float. rewrite Hw. cbn [bind].
  rewrite Hv. cbn [bind].
  eexists. split; [reflexivity|]. split.
  - apply dict_get_update_same.
  - intros k Hk. apply dict_get_update_other. exact Hk.
Qed.

(** ** The PAL2 layout [tag-backend value] *)

Lemma flag_after_tag (c : ascii) (t flag : string) :
  contains (String c t) flag = false ->
  last_item (split (String c t) (String c t ++ flag)) = Returned flag.
Proof.
  intros H. unfold split. cbn [append split_from].
  change (String c (t ++ flag)) with (String c t ++ flag).
  rewrite prefix_append.
  change (String.length (String c t) - 1) with (String.length t - 0).
  rewrite Nat.sub_0_r, split_from_skip.
  rewrite split_from_absent by exact H.
  reflexivity.
Qed.

Lemma tagged_word_in_line (tag flag tok line : string) (more : list string) :
  words line = (tag ++ flag) :: tok :: more ->
  forall x, contains x tag = true -> contains x line = true.
Proof.
  intros Hw x Hx. apply (@word_contains x (tag ++ flag) line).
  - rewrite Hw. left. reflexivity.
  - apply contains_append_r. exact Hx.
Qed.

(** X7: a line in the PAL2 layout, [efac-<backend> <value>] (likewise
    [equad-] and [jitter_q-] when no earlier test of the chain fires), whose
    backend does not repeat the tag, is stored under the key built from the
    pulsar, that backend and the quantity. *)
Theorem pal2_line_is_stored (psr line flag tok : string) (more rest : list string)
  (v : V) (params : list (string * V)) :
  float tok = Some v ->
  (words line = ("efac-" ++ flag) :: tok :: more ->
   contains "efac-" flag = false ->
   read_lines float psr (line :: rest) params =
   read_lines float psr rest
     (dict_update (key_convention psr (subset_of_flag flag) "efac") v params)) /\
  (words line = ("equad-" ++ flag) :: tok :: more ->
   contains "efac" line = false ->
   contains "equad-" flag = false ->
   read_lines float psr (line :: rest) params =
   read_lines float psr rest
     (dict_update (key_convention psr (subset_of_flag flag) "log10_equad") v
        params)) /\
  (words line = ("jitter_q-" ++ flag) :: tok :: more ->
   contains "efac" line = false ->
   contains "equad" line = false ->
   contains "jitter_q-" flag = false ->
   read_lines float psr (line :: rest) params =
   read_lines float psr rest
     (dict_update (key_convention psr (subset_of_flag flag) "log10_ecorr") v
        params)).
Proof.
  intros Hv. split; [|split].
  - intros Hw Hflag. cbn [read_lines]. unfold classify.
    rewrite (@tagged_word_in_line "efac-" flag tok line more Hw "efac" eq_refl).
    rewrite Hw. cbn [item nth_error bind].
    rewrite (@flag_after_tag "e"%char "fac-" flag Hflag). cbn [bind].
    unfold to_float. rewrite Hv. cbn [bind].
    rewrite pname_of_convention. reflexivity.
  - intros Hw H1 Hflag. cbn [read_lines]. unfold classify. rewrite H1.
    rewrite (@tagged_word_in_line "equad-" flag tok line more Hw "equad" eq_refl).
    rewrite Hw. cbn [item nth_error bind].
    rewrite (@flag_after_tag "e"%char "quad-" flag Hflag). cbn [bind].
    unfold to_float. rewrite Hv. cbn [bind].
    rewrite pname_of_convention. reflexivity.
  - intros Hw H1 H2 Hflag. cbn [read_lines]. unfold classify. rewrite H1, H2.
    rewrite (@tagged_word_in_line "jitter_q-" flag tok line more Hw "jitter_q" eq_refl).
    rewrite Hw. cbn [item nth_error bind].
    rewrite (@flag_after_tag "j"%char "itter_q-" flag Hflag). cbn [bind].
    unfold to_float. rewrite Hv. cbn [bind].
    rewrite pname_of_convention. reflexivity.
Qed.

End Reader.

(** A file whose second line lacks its value. *)
Definition truncated_lines : list string :=
  ["efac-430_ASP 1.1" ++ nl; "equad-430_ASP" ++ nl].

(** A directory with one noise file, cut off after a tag. *)
Definition sample_fs : OnDisk.filesystem :=
  fun path =>
    if String.eqb path "ng9/B1855+09_noise.txt"
    then Some truncated_lines
    else None.

Lemma get_noise_raises_witness :
  OnDisk.get_noise_from_pal2 sample_float sample_fs "ng9/J1713+0747_noise.txt"
    = Raised IOError /\
  exists line,
    In line (processed truncated_lines) /\
    ((IndexError = IndexError /\ nth_error (words line) 1 = None) \/
     (IndexError = ValueError /\
      exists w, nth_error (words line) 1 = Some w /\ sample_float w = None)).
Proof.
  split.
  - apply (proj1 (@get_noise_raises string sample_float sample_fs
                    "ng9/J1713+0747_noise.txt")).
    reflexivity.
  - apply (proj2 (@get_noise_raises string sample_float sample_fs
                    "ng9/B1855+09_noise.txt") IndexError truncated_lines).
    + reflexivity.
    + vm_compute. reflexivity.
Defined.

Lemma get_noise_mapping_invariant_witness :
  NoDup (keys [("B1855+09_430_ASP_efac", "1.1");
               ("B1855+09_430_ASP_log10_equad", "-6.5");
               ("B1855+09_log10_A", "-14.2")]) /\
  3 <= List.length (processed sample_lines) /\
  List.length (processed sample_lines) <= List.length sample_lines.
Proof.
  apply (@get_noise_mapping_invariant string sample_float
           "ng9/B1855+09_noise.txt" sample_lines).
  vm_compute. reflexivity.
Defined.

Lemma get_noise_later_line_wins_witness :
  exists d',
    get_noise_from_pal2 sample_float "ng9/B1855+09_noise.txt"
      (sample_lines ++ ["efac-430_ASP 2.0" ++ nl]) = Returned d' /\
    dict_get (pname_of "B1855+09" "efac" "430_ASP") d' = Some "2.0" /\
    (forall k, k <> pname_of "B1855+09" "efac" "430_ASP" ->
       dict_get k d' =
       dict_get k [("B1855+09_430_ASP_efac", "1.1");
                   ("B1855+09_430_ASP_log10_equad", "-6.5");
                   ("B1855+09_log10_A", "-14.2")]).
Proof.
  apply (@get_noise_later_line_wins string sample_float
           "ng9/B1855+09_noise.txt" "B1855+09" sample_lines
           ("efac-430_ASP 2.0" ++ nl) "efac" "430_ASP" "2.0" "2.0");
    vm_compute; reflexivity.
Defined.

Lemma pal2_line_is_stored_witness :
  read_lines sample_float "B1855+09" ["efac-430_ASP 1.1" ++ nl] [] =
  read_lines sample_float "B1855+09" []
    (dict_update (key_convention "B1855+09" (subset_of_flag "430_ASP") "efac")
       "1.1" []).
Proof.
  apply (@pal2_line_is_stored string sample_float "B1855+09"
           ("efac-430_ASP 1.1" ++ nl) "430_ASP" "1.1" [] [] "1.1" []).
  - reflexivity.
  - vm_compute. reflexivity.
  - reflexivity.
Defined.

End NoiseFileMore.

(** * Facts about the file selection and the collected noise values *)

Module DataPrepFacts.

Import PyStr NoiseFile NoiseDict DataPrep.
Import PyStrFacts PathFacts NoiseFileFacts NoiseFileMore.
Local Open Scope string_scope.




(** ** Collecting the mappings of several files *)

Section Collect.

Variable V : Type.
Variable float : string -> option V.

Lemma dict_merge_cons (d : list (string * V)) (k : string) (v : V)
  (other : list (string * V)) :
  dict_merge d ((k, v) :: other) = dict_merge (dict_update k v d) other.
Proof. reflexivity. Qed.

Lemma dict_get_absent (k : string) (d : list (string * V)) :
  ~ In k (keys d) -> dict_get k d = None.
Proof.
  induction d as [|[k' v'] d IH]; cbn [dict_get keys map fst In]; intros H.
  - reflexivity.
  - destruct (String.eqb k k') eqn:E.
    + apply String.eqb_eq in E. subst. exfalso. apply H. left. reflexivity.
    + apply IH. intros Hin. apply H. right. exact Hin.
Qed.

(** [update] with a dictionary: its entries win, the others stay. *)
Lemma dict_get_merge (other : list (string * V)) :
  NoDup (keys other) ->
  forall d k,
    dict_get k (dict_merge d other) =
    match dict_get k other with
    | Some v => Some v
    | None => dict_get k d
    end.
Proof.
  induction other as [|[k1 v1] other IH]; intros Hnd d k.
  - reflexivity.
  - cbn [keys map fst] in Hnd. inversion Hnd as [|? ? Hnin Hnd']; subst.
    rewrite dict_merge_cons, (IH Hnd'). cbn [dict_get].
    destruct (String.eqb k k1) eqn:E.
    + apply String.eqb_eq in E. subst k1.
      rewrite (dict_get_absent _ _ Hnin). apply dict_get_update_same.
    + apply String.eqb_neq in E.
      rewrite (dict_get_update_other v1 d E). reflexivity.
Qed.

Lemma keys_merge (other : list (string * V)) :
  forall d k,
    In k (keys (dict_merge d other)) <-> In k (keys d) \/ In k (keys other).
Proof.
  induction other as [|[k1 v1] other IH]; intros d k.
  - cbn [dict_merge fold_left keys map In]. tauto.
  - rewrite dict_merge_cons, IH, keys_update_in. cbn [keys map fst In].
    fold (keys other). intuition (subst; auto).
Qed.

Lemma collect_loop_app (files more : list (string * list string)) :
  forall params,
    collect_loop float (files ++ more) params =
    (p <- collect_loop float files params ;; collect_loop float more p).
Proof.
  induction files as [|[f lines] files IH]; intros params;
    cbn [app collect_loop]; [reflexivity|].
  destruct (get_noise_from_pal2 float f lines); cbn [bind]; [apply IH|reflexivity].
Qed.

(** X9: reading one more file updates the collected mapping key by key: a
    key the new file defines takes the new file's value, every other key
    keeps the value collected before. *)
Theorem collect_noise_later_file_wins (files : list (string * list string))
  (f : string) (lines : list string) (p d : list (string * V)) :
  collect_noise float files = Returned p ->
  get_noise_from_pal2 float f lines = Returned d ->
  exists p',
    collect_noise float (files ++ [(f, lines)]) = Returned p' /\
    forall k,
      dict_get k p' =
      match dict_get k d with
      | Some v => Some v
      | None => dict_get k p
      end.
Proof.
  unfold collect_noise. intros Hp Hd.
  rewrite collect_loop_app, Hp. cbn [bind collect_loop]. rewrite Hd. cbn [bind].
  eexists. split; [reflexivity|].
  intros k. apply dict_get_merge.
  destruct (get_noise_mapping_invariant _ _ _ Hd) as [Hnd _]. exact Hnd.
Qed.

Lemma collect_loop_returns (files : list (string * list string)) :
  forall params,
    (exists p, collect_loop float files params = Returned p) <->
    Forall (fun fl => exists d,
              get_noise_from_pal2 float (fst fl) (snd fl) = Returned d) files.
Proof.
  induction files as [|[f lines] files IH]; intros params; cbn [collect_loop].
  - split; [constructor|]. intros _. eexists. reflexivity.
  - destruct (get_noise_from_pal2 float f lines) as [d|e] eqn:E; cbn [bind].
    + rewrite IH. split.
      * intros H. constructor; [exists d; exact E|exact H].
      * intros H. inversion H. assumption.
    + split; [intros (p & Hp); discriminate|].
      intros H. inversion H as [|? ? (d & Hd) _]; subst.
      cbn [fst snd] in Hd. congruence.
Qed.

Lemma collect_loop_keys (files : list (string * list string)) :
  forall params p,
    collect_loop float files params = Returned p ->
    forall k,
      In k (keys p) <->
      In k (keys params) \/
      exists f lines d,
        In (f, lines) files /\
        get_noise_from_pal2 float f lines = Returned d /\ In k (keys d).
Proof.
  induction files as [|[f lines] files IH]; intros params p; cbn [collect_loop].
  - intros H k. inversion H; subst. split; [auto|].
    intros [Hin|(f & lines & d & [] & _)]. exact Hin.
  - destruct (get_noise_from_pal2 float f lines) as [d|e] eqn:E; cbn [bind];
      [|discriminate].
    intros H k. rewrite (IH _ _ H k), keys_merge. split.
    + intros [[Hin|Hin]|(f' & l' & d' & Hin & Hd' & Hk)].
      * left. exact Hin.
      * right. exists f, lines, d. cbn [In]. auto.
      * right. exists f', l', d'. cbn [In]. auto.
    + intros [Hin|(f' & l' & d' & [Heq|Hin] & Hd' & Hk)].
      * left. left. exact Hin.
      * inversion Heq; subst. rewrite E in Hd'. inversion Hd'; subst.
        left. right. exact Hk.
      * right. exists f', l', d'. auto.
Qed.

(** X10: collecting returns a mapping exactly when every file reads
    without exception, and then its keys are exactly the keys of the files'
    own mappings. *)
Theorem collect_noise_keys (files : list (string * list string)) :
  ((exists p, collect_noise float files = Returned p) <->
   Forall (fun fl => exists d,
             get_noise_from_pal2 float (fst fl) (snd fl) = Returned d) files) /\
  (forall p, collect_noise float files = Returned p ->
     forall k,
       In k (keys p) <->
       exists f lines d,
         In (f, lines) files /\
         get_noise_from_pal2 float f lines = Returned d /\ In k (keys d)).
Proof.
  unfold collect_noise. split.
  - apply collect_loop_returns.
  - intros p Hp k. rewrite (collect_loop_keys _ _ Hp k). cbn [keys map In].
    tauto.
Qed.

End Collect.

Lemma collect_noise_later_file_wins_witness :
  exists p',
    collect_noise sample_float
      ([("ng9/B1855+09_noise.txt", sample_lines)] ++
       [("new/B1855+09_noise.txt", ["efac-430_ASP 2.0" ++ nl])]) =
      Returned p' /\
    forall k,
      dict_get k p' =
      match dict_get k [("B1855+09_430_ASP_efac", "2.0")] with
      | Some v => Some v
      | None =>
          dict_get k [("B1855+09_430_ASP_efac", "1.1");
                      ("B1855+09_430_ASP_log10_equad", "-6.5");
                      ("B1855+09_log10_A", "-14.2")]
      end.
Proof.
  apply (@collect_noise_later_file_wins string sample_float
           [("ng9/B1855+09_noise.txt", sample_lines)]
           "new/B1855+09_noise.txt" ["efac-430_ASP 2.0" ++ nl]);
    vm_compute; reflexivity.
Defined.

Lemma collect_noise_keys_witness :
  In "B1855+09_log10_A"
     (keys [("B1855+09_430_ASP_efac", "1.1");
            ("B1855+09_430_ASP_log10_equad", "-6.5");
            ("B1855+09_log10_A", "-14.2")]) <->
  exists f lines d,
    In (f, lines) [("ng9/B1855+09_noise.txt", sample_lines)] /\
    get_noise_from_pal2 sample_float f lines = Returned d /\
    In "B1855+09_log10_A" (keys d).
Proof.
  apply (proj2 (@collect_noise_keys string sample_float
                  [("ng9/B1855+09_noise.txt", sample_lines)])).
  vm_compute. reflexivity.
Defined.

End DataPrepFacts.

(** * Facts about the time span *)

Module TimespanFacts.

Import Timespan.

Lemma qmin_le (x y : Q) : (qmin x y <= x /\ qmin x y <= y)%Q.
Proof.
  unfold qmin. destruct (Qle_bool x y) eqn:E.
  - apply Qle_bool_iff in E. split; [apply Qle_refl|exact E].
  - split; [|apply Qle_refl].
    destruct (Qlt_le_dec y x) as [H|H]; [apply Qlt_le_weak; exact H|].
    apply Qle_bool_iff in H. congruence.
Qed.

Lemma qmax_ge (x y : Q) : (x <= qmax x y /\ y <= qmax x y)%Q.
Proof.
  unfold qmax. destruct (Qle_bool x y) eqn:E.
  - apply Qle_bool_iff in E. split; [exact E|apply Qle_refl].
  - split; [apply Qle_refl|].
    destruct (Qlt_le_dec y x) as [H|H]; [apply Qlt_le_weak; exact H|].
    apply Qle_bool_iff in H. congruence.
Qed.

Lemma qmin_pick (x y : Q) : qmin x y = x \/ qmin x y = y.
Proof. unfold qmin. destruct (Qle_bool x y); auto. Qed.

Lemma qmax_pick (x y : Q) : qmax x y = x \/ qmax x y = y.
Proof. unfold qmax. destruct (Qle_bool x y); auto. Qed.

(** The fold returns an element, below all of them. *)
Lemma fold_qmin (rest : list Q) :
  forall x,
    In (fold_left qmin rest x) (x :: rest) /\
    (forall t, In t (x :: rest) -> (fold_left qmin rest x <= t)%Q).
Proof.
  induction rest as [|y rest IH]; intros x; cbn [fold_left].
  - split; [left; reflexivity|]. intros t [<-|[]]. apply Qle_refl.
  - destruct (IH (qmin x y)) as [Hin Hle]. split.
    + destruct Hin as [Hin|Hin]; [|right; right; exact Hin].
      rewrite <- Hin. destruct (qmin_pick x y) as [->| ->];
        [left|right; left]; reflexivity.
    + assert (Hm : (fold_left qmin rest (qmin x y) <= qmin x y)%Q)
        by (apply Hle; left; reflexivity).
      destruct (qmin_le x y) as [Hx Hy].
      intros t [<-|[<-|Ht]].
      * eapply Qle_trans; eassumption.
      * eapply Qle_trans; eassumption.
      * apply Hle. right. exact Ht.
Qed.

Lemma fold_qmax (rest : list Q) :
  forall x,
    In (fold_left qmax rest x) (x :: rest) /\
    (forall t, In t (x :: rest) -> (t <= fold_left qmax rest x)%Q).
Proof.
  induction rest as [|y rest IH]; intros x; cbn [fold_left].
  - split; [left; reflexivity|]. intros t [<-|[]]. apply Qle_refl.
  - destruct (IH (qmax x y)) as [Hin Hle]. split.
    + destruct Hin as [Hin|Hin]; [|right; right; exact Hin].
      rewrite <- Hin. destruct (qmax_pick x y) as [->| ->];
        [left|right; left]; reflexivity.
    + assert (Hm : (qmax x y <= fold_left qmax rest (qmax x y))%Q)
        by (apply Hle; left; reflexivity).
      destruct (qmax_ge x y) as [Hx Hy].
      intros t [<-|[<-|Ht]].
      * eapply Qle_trans; eassumption.
      * eapply Qle_trans; eassumption.
      * apply Hle. right. exact Ht.
Qed.

Lemma array_min_spec (a : list Q) (m : Q) :
  array_min a = Returned m ->
  In m a /\ (forall t, In t a -> (m <= t)%Q).
Proof.
  destruct a as [|x rest]; cbn [array_min]; [discriminate|].
  intros H. inversion H; subst. apply fold_qmin.
Qed.

Lemma array_max_spec (a : list Q) (m : Q) :
  array_max a = Returned m ->
  In m a /\ (forall t, In t a -> (t <= m)%Q).
Proof.
  destruct a as [|x rest]; cbn [array_max]; [discriminate|].
  intros H. inversion H; subst. apply fold_qmax.
Qed.

Lemma for_each_spec (f : list Q -> result Q) (psrs : list (list Q)) :
  forall xs, for_each f psrs = Returned xs ->
    Forall2 (fun p x => f p = Returned x) psrs xs.
Proof.
  induction psrs as [|p psrs IH]; cbn [for_each]; intros xs H.
  - inversion H. constructor.
  - destruct (f p) as [x|] eqn:E; cbn [bind] in H; [|discriminate].
    destruct (for_each f psrs) as [xs'|]; cbn [bind] in H; [|discriminate].
    inversion H; subst. constructor; [exact E|apply IH; reflexivity].
Qed.

Lemma Forall2_in_l (A B : Type) (R : A -> B -> Prop) (l : list A) (l' : list B) :
  Forall2 R l l' -> forall a, In a l -> exists b, In b l' /\ R a b.
Proof.
  induction 1 as [|a0 b0 l l' H0 _ IH]; intros a; [intros []|].
  intros [<-|Hin].
  - exists b0. split; [left; reflexivity|exact H0].
  - destruct (IH a Hin) as (b & Hb & Hr). exists b. split; [right|]; assumption.
Qed.

Lemma Forall2_in_r (A B : Type) (R : A -> B -> Prop) (l : list A) (l' : list B) :
  Forall2 R l l' -> forall b, In b l' -> exists a, In a l /\ R a b.
Proof.
  induction 1 as [|a0 b0 l l' H0 _ IH]; intros b; [intros []|].
  intros [<-|Hin].
  - exists a0. split; [left; reflexivity|exact H0].
  - destruct (IH b Hin) as (a & Ha & Hr). exists a. split; [right|]; assumption.
Qed.

(** X11: when [Tspan] is computed it is a difference of two times of
    arrival of the array, and no two times of arrival, of the same or of
    different pulsars, lie further apart. *)
Theorem Tspan_is_the_largest_gap (psrs : list (list Q)) (T : Q) :
  Tspan psrs = Returned T ->
  (exists p q t_hi t_lo,
     In p psrs /\ In q psrs /\ In t_hi p /\ In t_lo q /\ T = (t_hi - t_lo)%Q) /\
  (forall p q t t',
     In p psrs -> In q psrs -> In t p -> In t' q -> (t - t' <= T)%Q).
Proof.
  unfold Tspan.
  destruct (for_each array_min psrs) as [tmin|] eqn:Emin; cbn [bind]; [|discriminate].
  destruct (for_each array_max psrs) as [tmax|] eqn:Emax; cbn [bind]; [|discriminate].
  destruct (array_max tmax) as [hi|] eqn:Ehi; cbn [bind]; [|discriminate].
  destruct (array_min tmin) as [lo|] eqn:Elo; cbn [bind]; [|discriminate].
  intros H. inversion H; subst T. clear H.
  apply for_each_spec in Emin, Emax.
  apply array_max_spec in Ehi. apply array_min_spec in Elo.
  destruct Ehi as [Hhi_in Hhi]. destruct Elo as [Hlo_in Hlo].
  split.
  - destruct (Forall2_in_r Emax _ Hhi_in) as (p & Hp & Hpm).
    destruct (Forall2_in_r Emin _ Hlo_in) as (q & Hq & Hqm).
    apply array_max_spec in Hpm. apply array_min_spec in Hqm.
    exists p, q, hi, lo. intuition.
  - intros p q t t' Hp Hq Ht Ht'.
    destruct (Forall2_in_l Emax _ Hp) as (mx & Hmx & Hpm).
    destruct (Forall2_in_l Emin _ Hq) as (mn & Hmn & Hqm).
    apply array_max_spec in Hpm. apply array_min_spec in Hqm.
    assert (H1 : (t <= mx)%Q) by (apply Hpm; exact Ht).
    assert (H2 : (mx <= hi)%Q) by (apply Hhi; exact Hmx).
    assert (H3 : (lo <= mn)%Q) by (apply Hlo; exact Hmn).
    assert (H4 : (mn <= t')%Q) by (apply Hqm; exact Ht').
    Lqa.lra.
Qed.

Lemma for_each_raises (f : list Q -> result Q) (psrs : list (list Q)) (e : exn) :
  for_each f psrs = Raised e -> exists p, In p psrs /\ f p = Raised e.
Proof.
  induction psrs as [|p psrs IH]; cbn [for_each]; [discriminate|].
  destruct (f p) as [x|e'] eqn:E; cbn [bind].
  - destruct (for_each f psrs) as [xs|e'']; cbn [bind]; [discriminate|].
    intros H. inversion H; subst. destruct (IH eq_refl) as (q & Hq & Hf).
    exists q. split; [right|]; assumption.
  - intros H. inversion H; subst. exists p. split; [left; reflexivity|exact E].
Qed.

Lemma for_each_returns (f : list Q -> result Q) (psrs : list (list Q)) :
  (forall p, In p psrs -> exists x, f p = Returned x) ->
  exists xs, for_each f psrs = Returned xs /\ List.length xs = List.length psrs.
Proof.
  induction psrs as [|p psrs IH]; cbn [for_each]; intros H.
  - exists []. auto.
  - destruct (H p (or_introl eq_refl)) as (x & ->). cbn [bind].
    destruct IH as (xs & -> & Hlen); [intros q Hq; apply H; right; exact Hq|].
    cbn [bind]. exists (x :: xs). split; [reflexivity|].
    cbn [List.length]. rewrite Hlen. reflexivity.
Qed.

Lemma array_min_returns (a : list Q) : a <> [] -> exists m, array_min a = Returned m.
Proof. destruct a; [contradiction|]. intros _. eexists. reflexivity. Qed.

Lemma array_max_returns (a : list Q) : a <> [] -> exists m, array_max a = Returned m.
Proof. destruct a; [contradiction|]. intros _. eexists. reflexivity. Qed.

(** A computed [Tspan] needs a pulsar, and times of arrival in each. *)
Lemma Tspan_covers_members (psrs : list (list Q)) (T : Q) :
  Tspan psrs = Returned T ->
  exists p, In p psrs /\ (forall q, In q psrs -> q <> []).
Proof.
  unfold Tspan.
  destruct (for_each array_min psrs) as [tmin|] eqn:Emin; cbn [bind]; [|discriminate].
  destruct (for_each array_max psrs) as [tmax|] eqn:Emax; cbn [bind]; [|discriminate].
  destruct (array_max tmax) as [hi|] eqn:Ehi; cbn [bind]; [|discriminate].
  intros _. apply for_each_spec in Emin, Emax.
  destruct psrs as [|p psrs].
  - inversion Emax; subst. discriminate.
  - exists p. split; [left; reflexivity|].
    intros q Hq ->. destruct (Forall2_in_l Emin _ Hq) as (m & _ & Hm).
    discriminate.
Qed.

(** X12: [Tspan] fails exactly when there is no pulsar or some pulsar has
    no time of arrival, and the exception is then ValueError. *)
Theorem Tspan_raises_iff (psrs : list (list Q)) :
  ((exists e, Tspan psrs = Raised e) <-> psrs = [] \/ In [] psrs) /\
  (forall e, Tspan psrs = Raised e -> e = ValueError).
Proof.
  assert (Hempty : forall (f : list Q -> result Q) p e,
            (f = array_min \/ f = array_max) -> f p = Raised e ->
            p = [] /\ e = ValueError).
  { intros f p e [-> | ->]; destruct p; cbn; intros H; inversion H; auto. }
  assert (Hraise : forall e, Tspan psrs = Raised e ->
            e = ValueError /\ (psrs = [] \/ In [] psrs)).
  { unfold Tspan. intros e.
    destruct (for_each array_min psrs) as [tmin|e1] eqn:Emin; cbn [bind].
    2:{ intros H. inversion H; subst.
        destruct (for_each_raises _ _ Emin) as (p & Hp & Hf).
        destruct (Hempty _ _ _ (or_introl eq_refl) Hf) as [-> ->]. auto. }
    destruct (for_each array_max psrs) as [tmax|e2] eqn:Emax; cbn [bind].
    2:{ intros H. inversion H; subst.
        destruct (for_each_raises _ _ Emax) as (p & Hp & Hf).
        destruct (Hempty _ _ _ (or_intror eq_refl) Hf) as [-> ->]. auto. }
    apply for_each_spec in Emin, Emax.
    destruct psrs as [|p psrs].
    { inversion Emax; subst. cbn. intros H. inversion H. auto. }
    inversion Emax; subst. inversion Emin; subst. cbn [array_max array_min bind].
    discriminate. }
  split.
  - split.
    + intros (e & He). apply Hraise in He. tauto.
    + intros Hbad. destruct (Tspan psrs) as [T|e] eqn:E; [|exists e; reflexivity].
      exfalso. destruct (@Tspan_covers_members _ _ E) as (p & Hp & Hne).
      destruct Hbad as [->|Hin]; [destruct Hp|].
      exact (Hne _ Hin eq_refl).
  - intros e He. apply Hraise in He. tauto.
Qed.

Lemma Tspan_is_the_largest_gap_witness :
  (exists p q t_hi t_lo,
     In p [[3; 1; 2]; [5; 4]]%Q /\ In q [[3; 1; 2]; [5; 4]]%Q /\
     In t_hi p /\ In t_lo q /\ (4 # 1)%Q = (t_hi - t_lo)%Q) /\
  (forall p q t t',
     In p [[3; 1; 2]; [5; 4]]%Q -> In q [[3; 1; 2]; [5; 4]]%Q ->
     In t p -> In t' q -> (t - t' <= 4 # 1)%Q).
Proof.
  apply (@Tspan_is_the_largest_gap [[3; 1; 2]; [5; 4]]%Q (4 # 1)%Q).
  vm_compute. reflexivity.
Defined.

Lemma Tspan_raises_iff_witness :
  exists e, Tspan [[1]; []]%Q = Raised e.
Proof.
  apply (proj2 (proj1 (Tspan_raises_iff [[1]; []]%Q))).
  right. simpl. auto.
Defined.

End TimespanFacts.

(** * More facts about the jump groups *)

Module JumpGroupsMore.

Import JumpGroups JumpGroupsFacts.

Lemma pair_groups_disjoint (ndim : nat) : pairwise_disjoint (pair_groups ndim).
Proof.
  intros j k g h Hjk Hg Hh i Hig Hih.
  rewrite pair_groups_closed in Hg, Hh.
  rewrite nth_error_map in Hg, Hh.
  destruct (nth_error (seq 0 (ndim / 2)) j) as [a|] eqn:Ha; [|discriminate].
  destruct (nth_error (seq 0 (ndim / 2)) k) as [b|] eqn:Hb; [|discriminate].
  apply nth_error_seq_inv in Ha, Hb.
  inversion Hg; subst g. inversion Hh; subst h.
  cbn [In] in Hig, Hih. lia.
Qed.

Lemma even_double_half (ndim : nat) :
  Nat.even ndim = true <-> 2 * (ndim / 2) = ndim.
Proof.
  assert (H := Nat.div_mod_eq ndim 2).
  rewrite <- Nat.bit0_mod, Nat.bit0_odd, <- Nat.negb_even in H.
  destruct (Nat.even ndim); cbn [negb Nat.b2n] in H; split; intros E;
    try discriminate; lia.
Qed.

(** X13: the pair groups alone partition the indices [0..ndim-1] exactly
    when [ndim] is even. *)
Theorem pair_groups_partition_iff_even (ndim : nat) :
  partition_of ndim (pair_groups ndim) <-> Nat.even ndim = true.
Proof.
  rewrite even_double_half. split.
  - intros [Hcov _].
    assert (Hle : 2 * (ndim / 2) <= ndim)
      by (apply Nat.Div0.mul_div_le).
    destruct (Nat.eq_dec (2 * (ndim / 2)) ndim) as [E|E]; [exact E|].
    exfalso. destruct (Hcov (ndim - 1)) as (g & Hg & Hi); [lia|].
    assert (Hin : In (ndim - 1) (List.concat (pair_groups ndim))).
    { apply in_concat. exists g. auto. }
    apply in_concat_pair_groups in Hin.
    assert (H := Nat.div_mod_eq ndim 2).
    assert (H2 := Nat.mod_upper_bound ndim 2). lia.
  - intros E. split; [|apply pair_groups_disjoint].
    intros i Hi. rewrite <- E in Hi.
    apply in_concat_pair_groups in Hi. apply in_concat in Hi.
    destruct Hi as (g & Hg & Hi). exists g. auto.
Qed.

Lemma in_groups (ndim : nat) (g : list nat) :
  In g (groups ndim) <->
  g = range 0 ndim 1 \/ In g (pair_groups ndim) \/ g = [36].
Proof.
  unfold groups. rewrite in_app_iff. cbn [app In]. intuition.
Qed.

(** X14: the groups handed to the sampler are [ndim/2 + 2] in number, and
    they hold only coordinate indices of the [ndim]-dimensional vector
    exactly when [ndim >= 37]; apart from the literal 36 every index in
    every group is always in range. *)
Theorem groups_indices_in_range (ndim : nat) :
  List.length (groups ndim) = ndim / 2 + 2 /\
  (forall g i, In g (range 0 ndim 1 :: pair_groups ndim) -> In i g -> i < ndim) /\
  ((forall g i, In g (groups ndim) -> In i g -> valid_index ndim i = true)
   <-> 37 <= ndim).
Proof.
  assert (Hle : 2 * (ndim / 2) <= ndim) by (apply Nat.Div0.mul_div_le).
  assert (Hin : forall g i,
            In g (range 0 ndim 1 :: pair_groups ndim) -> In i g -> i < ndim).
  { intros g i [<-|Hg] Hi.
    - rewrite range_unit in Hi. apply in_seq in Hi. lia.
    - assert (Hc : In i (List.concat (pair_groups ndim)))
        by (apply in_concat; exists g; auto).
      apply in_concat_pair_groups in Hc. lia. }
  split; [|split].
  - unfold groups. rewrite !length_app, pair_groups_closed, length_map, length_seq.
    cbn [List.length]. lia.
  - exact Hin.
  - unfold valid_index. split.
    + intros H. specialize (H [36] 36).
      rewrite Nat.ltb_lt in H. apply H; [|left; reflexivity].
      apply in_groups. auto.
    + intros Hn g i Hg Hi. apply Nat.ltb_lt. apply in_groups in Hg.
      destruct Hg as [->|[Hg| ->]].
      * apply (Hin (range 0 ndim 1)); [left; reflexivity|exact Hi].
      * apply (Hin g); [right; exact Hg|exact Hi].
      * destruct Hi as [<-|[]]. lia.
Qed.

End JumpGroupsMore.

(** * More facts about the upper limit *)

Module UpperLimitMore.

Import PyStr UpperLimit UpperLimitFacts.

(** ** Sorting *)

Lemma insert_length (x : Q) (l : list Q) :
  List.length (insert x l) = S (List.length l).
Proof.
  induction l as [|y l IH]; cbn [insert List.length]; [reflexivity|].
  destruct (Qle_bool x y); cbn [List.length]; [reflexivity|rewrite IH; reflexivity].
Qed.

Lemma sort_length (l : list Q) : List.length (sort l) = List.length l.
Proof.
  induction l as [|x l IH]; cbn [sort List.length]; [reflexivity|].
  rewrite insert_length, IH. reflexivity.
Qed.

Lemma insert_in (x y : Q) (l : list Q) : In y (insert x l) <-> y = x \/ In y l.
Proof.
  induction l as [|z l IH]; cbn [insert In].
  - intuition.
  - destruct (Qle_bool x z); cbn [In]; [intuition|]. rewrite IH. intuition.
Qed.

Lemma sort_in (y : Q) (l : list Q) : In y (sort l) <-> In y l.
Proof.
  induction l as [|x l IH]; cbn [sort In]; [tauto|].
  rewrite insert_in, IH. intuition.
Qed.

Lemma Qle_bool_false (x y : Q) : Qle_bool x y = false -> (y <= x)%Q.
Proof.
  intros E. destruct (Qlt_le_dec y x) as [H|H]; [apply Qlt_le_weak; exact H|].
  apply Qle_bool_iff in H. congruence.
Qed.

(** Every element is at most the ones after it. *)
Fixpoint ascending (l : list Q) : Prop :=
  match l with
  | [] => True
  | x :: rest => Forall (Qle x) rest /\ ascending rest
  end.

Lemma insert_ascending (x : Q) (l : list Q) :
  ascending l -> ascending (insert x l).
Proof.
  induction l as [|y l IH]; cbn [insert ascending].
  - intros _. split; [constructor|exact I].
  - intros [Hall Hs]. destruct (Qle_bool x y) eqn:E.
    + apply Qle_bool_iff in E. cbn [ascending]. split; [|split; assumption].
      constructor; [exact E|].
      eapply Forall_impl; [|exact Hall]. intros z Hz.
      eapply Qle_trans; eassumption.
    + apply Qle_bool_false in E. cbn [ascending]. split; [|apply IH; exact Hs].
      apply Forall_forall. intros z Hz. apply insert_in in Hz.
      destruct Hz as [->|Hz]; [exact E|].
      rewrite Forall_forall in Hall. apply Hall. exact Hz.
Qed.

Lemma sort_ascending (l : list Q) : ascending (sort l).
Proof.
  induction l as [|x l IH]; cbn [sort]; [exact I|].
  apply insert_ascending. exact IH.
Qed.

Lemma ascending_nth (l : list Q) :
  ascending l ->
  forall i j x y, i <= j -> nth_error l i = Some x -> nth_error l j = Some y ->
    (x <= y)%Q.
Proof.
  induction l as [|z l IH]; intros Hs i j x y Hij Hi Hj.
  - destruct i; discriminate.
  - destruct Hs as [Hall Hs].
    destruct i as [|i]; destruct j as [|j]; cbn [nth_error] in Hi, Hj.
    + inversion Hi; inversion Hj; subst. apply Qle_refl.
    + inversion Hi; subst. rewrite Forall_forall in Hall. apply Hall.
      eapply nth_error_In. exact Hj.
    + lia.
    + apply (IH Hs i j); [lia|assumption|assumption].
Qed.

(** ** The interpolation *)

(** What [quantile] reads: the two neighbours and the weight. *)
Definition below_of (n : nat) (p : Q) : nat :=
  Z.to_nat (Qfloor (p * (inject_Z (Z.of_nat n) - 1))).

Definition above_of (n : nat) (p : Q) : nat :=
  if n - 1 <? below_of n p + 1 then n - 1 else below_of n p + 1.

Lemma quantile_unfold (a : list Q) (p : Q) :
  quantile a p =
  (x1 <- item (sort a) (below_of (List.length a) p) ;;
   x2 <- item (sort a) (above_of (List.length a) p) ;;
   Returned
     (x1 * (1 - (p * (inject_Z (Z.of_nat (List.length a)) - 1)
                 - inject_Z (Z.of_nat (below_of (List.length a) p))))
      + x2 * (p * (inject_Z (Z.of_nat (List.length a)) - 1)
              - inject_Z (Z.of_nat (below_of (List.length a) p))))%Q).
Proof. unfold quantile, above_of, below_of. rewrite sort_length. reflexivity. Qed.

Section Index.

Variable n : nat.
Variable p : Q.
Hypothesis n_pos : 1 <= n.
Hypothesis p_range : (0 <= p <= 1)%Q.

Let t : Q := (p * (inject_Z (Z.of_nat n) - 1))%Q.

Lemma index_range : (0 <= t <= inject_Z (Z.of_nat n) - 1)%Q.
Proof.
  assert (Hn : (0 <= inject_Z (Z.of_nat n) - 1)%Q).
  { assert (H : (inject_Z 1 <= inject_Z (Z.of_nat n))%Q)
      by (rewrite <- Zle_Qle; lia).
    change (inject_Z 1) with 1%Q in H. Lqa.lra. }
  unfold t. destruct p_range as [H0 H1]. split.
  - apply Qmult_le_0_compat; assumption.
  - Lqa.nra.
Qed.

Lemma floor_range : (0 <= Qfloor t <= Z.of_nat n - 1)%Z.
Proof.
  destruct index_range as [H0 H1]. split.
  - rewrite <- (Qfloor_Z 0). apply Qfloor_resp_le. exact H0.
  - rewrite <- (Qfloor_Z (Z.of_nat n - 1)).
    apply Qfloor_resp_le.
    unfold Zminus. rewrite inject_Z_plus. exact H1.
Qed.

Lemma below_lt : below_of n p < n.
Proof. unfold below_of. fold t. destruct floor_range. lia. Qed.

Lemma above_lt : above_of n p < n.
Proof.
  unfold above_of. destruct (Nat.ltb_spec (n - 1) (below_of n p + 1)); lia.
Qed.

Lemma below_le_above : below_of n p <= above_of n p.
Proof.
  assert (H := below_lt). unfold above_of.
  destruct (Nat.ltb_spec (n - 1) (below_of n p + 1)); lia.
Qed.

Lemma weight_range :
  (0 <= t - inject_Z (Z.of_nat (below_of n p)) < 1)%Q.
Proof.
  unfold below_of. fold t. destruct floor_range as [H0 _].
  rewrite Z2Nat.id by exact H0.
  assert (H1 := Qfloor_le t). assert (H2 := Qlt_floor t).
  rewrite inject_Z_plus in H2. change (inject_Z 1) with 1%Q in H2.
  split; Lqa.lra.
Qed.

End Index.

(** ** The percentile *)

Lemma item_some (A : Type) (l : list A) (i : nat) (x : A) :
  item l i = Returned x <-> nth_error l i = Some x.
Proof.
  unfold item. destruct (nth_error l i); split; intros H; inversion H; reflexivity.
Qed.

Lemma item_lt (A : Type) (l : list A) (i : nat) :
  i < List.length l -> exists x, item l i = Returned x.
Proof.
  intros H. unfold item. destruct (nth_error l i) eqn:E; [eexists; reflexivity|].
  apply nth_error_None in E. lia.
Qed.

Lemma item_raises (A : Type) (l : list A) (i : nat) (e : exn) :
  item l i = Raised e -> e = IndexError /\ List.length l <= i.
Proof.
  unfold item. destruct (nth_error l i) eqn:E; intros H; inversion H.
  split; [reflexivity|]. apply nth_error_None. exact E.
Qed.

(** The percentage is in range. *)
Definition valid_q (q : Q) : Prop := (0 <= q <= 100)%Q.

Lemma valid_q_check (q : Q) :
  Qle_bool 0 q && Qle_bool q 100 = true <-> valid_q q.
Proof.
  unfold valid_q. rewrite andb_true_iff, !Qle_bool_iff. tauto.
Qed.

Lemma valid_q_fraction (q : Q) : valid_q q -> (0 <= q / 100 <= 1)%Q.
Proof.
  unfold valid_q. intros [H0 H1].
  assert (E : (q / 100 == q * (1 # 100))%Q) by (unfold Qdiv; reflexivity).
  rewrite E. split; Lqa.lra.
Qed.

(** The reading of [quantile] on a non-empty sample: two neighbours of the
    sorted sample and a weight in [0, 1). *)
Lemma quantile_reading (a : list Q) (p : Q) :
  a <> [] -> (0 <= p <= 1)%Q ->
  exists x1 x2 w,
    nth_error (sort a) (below_of (List.length a) p) = Some x1 /\
    nth_error (sort a) (above_of (List.length a) p) = Some x2 /\
    (0 <= w < 1)%Q /\ (x1 <= x2)%Q /\
    w = (p * (inject_Z (Z.of_nat (List.length a)) - 1)
         - inject_Z (Z.of_nat (below_of (List.length a) p)))%Q /\
    quantile a p = Returned (x1 * (1 - w) + x2 * w)%Q.
Proof.
  intros Ha Hp.
  assert (Hn : 1 <= List.length a) by (destruct a; [contradiction|cbn; lia]).
  assert (Hb : below_of (List.length a) p < List.length (sort a))
    by (rewrite sort_length; apply below_lt; assumption).
  assert (Hab : above_of (List.length a) p < List.length (sort a))
    by (rewrite sort_length; apply above_lt; exact Hn).
  destruct (@item_lt _ (sort a) _ Hb) as (x1 & H1).
  destruct (@item_lt _ (sort a) _ Hab) as (x2 & H2).
  exists x1, x2,
    (p * (inject_Z (Z.of_nat (List.length a)) - 1)
     - inject_Z (Z.of_nat (below_of (List.length a) p)))%Q.
  rewrite quantile_unfold, H1, H2. cbn [bind].
  apply item_some in H1, H2.
  split; [exact H1|]. split; [exact H2|].
  split; [apply weight_range; assumption|].
  split; [|split; reflexivity].
  eapply (@ascending_nth (sort a)); [apply sort_ascending| |exact H1|exact H2].
  apply below_le_above; assumption.
Qed.

(** [np.percentile] returns a value exactly for a non-empty sample and a
    percentage between 0 and 100, and the value lies between two samples. *)
Lemma percentile_within_samples (a : list Q) (q : Q) :
  ((exists v, percentile a q = Returned v) <-> a <> [] /\ valid_q q) /\
  (forall v, percentile a q = Returned v ->
     exists lo hi, In lo a /\ In hi a /\ (lo <= v <= hi)%Q).
Proof.
  assert (Hfwd : forall v, percentile a q = Returned v -> a <> [] /\ valid_q q).
  { unfold percentile. intros v.
    destruct (Qle_bool 0 q && Qle_bool q 100) eqn:Eq; [|discriminate].
    intros H. split; [|apply valid_q_check; exact Eq].
    intros ->. rewrite quantile_unfold in H. cbn [sort] in H. unfold item in H.
    destruct (below_of (List.length (@nil Q)) (q / 100)); discriminate. }
  split.
  - split.
    + intros (v & Hv). exact (Hfwd v Hv).
    + intros [Ha Hq]. unfold percentile.
      rewrite (proj2 (valid_q_check q) Hq).
      destruct (quantile_reading Ha (valid_q_fraction Hq))
        as (x1 & x2 & w & _ & _ & _ & _ & _ & ->).
      eexists. reflexivity.
  - intros v Hv. destruct (Hfwd v Hv) as [Ha Hq].
    unfold percentile in Hv. rewrite (proj2 (valid_q_check q) Hq) in Hv.
    destruct (quantile_reading Ha (valid_q_fraction Hq))
      as (x1 & x2 & w & H1 & H2 & [Hw0 Hw1] & H12 & _ & Hval).
    rewrite Hval in Hv. inversion Hv; subst v.
    exists x1, x2. split; [|split].
    + apply sort_in. eapply nth_error_In. exact H1.
    + apply sort_in. eapply nth_error_In. exact H2.
    + split; Lqa.nra.
Qed.

(** ** The quantile grows with the rank fraction *)

Lemma below_mono (n : nat) (p p' : Q) :
  1 <= n -> (0 <= p)%Q -> (p <= p')%Q -> below_of n p <= below_of n p'.
Proof.
  intros Hn H0 Hpp. unfold below_of. apply Z2Nat.inj_le.
  - rewrite <- (Qfloor_Z 0). apply Qfloor_resp_le.
    assert (H : (inject_Z 1 <= inject_Z (Z.of_nat n))%Q)
      by (rewrite <- Zle_Qle; lia).
    change (inject_Z 1) with 1%Q in H.
    apply Qmult_le_0_compat; Lqa.lra.
  - rewrite <- (Qfloor_Z 0). apply Qfloor_resp_le.
    assert (H : (inject_Z 1 <= inject_Z (Z.of_nat n))%Q)
      by (rewrite <- Zle_Qle; lia).
    change (inject_Z 1) with 1%Q in H.
    apply Qmult_le_0_compat; Lqa.lra.
  - apply Qfloor_resp_le.
    assert (H : (inject_Z 1 <= inject_Z (Z.of_nat n))%Q)
      by (rewrite <- Zle_Qle; lia).
    change (inject_Z 1) with 1%Q in H. Lqa.nra.
Qed.

Lemma quantile_mono (a : list Q) (p p' v v' : Q) :
  (0 <= p)%Q -> (p <= p')%Q -> (p' <= 1)%Q ->
  quantile a p = Returned v -> quantile a p' = Returned v' -> (v <= v')%Q.
Proof.
  intros H0 Hpp H1 Hv Hv'.
  assert (Ha : a <> []).
  { intros ->. rewrite quantile_unfold in Hv. cbn [sort] in Hv. unfold item in Hv.
    destruct (below_of (List.length (@nil Q)) p); discriminate. }
  assert (Hn : 1 <= List.length a) by (destruct a; [contradiction|cbn; lia]).
  assert (Hp : (0 <= p <= 1)%Q) by (split; Lqa.lra).
  assert (Hp' : (0 <= p' <= 1)%Q) by (split; Lqa.lra).
  destruct (quantile_reading Ha Hp)
    as (x1 & x2 & w & N1 & N2 & [W0 W1] & X12 & Ew & E).
  destruct (quantile_reading Ha Hp')
    as (y1 & y2 & w' & M1 & M2 & [W0' W1'] & Y12 & Ew' & E').
  rewrite E in Hv. rewrite E' in Hv'. inversion Hv; inversion Hv'; subst v v'.
  assert (Hb := below_mono Hn H0 Hpp).
  assert (Hsize : (inject_Z 1 <= inject_Z (Z.of_nat (List.length a)))%Q)
    by (rewrite <- Zle_Qle; lia).
  change (inject_Z 1) with 1%Q in Hsize.
  destruct (Nat.eq_dec (below_of (List.length a) p) (below_of (List.length a) p'))
    as [Eb|Nb].
  - assert (Ea : above_of (List.length a) p = above_of (List.length a) p')
      by (unfold above_of; rewrite Eb; reflexivity).
    rewrite Eb in N1. rewrite Ea in N2.
    rewrite N1 in M1. rewrite N2 in M2. inversion M1; inversion M2; subst y1 y2.
    assert (Hw : (w <= w')%Q).
    { rewrite Ew, Ew', Eb. Lqa.nra. }
    Lqa.nra.
  - assert (Hlt : above_of (List.length a) p <= below_of (List.length a) p').
    { unfold above_of.
      destruct (Nat.ltb_spec (List.length a - 1) (below_of (List.length a) p + 1));
        lia. }
    assert (Hmid : (x2 <= y1)%Q).
    { eapply (@ascending_nth (sort a)); [apply sort_ascending|exact Hlt| |];
        eassumption. }
    assert (Hv1 : (x1 * (1 - w) + x2 * w <= x2)%Q) by Lqa.nra.
    assert (Hv2 : (y1 <= y1 * (1 - w') + y2 * w')%Q) by Lqa.nra.
    Lqa.lra.
Qed.

Lemma pow10_mono (x y : Q) : (x <= y)%Q -> (pow10 x <= pow10 y)%R.
Proof.
  intros H. unfold pow10. apply Rle_Rpower; [lra|].
  apply Qle_Rle. exact H.
Qed.

(** X15: whenever the notebook's read-out and the 95th-percentile read-out
    both return, the reported limit is at most the 95% limit: taking
    [q=0.95] can only understate the upper limit. *)
Theorem upper_at_most_upper_95 (chain : list (list Q)) (u u' : R) :
  upper chain = Returned u ->
  upper_95 chain = Returned u' ->
  (u <= u')%R.
Proof.
  unfold upper, upper_95.
  destruct (post_burn_column chain) as [col|]; cbn [bind]; [|discriminate].
  unfold percentile.
  change (Qle_bool 0 (95 # 100) && Qle_bool (95 # 100) 100) with true.
  change (Qle_bool 0 95 && Qle_bool 95 100) with true.
  cbv iota. unfold map_result.
  destruct (quantile col ((95 # 100) / 100)) as [v|] eqn:Ev; cbn [bind];
    [|discriminate].
  destruct (quantile col (95 / 100)) as [v'|] eqn:Ev'; cbn [bind];
    [|discriminate].
  intros H H'. inversion H; inversion H'; subst u u'.
  apply pow10_mono.
  apply (@quantile_mono col ((95 # 100) / 100)%Q (95 / 100)%Q);
    try assumption; vm_compute; discriminate.
Qed.

(** ** Burn-in and the column read *)

Lemma item_from_end_spec (row : list Q) (k : nat) :
  (k <= List.length row ->
   item_from_end row k = item row (List.length row - k)) /\
  (List.length row < k -> item_from_end row k = Raised IndexError).
Proof.
  unfold item_from_end. destruct (Nat.leb_spec k (List.length row)); split;
    intros; try reflexivity; lia.
Qed.

Lemma column_from_end_returns (k : nat) (rows : list (list Q)) :
  1 <= k ->
  (forall col, column_from_end rows k = Returned col ->
     Forall2 (fun row x => k <= List.length row /\
                           nth_error row (List.length row - k) = Some x)
             rows col) /\
  (Forall (fun row => k <= List.length row) rows ->
   exists col, column_from_end rows k = Returned col) /\
  (forall e, column_from_end rows k = Raised e ->
     e = IndexError /\ exists row, In row rows /\ List.length row < k).
Proof.
  intros Hk. induction rows as [|row rows IH]; cbn [column_from_end].
  - split; [|split].
    + intros col H. inversion H. constructor.
    + intros _. eexists. reflexivity.
    + discriminate.
  - destruct IH as (IH1 & IH2 & IH3).
    destruct (item_from_end_spec row k) as [Hok Hbad].
    destruct (Nat.le_gt_cases k (List.length row)) as [Hle|Hgt].
    + rewrite (Hok Hle).
      destruct (@item_lt _ row (List.length row - k)) as (x & Hx); [lia|].
      rewrite Hx. cbn [bind]. apply item_some in Hx.
      split; [|split].
      * intros col H.
        destruct (column_from_end rows k) as [xs|]; cbn [bind] in H;
          [|discriminate].
        inversion H; subst. constructor; [auto|apply IH1; reflexivity].
      * intros Hall. inversion Hall; subst.
        destruct (IH2 H2) as (xs & ->). cbn [bind]. eexists. reflexivity.
      * intros e H.
        destruct (column_from_end rows k) as [xs|e'] eqn:E; cbn [bind] in H;
          [discriminate|].
        inversion H; subst. destruct (IH3 e eq_refl) as [-> (r & Hr & Hlen)].
        split; [reflexivity|]. exists r. split; [right|]; assumption.
    + rewrite (Hbad Hgt). cbn [bind]. split; [|split].
      * discriminate.
      * intros Hall. inversion Hall; subst. lia.
      * intros e H. inversion H; subst. split; [reflexivity|].
        exists row. split; [left; reflexivity|exact Hgt].
Qed.

(** X16: the column read after burn-in: the first quarter of the rows
    (rounded down) is dropped, so at least three quarters remain, and the
    entry taken from each remaining row is its fifth from the end. *)
Theorem post_burn_column_rows (chain : list (list Q)) (col : list Q) :
  post_burn_column chain = Returned col ->
  List.length col = List.length chain - List.length chain / 4 /\
  3 * List.length chain <= 4 * List.length col /\
  Forall2 (fun row x => 5 <= List.length row /\
                        nth_error row (List.length row - 5) = Some x)
          (skipn (List.length chain / 4) chain) col.
Proof.
  unfold post_burn_column, burn_of. intros H.
  destruct (@column_from_end_returns 5 (skipn (List.length chain / 4) chain))
    as (H1 & _ & _); [lia|].
  specialize (H1 col H).
  assert (Hlen : List.length col = List.length chain - List.length chain / 4).
  { rewrite <- (Forall2_length H1), length_skipn. reflexivity. }
  split; [exact Hlen|]. split; [|exact H1].
  assert (Hq := Nat.Div0.mul_div_le (List.length chain) 4). lia.
Qed.





(** X18: a returned limit lies between [10**lo] and [10**hi] for two
    entries [lo], [hi] of the post-burn column: the read-out never leaves
    the range of the samples it summarises. *)
Theorem upper_within_samples (chain : list (list Q)) (u : R) :
  upper chain = Returned u ->
  exists col lo hi,
    post_burn_column chain = Returned col /\
    In lo col /\ In hi col /\
    (pow10 lo <= u <= pow10 hi)%R.
Proof.
  unfold upper, map_result.
  destruct (post_burn_column chain) as [col|]; cbn [bind]; [|discriminate].
  destruct (percentile col (95 # 100)) as [v|] eqn:Ev; cbn [bind];
    [|discriminate].
  intros H. inversion H; subst u.
  destruct (percentile_within_samples col (95 # 100)) as [_ Hin].
  destruct (Hin v Ev) as (lo & hi & Hlo & Hhi & [L U]).
  exists col, lo, hi. split; [reflexivity|]. split; [exact Hlo|].
  split; [exact Hhi|]. split; apply pow10_mono; assumption.
Qed.

(** A chain of eight rows of six columns; the fifth column from the end
    holds the amplitude samples. *)
Definition sample_chain : list (list Q) :=
  [[0; 9; 0; 0; 0; 0]; [0; 8; 0; 0; 0; 0];
   [0; 3; 0; 0; 0; 0]; [0; 1; 0; 0; 0; 0];
   [0; 2; 0; 0; 0; 0]; [0; 5; 0; 0; 0; 0];
   [0; 4; 0; 0; 0; 0]; [0; 6; 0; 0; 0; 0]]%Q.

Lemma upper_at_most_upper_95_witness :
  exists u u',
    upper sample_chain = Returned u /\
    upper_95 sample_chain = Returned u' /\
    (u <= u')%R.
Proof.
  eexists. eexists. split; [reflexivity|]. split; [reflexivity|].
  apply (@upper_at_most_upper_95 sample_chain); reflexivity.
Defined.

Lemma post_burn_column_rows_witness :
  post_burn_column sample_chain = Returned [3; 1; 2; 5; 4; 6]%Q /\
  List.length [3; 1; 2; 5; 4; 6]%Q =
    List.length sample_chain - List.length sample_chain / 4 /\
  3 * List.length sample_chain <= 4 * List.length [3; 1; 2; 5; 4; 6]%Q /\
  Forall2 (fun row x => 5 <= List.length row /\
                        nth_error row (List.length row - 5) = Some x)
          (skipn (List.length sample_chain / 4) sample_chain)
          [3; 1; 2; 5; 4; 6]%Q.
Proof.
  split; [reflexivity|].
  apply (@post_burn_column_rows sample_chain). reflexivity.
Defined.

Lemma upper_within_samples_witness :
  exists u,
    upper sample_chain = Returned u /\
    exists col lo hi,
      post_burn_column sample_chain = Returned col /\
      In lo col /\ In hi col /\
      (pow10 lo <= u <= pow10 hi)%R.
Proof.
  eexists. split; [reflexivity|].
  apply (@upper_within_samples sample_chain). reflexivity.
Defined.


(** One row of six values is loaded as a vector: the read-out fails. *)
Lemma upper_of_one_row :
  Loaded.upper [[0; 7; 0; 0; 0; 0]%Q] = Raised IndexError.
Proof. reflexivity. Qed.

(** ** The rank of the reported limit *)

Lemma insert_perm (x : Q) (l : list Q) : Permutation (x :: l) (insert x l).
Proof.
  induction l as [|y l IH]; cbn [insert]; [apply Permutation_refl|].
  destruct (Qle_bool x y); [apply Permutation_refl|].
  eapply perm_trans; [apply perm_swap|]. apply perm_skip. exact IH.
Qed.

Lemma sort_perm (l : list Q) : Permutation l (sort l).
Proof.
  induction l as [|x l IH]; cbn [sort]; [constructor|].
  eapply perm_trans; [apply perm_skip; exact IH|]. apply insert_perm.
Qed.

(** No two entries are equal as numbers. *)
Fixpoint distinct (l : list Q) : Prop :=
  match l with
  | [] => True
  | x :: rest => Forall (fun y => ~ (x == y)%Q) rest /\ distinct rest
  end.

Lemma distinct_perm (l l' : list Q) :
  Permutation l l' -> distinct l -> distinct l'.
Proof.
  induction 1 as [|x l l' Hp IH|x y l|l l' l'' _ IH1 _ IH2]; cbn [distinct].
  - trivial.
  - intros [Hx Hl]. split; [|apply IH; exact Hl].
    eapply Permutation_Forall; eassumption.
  - intros [Hy [Hx Hl]]. inversion Hy as [|? ? Hyx Hyl]; subst.
    split; [|split; assumption].
    constructor; [|exact Hx]. intros E. apply Hyx. symmetry. exact E.
  - intros H. apply IH2. apply IH1. exact H.
Qed.

Lemma distinct_nth (l : list Q) :
  distinct l ->
  forall i j x y, i < j -> nth_error l i = Some x -> nth_error l j = Some y ->
    ~ (x == y)%Q.
Proof.
  induction l as [|z l IH]; intros Hd i j x y Hij Hi Hj.
  - destruct i; discriminate.
  - destruct Hd as [Hall Hd].
    destruct i as [|i]; destruct j as [|j]; cbn [nth_error] in Hi, Hj;
      try lia.
    + inversion Hi; subst. rewrite Forall_forall in Hall. apply Hall.
      eapply nth_error_In. exact Hj.
    + apply (IH Hd i j); [lia|assumption|assumption].
Qed.

Lemma strict_nth (l : list Q) (i j : nat) (x y : Q) :
  ascending l -> distinct l -> i < j ->
  nth_error l i = Some x -> nth_error l j = Some y -> (x < y)%Q.
Proof.
  intros Ha Hd Hij Hi Hj.
  assert (Hle : (x <= y)%Q).
  { eapply (@ascending_nth l Ha i j); [lia|assumption|assumption]. }
  assert (Hne := @distinct_nth l Hd i j x y Hij Hi Hj).
  destruct (Qlt_le_dec x y) as [H|H]; [exact H|].
  exfalso. apply Hne. apply Qle_antisym; assumption.
Qed.

Lemma filter_length_perm (f : Q -> bool) (l l' : list Q) :
  Permutation l l' ->
  List.length (filter f l) = List.length (filter f l').
Proof.
  induction 1 as [|x l l' _ IH|x y l|l l' l'' _ IH1 _ IH2]; cbn [filter].
  - reflexivity.
  - destruct (f x); cbn [List.length]; rewrite IH; reflexivity.
  - destruct (f x), (f y); reflexivity.
  - rewrite IH1. exact IH2.
Qed.

(** In an ascending list the entries at most [v] come before every entry
    above [v]. *)
Lemma count_at_most (l : list Q) (v : Q) :
  ascending l ->
  forall j y, nth_error l j = Some y -> (v < y)%Q ->
    List.length (filter (fun z => Qle_bool z v) l) <= j.
Proof.
  induction l as [|x l IH]; intros Ha j y Hj Hv.
  - destruct j; discriminate.
  - destruct Ha as [Hall Ha]. destruct j as [|j]; cbn [nth_error] in Hj.
    + inversion Hj; subst x.
      assert (E : filter (fun z => Qle_bool z v) (y :: l) = []).
      { apply (proj2 (@Forall_forall _ _ _)) in Hall || idtac.
        cbn [filter].
        assert (Ey : Qle_bool y v = false).
        { destruct (Qle_bool y v) eqn:E; [|reflexivity].
          apply Qle_bool_iff in E. exfalso.
          apply (Qlt_irrefl v). eapply Qlt_le_trans; eassumption. }
        rewrite Ey.
        clear - Hall Hv. induction l as [|z l IH]; [reflexivity|].
        inversion Hall; subst. cbn [filter].
        destruct (Qle_bool z v) eqn:E; [|apply IH; assumption].
        apply Qle_bool_iff in E. exfalso.
        apply (Qlt_irrefl v). eapply Qlt_le_trans; [exact Hv|].
        eapply Qle_trans; eassumption. }
      rewrite E. cbn [List.length]. lia.
    + specialize (IH Ha j y Hj Hv). cbn [filter].
      destruct (Qle_bool x v); cbn [List.length]; lia.
Qed.

Lemma above_min (n : nat) (p : Q) :
  above_of n p = Nat.min (below_of n p + 1) (n - 1).
Proof.
  unfold above_of. destruct (Nat.ltb_spec (n - 1) (below_of n p + 1)); lia.
Qed.

(** Below the top rank the two neighbours are different places. *)
Lemma above_next (n : nat) (p : Q) :
  2 <= n -> (0 <= p)%Q -> (p < 1)%Q -> above_of n p = below_of n p + 1.
Proof.
  intros Hn H0 H1.
  assert (Hsize : (inject_Z 2 <= inject_Z (Z.of_nat n))%Q)
    by (rewrite <- Zle_Qle; lia).
  change (inject_Z 2) with 2%Q in Hsize.
  assert (Hw := @weight_range n p ltac:(lia) ltac:(split; Lqa.lra)).
  assert (Hk : (inject_Z (Z.of_nat (below_of n p))
                < inject_Z (Z.of_nat n) - 1)%Q) by Lqa.nra.
  assert (Hk' : (Z.of_nat (below_of n p) < Z.of_nat n - 1)%Z).
  { rewrite Zlt_Qlt. unfold Zminus. rewrite inject_Z_plus. exact Hk. }
  rewrite above_min. lia.
Qed.

(** On distinct samples the quantile grows strictly with the rank
    fraction. *)
Lemma quantile_strict (a : list Q) (p p' v v' : Q) :
  2 <= List.length a -> distinct a ->
  (0 <= p)%Q -> (p < p')%Q -> (p' <= 1)%Q ->
  quantile a p = Returned v -> quantile a p' = Returned v' -> (v < v')%Q.
Proof.
  intros Hn Hd H0 Hpp H1 Hv Hv'.
  assert (Ha : a <> []) by (intros ->; cbn in Hn; lia).
  assert (Hp : (0 <= p <= 1)%Q) by (split; Lqa.lra).
  assert (Hp' : (0 <= p' <= 1)%Q) by (split; Lqa.lra).
  destruct (quantile_reading Ha Hp)
    as (x1 & x2 & w & N1 & N2 & [W0 W1] & X12 & Ew & E).
  destruct (quantile_reading Ha Hp')
    as (y1 & y2 & w' & M1 & M2 & [W0' W1'] & Y12 & Ew' & E').
  rewrite E in Hv. rewrite E' in Hv'. inversion Hv; inversion Hv'; subst v v'.
  assert (Hb : below_of (List.length a) p <= below_of (List.length a) p')
    by (apply below_mono; [lia|assumption|Lqa.lra]).
  assert (Hsize : (inject_Z 2 <= inject_Z (Z.of_nat (List.length a)))%Q)
    by (rewrite <- Zle_Qle; lia).
  change (inject_Z 2) with 2%Q in Hsize.
  assert (Hnext := @above_next (List.length a) p Hn H0 ltac:(Lqa.lra)).
  assert (Hs : ascending (sort a)) by apply sort_ascending.
  assert (Hds : distinct (sort a))
    by (eapply distinct_perm; [apply sort_perm|exact Hd]).
  assert (X : (x1 < x2)%Q).
  { apply (@strict_nth (sort a) (below_of (List.length a) p)
             (above_of (List.length a) p)); try assumption. lia. }
  destruct (Nat.eq_dec (below_of (List.length a) p) (below_of (List.length a) p'))
    as [Eb|Nb].
  - assert (Ea : above_of (List.length a) p = above_of (List.length a) p')
      by (unfold above_of; rewrite Eb; reflexivity).
    rewrite Eb in N1. rewrite Ea in N2.
    rewrite N1 in M1. rewrite N2 in M2. inversion M1; inversion M2; subst y1 y2.
    assert (Hw : (w < w')%Q).
    { rewrite Ew, Ew', Eb. Lqa.nra. }
    Lqa.nra.
  - assert (Hlt : above_of (List.length a) p <= below_of (List.length a) p')
      by lia.
    assert (Hmid : (x2 <= y1)%Q).
    { eapply (@ascending_nth (sort a)); [exact Hs|exact Hlt| |]; eassumption. }
    assert (Hv1 : (x1 * (1 - w) + x2 * w < x2)%Q) by Lqa.nra.
    assert (Hv2 : (y1 <= y1 * (1 - w') + y2 * w')%Q) by Lqa.nra.
    Lqa.lra.
Qed.

Lemma pow10_strict (x y : Q) : (x < y)%Q -> (pow10 x < pow10 y)%R.
Proof.
  intros H. unfold pow10. apply Rpower_lt; [lra|].
  apply Qlt_Rlt. exact H.
Qed.

(** C10: the reported limit is ten to the power of the value at rank
    fraction 0.0095 (the percentage 0.95 on numpy's scale from 0 to 100)
    of the post-burn column: in the sorted column [s], with the virtual
    index [0.0095 (n - 1)] between the places [k] and [k + 1], it is the
    value interpolated linearly between [s[k]] and [s[k+1]].  It is not the
    95th percentile: on two or more distinct samples fewer than 95% of them
    lie at or below it, and it is strictly less than the read-out taken
    with the percentage 95. *)
Theorem upper_is_the_0_95th_percentile (chain : list (list Q)) (u : R) :
  upper chain = Returned u ->
  exists (col s : list Q) (k : nat) (lo hi v : Q),
    post_burn_column chain = Returned col /\
    Permutation col s /\ ascending s /\
    (inject_Z (Z.of_nat k)
       <= (95 # 10000) * (inject_Z (Z.of_nat (List.length col)) - 1)
       < inject_Z (Z.of_nat k) + 1)%Q /\
    nth_error s k = Some lo /\
    nth_error s (Nat.min (k + 1) (List.length col - 1)) = Some hi /\
    (v == lo + ((95 # 10000) * (inject_Z (Z.of_nat (List.length col)) - 1)
                - inject_Z (Z.of_nat k)) * (hi - lo))%Q /\
    u = Rpower 10 (Q2R v) /\
    (2 <= List.length col -> distinct col ->
     100 * List.length (filter (fun y => Qle_bool y v) col)
       < 95 * List.length col /\
     forall u95, upper_95 chain = Returned u95 -> (u < u95)%R).
Proof.
  unfold upper, upper_95, map_result.
  destruct (post_burn_column chain) as [col|]; cbn [bind]; [|discriminate].
  rewrite percentile_095.
  destruct (quantile col (95 # 10000)) as [v|] eqn:Ev; cbn [bind];
    [|discriminate].
  intros H. inversion H; subst u. clear H.
  assert (Ha : col <> []).
  { intros ->. rewrite quantile_unfold in Ev. cbn [sort] in Ev.
    unfold item in Ev.
    destruct (below_of (List.length (@nil Q)) (95 # 10000)); discriminate. }
  assert (Hn : 1 <= List.length col)
    by (destruct col; [contradiction|cbn [List.length]; lia]).
  assert (Hp : (0 <= 95 # 10000 <= 1)%Q) by (split; vm_compute; discriminate).
  destruct (quantile_reading Ha Hp)
    as (x1 & x2 & w & N1 & N2 & [W0 W1] & X12 & Ew & E).
  rewrite E in Ev. inversion Ev; subst v. clear Ev.
  set (n := List.length col) in *.
  set (k := below_of n (95 # 10000)) in *.
  exists col, (sort col), k, x1, x2, (x1 * (1 - w) + x2 * w)%Q.
  fold n.
  split; [reflexivity|]. split; [apply sort_perm|].
  split; [apply sort_ascending|].
  split; [rewrite Ew in W0, W1; split; Lqa.lra|].
  split; [exact N1|].
  split; [rewrite (above_min n (95 # 10000)) in N2; exact N2|].
  split; [rewrite <- Ew; ring|].
  split; [reflexivity|].
  intros Hn2 Hd.
  assert (Hnext : above_of n (95 # 10000) = k + 1).
  { apply above_next; [exact Hn2|vm_compute; discriminate|reflexivity]. }
  assert (Hs : ascending (sort col)) by apply sort_ascending.
  assert (Hds : distinct (sort col))
    by (eapply distinct_perm; [apply sort_perm|exact Hd]).
  assert (X : (x1 < x2)%Q).
  { apply (@strict_nth (sort col) k (above_of n (95 # 10000)));
      try assumption. lia. }
  split.
  - assert (Hc : List.length
                   (filter (fun y => Qle_bool y (x1 * (1 - w) + x2 * w)) col)
                 <= k + 1).
    { rewrite (filter_length_perm _ (sort_perm col)).
      rewrite <- Hnext.
      apply (@count_at_most (sort col) _ Hs _ x2 N2). Lqa.nra. }
    assert (Hsize : (inject_Z 2 <= inject_Z (Z.of_nat n))%Q)
      by (rewrite <- Zle_Qle; lia).
    change (inject_Z 2) with 2%Q in Hsize.
    assert (Hk : (100 * (inject_Z (Z.of_nat k) + 1)
                  < 95 * inject_Z (Z.of_nat n))%Q).
    { rewrite Ew in W0. Lqa.lra. }
    assert (Hz : (100 * (Z.of_nat k + 1) < 95 * Z.of_nat n)%Z).
    { rewrite Zlt_Qlt, !inject_Z_mult, inject_Z_plus. exact Hk. }
    lia.
  - intros u95.
    unfold percentile.
    change (Qle_bool 0 95 && Qle_bool 95 100) with true. cbv iota.
    destruct (quantile col (95 / 100)) as [v95|] eqn:E95; cbn [bind];
      [|discriminate].
    intros H. inversion H; subst u95.
    apply pow10_strict.
    apply (@quantile_strict col (95 # 10000) (95 / 100)); try assumption.
    + vm_compute; discriminate.
    + reflexivity.
    + vm_compute; discriminate.
Qed.

Lemma upper_is_the_0_95th_percentile_witness :
  exists u : R,
    upper two_samples = Returned u /\
    exists (col s : list Q) (k : nat) (lo hi v : Q),
      post_burn_column two_samples = Returned col /\
      Permutation col s /\ ascending s /\
      (inject_Z (Z.of_nat k)
         <= (95 # 10000) * (inject_Z (Z.of_nat (List.length col)) - 1)
         < inject_Z (Z.of_nat k) + 1)%Q /\
      nth_error s k = Some lo /\
      nth_error s (Nat.min (k + 1) (List.length col - 1)) = Some hi /\
      (v == lo + ((95 # 10000) * (inject_Z (Z.of_nat (List.length col)) - 1)
                  - inject_Z (Z.of_nat k)) * (hi - lo))%Q /\
      u = Rpower 10 (Q2R v) /\
      (2 <= List.length col -> distinct col ->
       100 * List.length (filter (fun y => Qle_bool y v) col)
         < 95 * List.length col /\
       forall u95, upper_95 two_samples = Returned u95 -> (u < u95)%R).
Proof.
  eexists. split; [reflexivity|].
  apply (@upper_is_the_0_95th_percentile two_samples). reflexivity.
Defined.

End UpperLimitMore.
